(** * Blockchain_Voting_App: the ledger, the voter registry and the coordinator

    A shallow embedding of [blockchain_voting/voting/vote.py],
    [blockchain_voting/blockchain/block.py],
    [blockchain_voting/blockchain/blockchain.py],
    [blockchain_voting/voting/voter_manager.py] and
    [blockchain_voting/voting/voting_system.py], with the parts of the Python
    runtime they call ([json.dumps], [json.load], [hashlib.sha256],
    [str.encode], sets). *)

From Stdlib Require Import ZArith NArith List Bool Lia String Ascii.
From Stdlib Require Import SpecFloat.
From Stdlib Require DecimalString DecimalZ DecimalPos DecimalFacts.
From Stdlib Require Sorted.
Import ListNotations.


#[local] Set Warnings "-register-all".

(* ================================================================== *)
(** * Python values *)
(* ================================================================== *)

Module Py.

(** A Python [str] is a sequence of code points. Nothing in the type
    excludes the surrogate range D800..DFFF: Python does not either. *)
Definition codepoint := N.
Definition str := list codepoint.

(** The [str] of an ASCII literal. *)
Definition lit (s : string) : str :=
  List.map N_of_ascii (list_ascii_of_string s).

Definition codepoint_eqb : codepoint -> codepoint -> bool := N.eqb.

Fixpoint str_eqb (a b : str) : bool :=
  match a, b with
  | [], [] => true
  | x :: a', y :: b' => N.eqb x y && str_eqb a' b'
  | _, _ => false
  end.

(** [a < b] on [str]: lexicographic on code points. *)
Fixpoint str_ltb (a b : str) : bool :=
  match a, b with
  | [], [] => false
  | [], _ :: _ => true
  | _ :: _, [] => false
  | x :: a', y :: b' =>
      if N.ltb x y then true
      else if N.ltb y x then false
      else str_ltb a' b'
  end.

(** A Python [float] is an IEEE 754 binary64 value. *)
Definition float := spec_float.

Definition float_zero : float := S754_zero false.

(** [x <= 0] on floats; false on NaN, as every comparison with NaN. *)
Definition float_le0 (x : float) : bool := SFleb x float_zero.

Definition prec64 : Z := 53.
Definition emax64 : Z := 1024.

(** The floats of the binary64 format that are neither infinite nor NaN. *)
Definition finite_double (x : float) : bool :=
  match x with
  | S754_zero _ => true
  | S754_finite _ m e => bounded prec64 emax64 m e
  | _ => false
  end.

(** What [json.load] produces and [json.dump] consumes. A [dict] keeps
    its items in insertion order. *)
Inductive value : Type :=
| VNone
| VBool (b : bool)
| VInt (z : Z)
| VFloat (f : float)
| VStr (s : str)
| VList (l : list value)
| VDict (items : list (str * value)).

(** [bool(v)]. *)
Definition truthy (v : value) : bool :=
  match v with
  | VNone => false
  | VBool b => b
  | VInt z => negb (Z.eqb z 0)
  | VFloat f => negb (SFeqb f float_zero)
  | VStr s => match s with [] => false | _ => true end
  | VList l => match l with [] => false | _ => true end
  | VDict d => match d with [] => false | _ => true end
  end.

(** [isinstance(v, str)]. *)
Definition isinstance_str (v : value) : bool :=
  match v with VStr _ => true | _ => false end.

(** [v and isinstance(v, str)]: the test every identifier has to pass. *)
Definition nonempty_str (v : value) : bool :=
  truthy v && isinstance_str v.

(** An instance of [int]: an [int] proper or, [bool] being a subclass of
    [int], a [bool]. In arithmetic and in comparisons [True] counts as 1
    and [False] as 0; [json.dumps] writes them [true] and [false]. *)
Inductive integer :=
| IInt (z : Z)
| IBool (b : bool).

Definition int_of_bool (b : bool) : Z := if b then 1%Z else 0%Z.

Definition integer_value (i : integer) : Z :=
  match i with
  | IInt z => z
  | IBool b => int_of_bool b
  end.

Definition integer_to_value (i : integer) : value :=
  match i with
  | IInt z => VInt z
  | IBool b => VBool b
  end.

(** The value, when [isinstance(v, int)]. *)
Definition as_integer (v : value) : option integer :=
  match v with
  | VInt z => Some (IInt z)
  | VBool b => Some (IBool b)
  | _ => None
  end.

(** An instance of [int] or of [float]. *)
Inductive number :=
| NInteger (i : integer)
| NFloat (f : float).

Definition number_to_value (n : number) : value :=
  match n with
  | NInteger i => integer_to_value i
  | NFloat f => VFloat f
  end.

(** The value, when [isinstance(v, (int, float))]. *)
Definition as_number (v : value) : option number :=
  match v with
  | VFloat f => Some (NFloat f)
  | _ => option_map NInteger (as_integer v)
  end.

(** [n <= 0]. *)
Definition number_le0 (n : number) : bool :=
  match n with
  | NInteger i => Z.leb (integer_value i) 0
  | NFloat f => float_le0 f
  end.

(** [s == v], a string against an object of any type: equal strings
    only. *)
Definition str_eq_value (s : str) (v : value) : bool :=
  match v with
  | VStr s' => str_eqb s s'
  | _ => false
  end.

(** The exceptions the modelled code raises or catches. [TypeError] also
    stands for the [AttributeError] that a missing method gives. *)
Inductive exn := ValueError | KeyError | TypeError | IndexError.

Inductive result (A : Type) : Type :=
| Ok (a : A)
| Raise (e : exn).
Arguments Ok {A} a.
Arguments Raise {A} e.

Definition bind {A B} (m : result A) (k : A -> result B) : result B :=
  match m with
  | Ok a => k a
  | Raise e => Raise e
  end.

(** [for x in l: f(x)], collecting the results; the first exception
    aborts the loop. *)
Fixpoint mapM {A B} (f : A -> result B) (l : list A) : result (list B) :=
  match l with
  | [] => Ok []
  | x :: l' =>
      bind (f x) (fun y => bind (mapM f l') (fun ys => Ok (y :: ys)))
  end.

(** [d[key]] on a dict: [KeyError] when the key is missing. *)
Fixpoint lookup (key : str) (items : list (str * value)) : option value :=
  match items with
  | [] => None
  | (k, v) :: rest => if str_eqb k key then Some v else lookup key rest
  end.

(** [key in d]. *)
Definition has_key (key : str) (items : list (str * value)) : bool :=
  match lookup key items with Some _ => true | None => false end.

(** ** Sets of strings

    A Python [set] is modelled by the list of its elements, without
    duplicates, in iteration order. CPython derives that order from the
    (per-process randomised) string hashes and the insertion history;
    the model takes the insertion order, one of the orders the
    interpreter can produce. Everything that is stated through
    membership is independent of this choice. *)
Definition strset := list str.

Definition set_empty : strset := [].

Fixpoint set_mem (x : str) (s : strset) : bool :=
  match s with
  | [] => false
  | y :: s' => str_eqb y x || set_mem x s'
  end.

(** [s.add(x)]. *)
Definition set_add (x : str) (s : strset) : strset :=
  if set_mem x s then s else s ++ [x].

(** [set(l)]. *)
Definition set_of_list (l : list str) : strset :=
  fold_left (fun s x => set_add x s) l set_empty.

(** [a - b]. *)
Definition set_diff (a b : strset) : strset :=
  filter (fun x => negb (set_mem x b)) a.

(** [a | b]. *)
Definition set_union (a b : strset) : strset :=
  fold_left (fun s x => set_add x s) b a.

(** [list(s)]. *)
Definition set_to_list (s : strset) : list str := s.

(** [sorted(l)] on strings: a stable insertion sort. *)
Fixpoint insert_sorted (x : str) (l : list str) : list str :=
  match l with
  | [] => [x]
  | y :: l' => if str_ltb x y then x :: l else y :: insert_sorted x l'
  end.

Definition sorted (l : list str) : list str :=
  fold_right insert_sorted [] l.

End Py.

Notation "x <- m ;; k" := (Py.bind m (fun x => k))
  (at level 61, m at next level, right associativity).

(* ================================================================== *)
(** * SHA-256 (FIPS 180-4), as [hashlib.sha256(data).hexdigest()] *)
(* ================================================================== *)

Module Sha256.

Local Open Scope N_scope.

Definition word := N.
Definition mask32 : N := 0xFFFFFFFF.
Definition wrap (x : N) : word := N.land x mask32.
Definition add32 (x y : word) : word := wrap (x + y).
Definition not32 (x : word) : word := N.lxor x mask32.
Definition rotr (n : N) (x : word) : word :=
  N.lor (N.shiftr x n) (wrap (N.shiftl x (32 - n))).

Definition Ch (x y z : word) := N.lxor (N.land x y) (N.land (not32 x) z).
Definition Maj (x y z : word) :=
  N.lxor (N.lxor (N.land x y) (N.land x z)) (N.land y z).
Definition Sigma0 x := N.lxor (N.lxor (rotr 2 x) (rotr 13 x)) (rotr 22 x).
Definition Sigma1 x := N.lxor (N.lxor (rotr 6 x) (rotr 11 x)) (rotr 25 x).
Definition sigma0 x := N.lxor (N.lxor (rotr 7 x) (rotr 18 x)) (N.shiftr x 3).
Definition sigma1 x := N.lxor (N.lxor (rotr 17 x) (rotr 19 x)) (N.shiftr x 10).

(** The round constants are the first 32 bits of the fractional parts of
    the cube roots of the first 64 primes, the initial chaining value
    those of the square roots of the first 8 primes. [iroot k n] is the
    integer [k]-th root of [n], found bit by bit. *)
Fixpoint iroot_from (k n : N) (bits : nat) (r : N) : N :=
  match bits with
  | O => r
  | S b =>
      let c := r + 2 ^ N.of_nat b in
      if c ^ k <=? n then iroot_from k n b c else iroot_from k n b r
  end.

Definition iroot (k n : N) : N := iroot_from k n 48 0.

Definition frac_root32 (k p : N) : word := wrap (iroot k (p * 2 ^ (32 * k))).

Definition is_prime (n : N) : bool :=
  (1 <? n)
  && forallb (fun d => negb (n mod N.of_nat d =? 0))
             (seq 2 (N.to_nat n - 2)).

Definition primes : list N :=
  filter is_prime (List.map N.of_nat (seq 2 310)).

Definition K : list word :=
  Eval vm_compute in List.map (frac_root32 3) (firstn 64 primes).

(** The eight working variables, and the chaining value. *)
Record regs := Regs {
  ra : word; rb : word; rc : word; rd : word;
  re : word; rf : word; rg : word; rh : word
}.

Definition H0 : regs :=
  Eval vm_compute in
    match List.map (frac_root32 2) (firstn 8 primes) with
    | [a; b; c; d; e; f; g; h] => Regs a b c d e f g h
    | _ => Regs 0 0 0 0 0 0 0 0
    end.

(** Padding: a 1 bit, zeros up to 56 mod 64, the bit length on 8 bytes. *)
Definition be_bytes (n : nat) (x : N) : list N :=
  List.map (fun i => N.land (N.shiftr x (8 * N.of_nat i)) 0xFF)
           (rev (seq 0 n)).

Definition pad (msg : list N) : list N :=
  let len := List.length msg in
  let zeros := ((64 - ((len + 9) mod 64)) mod 64)%nat in
  msg ++ [0x80] ++ repeat 0 zeros ++ be_bytes 8 (8 * N.of_nat len).

(** Big-endian 32-bit words of a byte sequence. *)
Fixpoint words_of_bytes (l : list N) : list word :=
  match l with
  | b0 :: b1 :: b2 :: b3 :: rest =>
      (N.shiftl b0 24 + N.shiftl b1 16 + N.shiftl b2 8 + b3)
        :: words_of_bytes rest
  | _ => []
  end.

(** The message schedule, most recent word first: [sched n w] extends the
    reversed list of the first words by [n] more. *)
Fixpoint sched (n : nat) (w : list word) : list word :=
  match n with
  | O => w
  | S n' =>
      let x := add32 (add32 (sigma1 (nth 1 w 0)) (nth 6 w 0))
                     (add32 (sigma0 (nth 14 w 0)) (nth 15 w 0)) in
      sched n' (x :: w)
  end.

Definition round (r : regs) (kw : word * word) : regs :=
  let (k, w) := kw in
  let t1 := add32 (add32 (add32 (add32 (rh r) (Sigma1 (re r)))
                                (Ch (re r) (rf r) (rg r))) k) w in
  let t2 := add32 (Sigma0 (ra r)) (Maj (ra r) (rb r) (rc r)) in
  Regs (add32 t1 t2) (ra r) (rb r) (rc r)
       (add32 (rd r) t1) (re r) (rf r) (rg r).

Definition compress (h : regs) (block : list word) : regs :=
  let w := rev (sched 48 (rev block)) in
  let r := fold_left round (combine K w) h in
  Regs (add32 (ra h) (ra r)) (add32 (rb h) (rb r))
       (add32 (rc h) (rc r)) (add32 (rd h) (rd r))
       (add32 (re h) (re r)) (add32 (rf h) (rf r))
       (add32 (rg h) (rg r)) (add32 (rh h) (rh r)).

(** One block of 16 words at a time; [fuel] bounds the number of blocks. *)
Fixpoint blocks (fuel : nat) (h : regs) (ws : list word) : regs :=
  match fuel with
  | O => h
  | S fuel' =>
      match ws with
      | [] => h
      | _ => blocks fuel' (compress h (firstn 16 ws)) (skipn 16 ws)
      end
  end.

Definition digest (msg : list N) : regs :=
  let ws := words_of_bytes (pad msg) in
  blocks (List.length ws) H0 ws.

(** Lowercase hexadecimal. *)
Definition hexdigit (d : N) : Py.codepoint :=
  if d <? 10 then 48 + d else 87 + d.

Definition hex_nibble (x : N) (i : N) : Py.codepoint :=
  hexdigit (N.land (N.shiftr x (4 * i)) 0xF).

Definition hex8 (x : word) : Py.str :=
  [ hex_nibble x 7; hex_nibble x 6; hex_nibble x 5; hex_nibble x 4;
    hex_nibble x 3; hex_nibble x 2; hex_nibble x 1; hex_nibble x 0 ].

Definition hex_of_regs (r : regs) : Py.str :=
  hex8 (ra r) ++ hex8 (rb r) ++ hex8 (rc r) ++ hex8 (rd r) ++
  hex8 (re r) ++ hex8 (rf r) ++ hex8 (rg r) ++ hex8 (rh r).

Definition hexdigest (msg : list N) : Py.str := hex_of_regs (digest msg).

End Sha256.

(** The compression function is never unfolded in a proof; examples run
    it with [vm_compute]. *)
#[global] Opaque Sha256.digest.

(* ================================================================== *)
(** * [json.dumps] and [str.encode] *)
(* ================================================================== *)

(** [float.__repr__] on the finite floats: the shortest decimal text that
    reads back as the same float. It is the one part of the runtime that
    is taken as a parameter. *)
Class FloatRepr := float_repr : Py.float -> Py.str.

Module Json.

Import Py.
Local Open Scope N_scope.

Definition quote : codepoint := 34.
Definition backslash : codepoint := 92.
Definition comma : codepoint := 44.
Definition newline : codepoint := 10.
Definition space : codepoint := 32.

(** ['{0:04x}'.format(n)]. *)
Definition hex4 (n : N) : str :=
  [ Sha256.hex_nibble n 3; Sha256.hex_nibble n 2;
    Sha256.hex_nibble n 1; Sha256.hex_nibble n 0 ].

Definition u_escape (n : N) : str := backslash :: 117 :: hex4 n.

(** [replace] of [py_encode_basestring_ascii]: the text that stands for
    one code point. [ESCAPE_ASCII] matches the backslash, the quote and
    everything outside [' '..'~']; [ESCAPE_DCT] has the short escapes. *)
Definition escape_char (c : codepoint) : str :=
  if c =? backslash then [backslash; backslash]
  else if c =? quote then [backslash; quote]
  else if c =? 8 then [backslash; 98]
  else if c =? 12 then [backslash; 102]
  else if c =? 10 then [backslash; 110]
  else if c =? 13 then [backslash; 114]
  else if c =? 9 then [backslash; 116]
  else if (32 <=? c) && (c <=? 126) then [c]
  else if c <? 0x10000 then u_escape c
  else
    let n := c - 0x10000 in
    let s1 := N.lor 0xd800 (N.land (N.shiftr n 10) 0x3ff) in
    let s2 := N.lor 0xdc00 (N.land n 0x3ff) in
    u_escape s1 ++ u_escape s2.

Definition escape (s : str) : str := flat_map escape_char s.

(** [encode_basestring_ascii(s)]. *)
Definition encode_basestring_ascii (s : str) : str :=
  quote :: escape s ++ [quote].

(** [int.__repr__(z)]. *)
Definition int_repr (z : Z) : str :=
  lit (DecimalString.NilEmpty.string_of_int (Z.to_int z)).

Section Encoder.

Context {FR : FloatRepr}.

(** [floatstr] of [json.encoder], with [allow_nan] at its default. *)
Definition floatstr (f : float) : str :=
  match f with
  | S754_nan => lit "NaN"
  | S754_infinity false => lit "Infinity"
  | S754_infinity true => lit "-Infinity"
  | _ => float_repr f
  end.

(** The keyword arguments of [json.dumps] that the code sets. *)
Record options := Options {
  sort_keys : bool;
  indent : option nat;
  item_separator : str;
  key_separator : str
}.

Fixpoint join (sep : str) (chunks : list str) : str :=
  match chunks with
  | [] => []
  | [c] => c
  | c :: rest => c ++ sep ++ join sep rest
  end.

(** [sorted(dct.items())]: the keys of a dict are distinct, so the
    order is the order of the keys. *)
Fixpoint insert_item (x : str * str) (l : list (str * str)) :=
  match l with
  | [] => [x]
  | y :: l' =>
      if str_ltb (fst y) (fst x) then y :: insert_item x l' else x :: l
  end.

Definition sort_items (l : list (str * str)) : list (str * str) :=
  fold_right insert_item [] l.

(** ['\n' + _indent * level], or nothing without [indent]. *)
Definition newline_indent (o : options) (level : nat) : str :=
  match indent o with
  | Some n => newline :: repeat space (n * level)
  | None => []
  end.

(** [_iterencode] of [json.encoder], all chunks concatenated. The
    values of a dict are encoded before the items are sorted; the
    sort only looks at the keys. *)
Fixpoint encode (o : options) (level : nat) (v : value) : str :=
  match v with
  | VNone => lit "null"
  | VBool true => lit "true"
  | VBool false => lit "false"
  | VInt z => int_repr z
  | VFloat f => floatstr f
  | VStr s => encode_basestring_ascii s
  | VList [] => lit "[]"
  | VList l =>
      lit "[" ++ newline_indent o (S level)
        ++ join (item_separator o ++ newline_indent o (S level))
                (List.map (encode o (S level)) l)
        ++ newline_indent o level ++ lit "]"
  | VDict [] => lit "{}"
  | VDict items =>
      let encoded :=
        List.map (fun kv => (fst kv, encode o (S level) (snd kv))) items in
      let ordered := if sort_keys o then sort_items encoded else encoded in
      lit "{" ++ newline_indent o (S level)
        ++ join (item_separator o ++ newline_indent o (S level))
                (List.map (fun kv => encode_basestring_ascii (fst kv)
                                       ++ key_separator o ++ snd kv)
                          ordered)
        ++ newline_indent o level ++ lit "}"
  end.

Definition dumps (o : options) (v : value) : str := encode o 0 v.

End Encoder.

End Json.

(** [s.encode('utf-8')]. The texts that are encoded here come out of
    [json.dumps] with [ensure_ascii] and hold ASCII only, so the strict error
    handler never fires; a surrogate is given the three bytes of its range. *)
Definition encode_utf8 (s : Py.str) : list N :=
  flat_map (fun c : N =>
    if (c <? 0x80)%N then [c]
    else if (c <? 0x800)%N then
      [N.lor 0xC0 (N.shiftr c 6); N.lor 0x80 (N.land c 0x3F)]
    else if (c <? 0x10000)%N then
      [N.lor 0xE0 (N.shiftr c 12); N.lor 0x80 (N.land (N.shiftr c 6) 0x3F);
       N.lor 0x80 (N.land c 0x3F)]
    else
      [N.lor 0xF0 (N.shiftr c 18); N.lor 0x80 (N.land (N.shiftr c 12) 0x3F);
       N.lor 0x80 (N.land (N.shiftr c 6) 0x3F); N.lor 0x80 (N.land c 0x3F)])
    s.

(* ================================================================== *)
(** * The program

    A field holds what [__post_init__] lets through: an index is an
    instance of [int] (a [bool] is one), a timestamp an instance of [int]
    or [float], an identifier a [str], and the stored hash of a block any
    object, for it is not tested. Where the code tests a value with
    [isinstance] the model takes a [Py.value] and makes the same test.
    [time.time()] is an argument [now] of every operation that reads the
    clock. *)
(* ================================================================== *)

Import Py.

(** ** vote.py *)

Module Vote.

Record t := Make {
  voter_id : str;
  candidate : str;
  timestamp : number
}.

(** The constructor with [__post_init__]. The last case cannot be
    reached: the two tests before it let strings through only. *)
Definition new (voter_id candidate timestamp : value) : result t :=
  if negb (truthy voter_id) || negb (isinstance_str voter_id)
  then Raise ValueError
  else if negb (truthy candidate) || negb (isinstance_str candidate)
  then Raise ValueError
  else
    match as_number timestamp with
    | None => Raise ValueError
    | Some ts =>
        if number_le0 ts then Raise ValueError
        else
          match voter_id, candidate with
          | VStr v, VStr c => Ok (Make v c ts)
          | _, _ => Raise ValueError
          end
    end.

Definition to_dict (v : t) : value :=
  VDict [ (lit "voter_id", VStr (voter_id v));
          (lit "candidate", VStr (candidate v));
          (lit "timestamp", number_to_value (timestamp v)) ].

Definition required_keys : list str :=
  [lit "voter_id"; lit "candidate"; lit "timestamp"].

(** On anything but a dict either the key test or the subscript raises. *)
Definition from_dict (data : value) : result t :=
  match data with
  | VDict items =>
      if negb (forallb (fun key => has_key key items) required_keys)
      then Raise KeyError
      else
        match lookup (lit "voter_id") items,
              lookup (lit "candidate") items,
              lookup (lit "timestamp") items with
        | Some v, Some c, Some ts => new v c ts
        | _, _, _ => Raise KeyError
        end
  | _ => Raise TypeError
  end.

(** [create_vote]: a vote stamped with the current time. *)
Definition create_vote (now : float) (voter_id candidate : value)
  : result t :=
  new voter_id candidate (VFloat now).

End Vote.

(** ** Objects

    What a caller can pass where the code tests with [isinstance] for a
    [list] and for [Vote]: an object of one of the JSON types, a [Vote],
    or a list of objects. *)
Inductive object :=
| OValue (v : value)
| OVote (v : Vote.t)
| OList (l : list object).

(** [isinstance(o, list)]. *)
Definition isinstance_list (o : object) : bool :=
  match o with
  | OList _ => true
  | OValue (VList _) => true
  | _ => false
  end.

(** [isinstance(o, Vote)]. *)
Definition isinstance_Vote (o : object) : bool :=
  match o with
  | OVote _ => true
  | _ => false
  end.

(** The items of a list. *)
Definition list_items (o : object) : list object :=
  match o with
  | OList l => l
  | OValue (VList l) => List.map OValue l
  | _ => []
  end.

(** The items that are votes. *)
Fixpoint the_votes (items : list object) : list Vote.t :=
  match items with
  | [] => []
  | OVote v :: rest => v :: the_votes rest
  | _ :: rest => the_votes rest
  end.

(** A list of [Vote] instances, as an object. *)
Definition votes_object (votes : list Vote.t) : object :=
  OList (List.map OVote votes).

(** ** block.py *)

Module Block.

Record t := Make {
  index : integer;
  timestamp : number;
  votes : list Vote.t;
  previous_hash : str;
  hash : value
}.

(** [for x in v] on a JSON value. *)
Definition iterate (v : value) : result (list value) :=
  match v with
  | VList l => Ok l
  | VStr s => Ok (List.map (fun c => VStr [c]) s)
  | VDict items => Ok (List.map (fun kv => VStr (fst kv)) items)
  | _ => Raise TypeError
  end.

Section WithFloatRepr.

Context {FR : FloatRepr}.

Definition block_data (index : integer) (timestamp : number)
           (votes : list Vote.t) (previous_hash : str) : value :=
  VDict [ (lit "index", integer_to_value index);
          (lit "timestamp", number_to_value timestamp);
          (lit "votes", VList (List.map Vote.to_dict votes));
          (lit "previous_hash", VStr previous_hash) ].

(** [json.dumps(block_data, sort_keys=True, separators=(',', ':'))]. *)
Definition block_string (index : integer) (timestamp : number)
           (votes : list Vote.t) (previous_hash : str) : str :=
  Json.dumps (Json.Options true None (lit ",") (lit ":"))
             (block_data index timestamp votes previous_hash).

Definition digest (index : integer) (timestamp : number)
           (votes : list Vote.t) (previous_hash : str) : str :=
  Sha256.hexdigest
    (encode_utf8 (block_string index timestamp votes previous_hash)).

Definition calculate_hash (b : t) : str :=
  digest (index b) (timestamp b) (votes b) (previous_hash b).

(** The constructor with [__post_init__]. Its callers, [from_dict] and
    [create_block] below [add_block], pass a list of [Vote] instances,
    so that the two tests on [votes] cannot fail. The hash is not tested:
    an object that counts as false is replaced by the computed hash, any
    other is kept. *)
Definition new (index timestamp : value) (votes : list Vote.t)
           (previous_hash hash : value) : result t :=
  match as_integer index with
  | None => Raise ValueError
  | Some i =>
      if Z.ltb (integer_value i) 0 then Raise ValueError else
      match as_number timestamp with
      | None => Raise ValueError
      | Some ts =>
          if number_le0 ts then Raise ValueError else
          match previous_hash with
          | VStr ph =>
              if negb (truthy hash)
              then Ok (Make i ts votes ph (VStr (digest i ts votes ph)))
              else Ok (Make i ts votes ph hash)
          | _ => Raise ValueError
          end
      end
  end.

Definition to_dict (b : t) : value :=
  VDict [ (lit "index", integer_to_value (index b));
          (lit "timestamp", number_to_value (timestamp b));
          (lit "votes", VList (List.map Vote.to_dict (votes b)));
          (lit "previous_hash", VStr (previous_hash b));
          (lit "hash", hash b) ].

Definition required_keys : list str :=
  [lit "index"; lit "timestamp"; lit "votes"; lit "previous_hash";
   lit "hash"].

Definition from_dict (data : value) : result t :=
  match data with
  | VDict items =>
      if negb (forallb (fun key => has_key key items) required_keys)
      then Raise KeyError
      else
        match lookup (lit "index") items,
              lookup (lit "timestamp") items,
              lookup (lit "votes") items,
              lookup (lit "previous_hash") items,
              lookup (lit "hash") items with
        | Some i, Some ts, Some vs, Some ph, Some h =>
            vote_data <- iterate vs ;;
            votes <- mapM Vote.from_dict vote_data ;;
            new i ts votes ph h
        | _, _, _, _, _ => Raise KeyError
        end
  | _ => Raise TypeError
  end.

(** [create_block]: a block stamped with the current time, its hash
    computed. *)
Definition create_block (now : float) (index : value) (votes : list Vote.t)
           (previous_hash : value) : result t :=
  new index (VFloat now) votes previous_hash (VStr []).

(** [self.hash == self.calculate_hash()]. *)
Definition validate_hash (b : t) : bool :=
  str_eq_value (calculate_hash b) (hash b).

End WithFloatRepr.

End Block.

#[global] Arguments Block.digest : simpl never.
#[global] Arguments Block.calculate_hash : simpl never.
#[global] Arguments Block.validate_hash : simpl never.

(** ** blockchain.py *)

Module Blockchain.

Record t := Make { chain : list Block.t }.

Section WithFloatRepr.

Context {FR : FloatRepr}.

(** [create_genesis_block], on the ledger it extends. *)
Definition create_genesis_block (now : float) (bc : t) : result t :=
  genesis_block <- Block.create_block now (VInt 0) [] (VStr (lit "0")) ;;
  Ok (Make (chain bc ++ [genesis_block])).

(** [Blockchain()]. *)
Definition init (now : float) : result t :=
  create_genesis_block now (Make []).

Definition get_latest_block (bc : t) : result Block.t :=
  match chain bc with
  | [] => Raise IndexError
  | b :: rest => Ok (last rest b)
  end.

(** [add_block]: the ledger afterwards and the returned flag. Every
    exception is caught and turned into [False]. *)
Definition add_block (now : float) (votes : object) (bc : t)
  : t * bool :=
  if negb (isinstance_list votes) then (bc, false)
  else if negb (forallb isinstance_Vote (list_items votes)) then (bc, false)
  else
    match get_latest_block bc with
    | Raise _ => (bc, false)
    | Ok latest_block =>
        let new_index :=
          (integer_value (Block.index latest_block) + 1)%Z in
        match Block.create_block now (VInt new_index)
                                 (the_votes (list_items votes))
                                 (Block.hash latest_block) with
        | Raise _ => (bc, false)
        | Ok new_block => (Make (chain bc ++ [new_block]), true)
        end
    end.

(** The body of the loop [for i in range(1, len(self.chain))], from
    [previous_block] on. *)
Fixpoint validate_links (previous_block : Block.t)
         (rest : list Block.t) : bool :=
  match rest with
  | [] => true
  | current_block :: rest' =>
      if negb (Block.validate_hash current_block) then false
      else if negb (str_eq_value (Block.previous_hash current_block)
                                 (Block.hash previous_block)) then false
      else if negb (Z.eqb (integer_value (Block.index current_block))
                          (integer_value (Block.index previous_block) + 1))
      then false
      else validate_links current_block rest'
  end.

Definition validate_chain (bc : t) : bool :=
  match chain bc with
  | [] => false
  | genesis :: rest =>
      if negb (Z.eqb (integer_value (Block.index genesis)) 0)
         || negb (str_eqb (Block.previous_hash genesis) (lit "0"))
      then false
      else if negb (Block.validate_hash genesis) then false
      else validate_links genesis rest
  end.

Definition get_all_votes (bc : t) : list Vote.t :=
  flat_map Block.votes (chain bc).

Definition get_block_count (bc : t) : nat := List.length (chain bc).

Definition get_block_by_index (index : Z) (bc : t) : option Block.t :=
  if Z.leb 0 index && Z.ltb index (Z.of_nat (List.length (chain bc)))
  then nth_error (chain bc) (Z.to_nat index)
  else None.

Definition to_dict (bc : t) : value :=
  VDict [ (lit "chain", VList (List.map Block.to_dict (chain bc))) ].

Definition from_dict (data : value) : result t :=
  match data with
  | VDict items =>
      match lookup (lit "chain") items with
      | None => Raise KeyError
      | Some c =>
          block_data <- Block.iterate c ;;
          blocks <- mapM Block.from_dict block_data ;;
          Ok (Make blocks)
      end
  | _ => Raise TypeError
  end.

End WithFloatRepr.

End Blockchain.

(** ** voter_manager.py *)

Module VoterManager.

Record t := Make {
  registered_voters : strset;
  voted_voters : strset
}.

(** [VoterManager()]. *)
Definition init : t := Make set_empty set_empty.

(** [not voter_id or not isinstance(voter_id, str)]. *)
Definition invalid_id (voter_id : value) : bool :=
  negb (truthy voter_id) || negb (isinstance_str voter_id).

(** [voter_id in s], for a set of strings. *)
Definition contains (voter_id : value) (s : strset) : bool :=
  match voter_id with
  | VStr v => set_mem v s
  | _ => false
  end.

Definition add (voter_id : value) (s : strset) : strset :=
  match voter_id with
  | VStr v => set_add v s
  | _ => s
  end.

Definition register_voter (voter_id : value) (vm : t) : result (t * bool) :=
  if invalid_id voter_id then Raise ValueError
  else if contains voter_id (registered_voters vm) then Ok (vm, false)
  else Ok (Make (add voter_id (registered_voters vm)) (voted_voters vm),
           true).

Definition is_registered (voter_id : value) (vm : t) : bool :=
  if invalid_id voter_id then false
  else contains voter_id (registered_voters vm).

Definition has_voted (voter_id : value) (vm : t) : bool :=
  if invalid_id voter_id then false
  else contains voter_id (voted_voters vm).

Definition mark_as_voted (voter_id : value) (vm : t) : result t :=
  if invalid_id voter_id then Raise ValueError
  else if negb (contains voter_id (registered_voters vm))
  then Raise ValueError
  else Ok (Make (registered_voters vm) (add voter_id (voted_voters vm))).

Definition get_registered_voters (vm : t) : list str :=
  sorted (set_to_list (registered_voters vm)).

Definition get_voted_voters (vm : t) : list str :=
  sorted (set_to_list (voted_voters vm)).

Definition get_registration_count (vm : t) : nat :=
  List.length (registered_voters vm).

Definition get_voted_count (vm : t) : nat :=
  List.length (voted_voters vm).

(** [to_dict]: the two sets as lists, in iteration order. *)
Definition to_dict (vm : t) : value :=
  VDict [ (lit "registered_voters",
           VList (List.map VStr (set_to_list (registered_voters vm))));
          (lit "voted_voters",
           VList (List.map VStr (set_to_list (voted_voters vm)))) ].

Definition required_keys : list str :=
  [lit "registered_voters"; lit "voted_voters"].

(** The first loop of [from_dict]. *)
Fixpoint load_registered (l : list value) (s : strset) : result strset :=
  match l with
  | [] => Ok s
  | voter_id :: l' =>
      if negb (isinstance_str voter_id) || negb (truthy voter_id)
      then Raise ValueError
      else load_registered l' (add voter_id s)
  end.

(** The second loop of [from_dict]. *)
Fixpoint load_voted (l : list value) (registered s : strset)
  : result strset :=
  match l with
  | [] => Ok s
  | voter_id :: l' =>
      if negb (isinstance_str voter_id) || negb (truthy voter_id)
      then Raise ValueError
      else if negb (contains voter_id registered) then Raise ValueError
      else load_voted l' registered (add voter_id s)
  end.

Definition from_dict (data : value) : result t :=
  match data with
  | VDict items =>
      if negb (forallb (fun key => has_key key items) required_keys)
      then Raise KeyError
      else
        match lookup (lit "registered_voters") items,
              lookup (lit "voted_voters") items with
        | Some (VList registered), Some voted =>
            r <- load_registered registered set_empty ;;
            match voted with
            | VList voted =>
                v <- load_voted voted r set_empty ;;
                Ok (Make r v)
            | _ => Raise ValueError
            end
        | Some _, Some _ => Raise ValueError
        | _, _ => Raise KeyError
        end
  | _ => Raise TypeError
  end.

(** [clear]. *)
Definition clear (vm : t) : t := Make set_empty set_empty.

End VoterManager.

(** ** voting_system.py *)

Module VotingSystem.

Record t := Make {
  blockchain : Blockchain.t;
  voter_manager : VoterManager.t;
  pending_votes : list Vote.t
}.

(** The ["error"] codes of the result dictionaries. *)
Inductive error :=
| DUPLICATE_VOTER | INVALID_VOTER_ID | REGISTRATION_ERROR
| UNREGISTERED_VOTER | ALREADY_VOTED | INVALID_VOTE_DATA
| VOTE_CASTING_ERROR
| NO_PENDING_VOTES | BLOCK_CREATION_FAILED | BLOCK_CREATION_ERROR
| VALIDATION_ERROR | SAVE_ERROR
| FILE_NOT_FOUND | INVALID_BLOCKCHAIN | LOAD_ERROR.

(** A result dictionary: ["success": True] with its payload, or
    ["success": False] with an error code. The ["message"] is left out. *)
Inductive outcome (A : Type) :=
| Success (payload : A)
| Failure (e : error).
Arguments Success {A} payload.
Arguments Failure {A} e.

Definition success {A} (o : outcome A) : bool :=
  match o with Success _ => true | Failure _ => false end.

(** The payload of a successful [cast_vote]. *)
Record vote_receipt := VoteReceipt {
  receipt_voter_id : value;
  receipt_candidate : value;
  receipt_timestamp : number
}.

(** The payload of a successful [create_block_from_pending_votes]. *)
Record block_receipt := BlockReceipt {
  block_index : integer;
  block_hash : value;
  votes_count : nat;
  block_timestamp : number
}.

(** One entry of ["issues"]: the text names the kind and prints the set. *)
Inductive issue :=
| UnmarkedVoters (voters : strset)
| ExtraVotedVoters (voters : strset).

(** The payload of [validate_system_integrity]. *)
Record validation := Validation {
  blockchain_valid : bool;
  integrity_valid : bool;
  issues : list issue;
  total_blocks : nat;
  total_votes : nat;
  n_pending_votes : nat;
  n_registered_voters : nat;
  n_voted_voters : nat
}.

(** What reading the file gives [load_state]: no such file, an exception
    from [open] or [json.load], or the decoded document. *)
Inductive file :=
| Missing
| Unreadable
| Content (data : value).

Section WithFloatRepr.

Context {FR : FloatRepr}.

(** [VotingSystem()]: raises when the genesis block cannot be built. *)
Definition init (now : float) : result t :=
  bc <- Blockchain.init now ;;
  Ok (Make bc VoterManager.init []).

Definition register_voter (voter_id : value) (vs : t)
  : t * outcome value :=
  match VoterManager.register_voter voter_id (voter_manager vs) with
  | Ok (vm, true) =>
      (Make (blockchain vs) vm (pending_votes vs), Success voter_id)
  | Ok (vm, false) =>
      (Make (blockchain vs) vm (pending_votes vs),
       Failure DUPLICATE_VOTER)
  | Raise ValueError => (vs, Failure INVALID_VOTER_ID)
  | Raise _ => (vs, Failure REGISTRATION_ERROR)
  end.

(** [cast_vote]. The vote is appended to the pending list before the
    voter is marked: an exception of [mark_as_voted] would leave the
    appended vote behind. *)
Definition cast_vote (now : float) (voter_id candidate : value) (vs : t)
  : t * outcome vote_receipt :=
  if negb (VoterManager.is_registered voter_id (voter_manager vs))
  then (vs, Failure UNREGISTERED_VOTER)
  else if VoterManager.has_voted voter_id (voter_manager vs)
  then (vs, Failure ALREADY_VOTED)
  else
    match Vote.create_vote now voter_id candidate with
    | Raise ValueError => (vs, Failure INVALID_VOTE_DATA)
    | Raise _ => (vs, Failure VOTE_CASTING_ERROR)
    | Ok vote =>
        let vs1 := Make (blockchain vs) (voter_manager vs)
                        (pending_votes vs ++ [vote]) in
        match VoterManager.mark_as_voted voter_id (voter_manager vs) with
        | Raise ValueError => (vs1, Failure INVALID_VOTE_DATA)
        | Raise _ => (vs1, Failure VOTE_CASTING_ERROR)
        | Ok vm =>
            (Make (blockchain vs) vm (pending_votes vs ++ [vote]),
             Success (VoteReceipt voter_id candidate
                                  (Vote.timestamp vote)))
        end
    end.

Definition create_block_from_pending_votes (now : float) (vs : t)
  : t * outcome block_receipt :=
  match pending_votes vs with
  | [] => (vs, Failure NO_PENDING_VOTES)
  | _ =>
      let votes_for_block := votes_object (pending_votes vs) in
      match Blockchain.add_block now votes_for_block (blockchain vs) with
      | (bc, true) =>
          let vote_count := List.length (pending_votes vs) in
          match Blockchain.get_latest_block bc with
          | Ok latest_block =>
              (Make bc (voter_manager vs) [],
               Success (BlockReceipt (Block.index latest_block)
                                     (Block.hash latest_block)
                                     vote_count
                                     (Block.timestamp latest_block)))
          | Raise _ =>
              (Make bc (voter_manager vs) [],
               Failure BLOCK_CREATION_ERROR)
          end
      | (bc, false) =>
          (Make bc (voter_manager vs) (pending_votes vs),
           Failure BLOCK_CREATION_FAILED)
      end
  end.

Definition get_pending_votes_count (vs : t) : nat :=
  List.length (pending_votes vs).

Definition get_pending_votes (vs : t) : list Vote.t := pending_votes vs.

Definition get_registered_voters (vs : t) : list str :=
  VoterManager.get_registered_voters (voter_manager vs).

Definition get_voted_voters (vs : t) : list str :=
  VoterManager.get_voted_voters (voter_manager vs).

(** [validate_system_integrity]; nothing in its body can raise. *)
Definition validate_system_integrity (vs : t) : outcome validation :=
  let blockchain_valid := Blockchain.validate_chain (blockchain vs) in
  let all_votes := Blockchain.get_all_votes (blockchain vs) in
  let voted_voters :=
    set_of_list (VoterManager.get_voted_voters (voter_manager vs)) in
  let blockchain_voters :=
    set_of_list (List.map Vote.voter_id all_votes) in
  let unmarked_voters := set_diff blockchain_voters voted_voters in
  let issues1 :=
    match unmarked_voters with
    | [] => []
    | _ => [UnmarkedVoters unmarked_voters]
    end in
  let pending_voters :=
    set_of_list (List.map Vote.voter_id (pending_votes vs)) in
  let all_voting_voters := set_union blockchain_voters pending_voters in
  let extra_voted_voters := set_diff voted_voters all_voting_voters in
  let integrity_issues :=
    match extra_voted_voters with
    | [] => issues1
    | _ => issues1 ++ [ExtraVotedVoters extra_voted_voters]
    end in
  Success (Validation
             blockchain_valid
             (Nat.eqb (List.length integrity_issues) 0)
             integrity_issues
             (Blockchain.get_block_count (blockchain vs))
             (List.length all_votes)
             (List.length (pending_votes vs))
             (List.length (get_registered_voters vs))
             (List.length (get_voted_voters vs))).

Definition to_dict (vs : t) : value :=
  VDict [ (lit "blockchain", Blockchain.to_dict (blockchain vs));
          (lit "voter_manager", VoterManager.to_dict (voter_manager vs));
          (lit "pending_votes",
           VList (List.map Vote.to_dict (pending_votes vs))) ].

Definition required_keys : list str :=
  [lit "blockchain"; lit "voter_manager"; lit "pending_votes"].

Definition from_dict (data : value) : result t :=
  match data with
  | VDict items =>
      if negb (forallb (fun key => has_key key items) required_keys)
      then Raise KeyError
      else
        match lookup (lit "blockchain") items,
              lookup (lit "voter_manager") items,
              lookup (lit "pending_votes") items with
        | Some bcd, Some vmd, Some pvd =>
            bc <- Blockchain.from_dict bcd ;;
            vm <- VoterManager.from_dict vmd ;;
            vote_data <- Block.iterate pvd ;;
            pending <- mapM Vote.from_dict vote_data ;;
            Ok (Make bc vm pending)
        | _, _, _ => Raise KeyError
        end
  | _ => Raise TypeError
  end.

(** The text that [save_state] writes:
    [json.dump(system_dict, f, indent=2, separators=(',', ': '))]. *)
Definition save_state_text (vs : t) : str :=
  Json.dumps (Json.Options false (Some 2%nat) (lit ",") (lit ": "))
             (to_dict vs).

(** [load_state], given what reading [filename] yields. *)
Definition load_state (f : file) (vs : t) : t * outcome validation :=
  match f with
  | Missing => (vs, Failure FILE_NOT_FOUND)
  | Unreadable => (vs, Failure LOAD_ERROR)
  | Content data =>
      match from_dict data with
      | Raise _ => (vs, Failure LOAD_ERROR)
      | Ok loaded_system =>
          match validate_system_integrity loaded_system with
          | Success validation_result =>
              if negb (blockchain_valid validation_result)
              then (vs, Failure INVALID_BLOCKCHAIN)
              else
                (Make (blockchain loaded_system)
                      (voter_manager loaded_system)
                      (pending_votes loaded_system),
                 Success validation_result)
          | Failure _ => (vs, Failure INVALID_BLOCKCHAIN)
          end
      end
  end.

End WithFloatRepr.

End VotingSystem.

(* ================================================================== *)
(** * Runs of the coordinator, tampering *)
(* ================================================================== *)

Module Run.

Import VotingSystem.

(** The mutating operations of the public interface, apart from
    [load_state]. *)
Inductive op :=
| Register (voter_id : value)
| Cast (now : float) (voter_id candidate : value)
| Seal (now : float).

Section WithFloatRepr.

Context {FR : FloatRepr}.

Definition step (o : op) (vs : t) : t :=
  match o with
  | Register v => fst (register_voter v vs)
  | Cast now v c => fst (cast_vote now v c vs)
  | Seal now => fst (create_block_from_pending_votes now vs)
  end.

Definition run (ops : list op) (vs : t) : t :=
  fold_left (fun s o => step o s) ops vs.

(** Does the operation cast a vote for [voter_id]? *)
Definition casts_for (voter_id : value) (o : op) : Prop :=
  match o with
  | Cast _ v _ => v = voter_id
  | _ => False
  end.

(** The states of a coordinator that is only driven through its
    interface: built by [VotingSystem()] or [from_dict], changed by the
    operations and by [load_state]. *)
Inductive reachable : t -> Prop :=
| reach_init now vs : init now = Ok vs -> reachable vs
| reach_from_dict data vs : from_dict data = Ok vs -> reachable vs
| reach_step o vs : reachable vs -> reachable (step o vs)
| reach_load f vs : reachable vs -> reachable (fst (load_state f vs)).

(** A sequence of [add_block] calls that all return [True]. *)
Fixpoint add_blocks (appends : list (float * list Vote.t))
         (bc : Blockchain.t) : option Blockchain.t :=
  match appends with
  | [] => Some bc
  | (now, votes) :: rest =>
      match Blockchain.add_block now (votes_object votes) bc with
      | (bc', true) => add_blocks rest bc'
      | (_, false) => None
      end
  end.

End WithFloatRepr.

End Run.

Module Tamper.

(** [chain[i].field = x], as the tests corrupt a ledger in place. *)
Fixpoint update (i : nat) (f : Block.t -> Block.t) (l : list Block.t)
  : list Block.t :=
  match l, i with
  | [], _ => []
  | b :: l', O => f b :: l'
  | b :: l', S i' => b :: update i' f l'
  end.

Definition set_hash (h : value) (b : Block.t) : Block.t :=
  Block.Make (Block.index b) (Block.timestamp b) (Block.votes b)
             (Block.previous_hash b) h.

Definition set_previous_hash (h : str) (b : Block.t) : Block.t :=
  Block.Make (Block.index b) (Block.timestamp b) (Block.votes b)
             h (Block.hash b).

Definition set_index (i : integer) (b : Block.t) : Block.t :=
  Block.Make i (Block.timestamp b) (Block.votes b)
             (Block.previous_hash b) (Block.hash b).

Definition tamper (i : nat) (f : Block.t -> Block.t) (bc : Blockchain.t)
  : Blockchain.t :=
  Blockchain.Make (update i f (Blockchain.chain bc)).

End Tamper.

(** An instance of [FloatRepr] to run the definitions on examples: the
    mantissa and the binary exponent written out in decimal, [m 'e' x] for
    [m * 2^x]. It is one to one, which is all that the examples need; the
    theorems hold for every instance. *)
Definition exact_float_repr : FloatRepr :=
  fun f =>
    match f with
    | S754_zero false => lit "0.0"
    | S754_zero true => lit "-0.0"
    | S754_finite s m e =>
        Json.int_repr (if s then Zneg m else Zpos m)
          ++ lit "e" ++ Json.int_repr e
    | S754_infinity false => lit "inf"
    | S754_infinity true => lit "-inf"
    | S754_nan => lit "nan"
    end.

(** The float of a positive integer, for clock readings in examples. *)
Definition float_of_pos (p : positive) : float :=
  binary_normalize prec64 emax64 (Zpos p) 0 false.


(* ================================================================== *)
(** * The vocabulary of the statements *)
(* ================================================================== *)

Section Vocabulary.

Context {FR : FloatRepr}.

Import VotingSystem.

(** The two sets of the registry of a coordinator. *)
Definition registered (vs : t) : strset :=
  VoterManager.registered_voters (voter_manager vs).

Definition voted (vs : t) : strset :=
  VoterManager.voted_voters (voter_manager vs).

(** What [__post_init__] and [VoterManager.from_dict] have checked on
    every object that a constructor built: non-empty identifiers, positive
    timestamps, a non-negative index, a stored hash that counts as true,
    voted voters that are registered. *)
Definition wf_vote (v : Vote.t) : Prop :=
  Vote.voter_id v <> [] /\ Vote.candidate v <> []
  /\ number_le0 (Vote.timestamp v) = false.

Definition wf_block (b : Block.t) : Prop :=
  (0 <= integer_value (Block.index b))%Z
  /\ number_le0 (Block.timestamp b) = false
  /\ Forall wf_vote (Block.votes b) /\ truthy (Block.hash b) = true.

Definition wf_registry (vm : VoterManager.t) : Prop :=
  NoDup (VoterManager.registered_voters vm)
  /\ NoDup (VoterManager.voted_voters vm)
  /\ Forall (fun s => s <> []) (VoterManager.registered_voters vm)
  /\ incl (VoterManager.voted_voters vm) (VoterManager.registered_voters vm).

Definition wf_state (vs : VotingSystem.t) : Prop :=
  Forall wf_block (Blockchain.chain (VotingSystem.blockchain vs))
  /\ wf_registry (VotingSystem.voter_manager vs)
  /\ Forall wf_vote (VotingSystem.pending_votes vs).

(** The block that [create_block] builds, when it builds one. *)
Definition sealed (now : float) (index : Z) (votes : list Vote.t)
           (previous_hash : str) : Block.t :=
  Block.Make (IInt index) (NFloat now) votes previous_hash
             (VStr (Block.digest (IInt index) (NFloat now) votes
                                 previous_hash)).

(** The three tests that the loop of [validate_chain] makes on a block
    and its predecessor. *)
Definition link_ok (previous_block current_block : Block.t) : bool :=
  Block.validate_hash current_block
  && str_eq_value (Block.previous_hash current_block)
                  (Block.hash previous_block)
  && Z.eqb (integer_value (Block.index current_block))
           (integer_value (Block.index previous_block) + 1).

(** The tests that [validate_chain] makes on the first block. *)
Definition genesis_ok (genesis : Block.t) : bool :=
  Z.eqb (integer_value (Block.index genesis)) 0
  && str_eqb (Block.previous_hash genesis) (lit "0")
  && Block.validate_hash genesis.

(** A tampered block fails the tests of the loop, whatever precedes it. *)
Definition breaks_link (b b' : Block.t) : Prop :=
  forall p, link_ok p b = true -> link_ok p b' = false.

Definition breaks_genesis (b b' : Block.t) : Prop :=
  genesis_ok b = true -> genesis_ok b' = false.

(** The voter ids of the sealed votes, and of the staged ones. *)
Definition sealed_voters (vs : t) : list str :=
  List.map Vote.voter_id (Blockchain.get_all_votes (blockchain vs)).

Definition pending_voters (vs : t) : list str :=
  List.map Vote.voter_id (pending_votes vs).

(** The ids that the report lists under each kind of issue. *)
Definition reported_unmarked (r : validation) (x : str) : Prop :=
  exists s, In (UnmarkedVoters s) (issues r) /\ In x s.

Definition reported_extra (r : validation) (x : str) : Prop :=
  exists s, In (ExtraVotedVoters s) (issues r) /\ In x s.

(** The list that the two tests of the report build. *)
Definition issue_list (unmarked extra : strset) : list issue :=
  let issues1 :=
    match unmarked with [] => [] | _ => [UnmarkedVoters unmarked] end in
  match extra with
  | [] => issues1
  | _ => issues1 ++ [ExtraVotedVoters extra]
  end.

(** The options of [calculate_hash]: sorted keys, no whitespace. *)
Definition compact : Json.options :=
  Json.Options true None (lit ",") (lit ":").

End Vocabulary.

(** ** Reading escaped text

    [read_char] undoes [Json.escape_char]. The program never reads the
    hashed text back; the reader serves to show that escaping loses
    nothing on text without surrogates. *)

Module Unescape.

Import Json.
Local Open Scope N_scope.

(** A Unicode scalar value: a code point below 110000 that is not a
    surrogate. *)
Definition scalar_value (c : codepoint) : bool :=
  (c <? 0xD800) || ((0xE000 <=? c) && (c <? 0x110000)).

(** Text without surrogate code points. *)
Definition text (s : str) : Prop := Forall (fun c => scalar_value c = true) s.

Definition unhexdigit (x : codepoint) : N :=
  if (48 <=? x) && (x <=? 57) then x - 48 else x - 87.

Definition unhex4 (a b c d : codepoint) : N :=
  ((unhexdigit a * 16 + unhexdigit b) * 16 + unhexdigit c) * 16
  + unhexdigit d.

Definition is_high_surrogate (v : N) : bool :=
  (0xD800 <=? v) && (v <? 0xDC00).

(** The code point at the head of an escaped text, and what follows it;
    nothing at a bare quote, which ends the string. *)
Definition read_char (s : str) : option (codepoint * str) :=
  match s with
  | [] => None
  | x :: rest =>
      if x =? quote then None
      else if x =? backslash then
        match rest with
        | [] => None
        | y :: rest1 =>
            if y =? 117 then
              match rest1 with
              | a :: b :: c :: d :: rest2 =>
                  let v := unhex4 a b c d in
                  if is_high_surrogate v then
                    match rest2 with
                    | _ :: _ :: a' :: b' :: c' :: d' :: rest3 =>
                        Some (0x10000 + (v - 0xD800) * 1024
                              + (unhex4 a' b' c' d' - 0xDC00), rest3)
                    | _ => None
                    end
                  else Some (v, rest2)
              | _ => None
              end
            else if y =? 98 then Some (8, rest1)
            else if y =? 102 then Some (12, rest1)
            else if y =? 110 then Some (10, rest1)
            else if y =? 114 then Some (13, rest1)
            else if y =? 116 then Some (9, rest1)
            else Some (y, rest1)
        end
      else Some (x, rest)
  end.

End Unescape.

(** What the encoding needs of [float.__repr__]: on the finite floats
    of the binary64 format it is one to one, and it writes digits, a sign,
    a point and an exponent mark only. *)
Definition number_char (c : codepoint) : bool :=
  ((48 <=? c) && (c <=? 57) || (c =? 43) || (c =? 45) || (c =? 46)
   || (c =? 101))%N.

(** The characters of [int.__repr__]. *)
Definition int_char (c : codepoint) : bool :=
  ((48 <=? c) && (c <=? 57) || (c =? 45))%N.

Class FloatReprSpec (FR : FloatRepr) : Prop := {
  float_repr_inj :
    forall x y : float,
      finite_double x = true -> finite_double y = true ->
      float_repr x = float_repr y -> x = y;
  float_repr_chars :
    forall x : float,
      finite_double x = true ->
      Forall (fun c => number_char c = true) (float_repr x)
}.

(** A float of the binary64 format: finite, infinite or NaN. *)
Definition is_double (x : float) : bool := valid_binary prec64 emax64 x.

(** ** The layout of the hashed text

    The text of [block_string], piece by piece: the keys in sorted order,
    the separators [","] and [":"], the votes in their order. *)

Module Layout.

Import Json.

(** A key with its quotes and colon. *)
Definition key (k : string) : str := quote :: lit k ++ quote :: lit ":".

Definition vote_open : str := lit "{" ++ key "candidate" ++ [quote].
Definition vote_timestamp : str := lit "," ++ key "timestamp".
Definition vote_voter_id : str := key "voter_id" ++ [quote].
Definition vote_close : str := lit "}".

Definition block_open : str := lit "{" ++ key "index".
Definition block_previous_hash : str := key "previous_hash" ++ [quote].
Definition block_timestamp : str := lit "," ++ key "timestamp".
Definition block_votes : str := key "votes".
Definition block_close : str := lit "}".

Section WithFloatRepr.

Context {FR : FloatRepr}.

(** The text of a number. *)
Definition integer_text (i : integer) : str :=
  match i with
  | IInt z => int_repr z
  | IBool true => lit "true"
  | IBool false => lit "false"
  end.

Definition number_text (n : number) : str :=
  match n with
  | NInteger i => integer_text i
  | NFloat f => floatstr f
  end.

Definition vote_text (v : Vote.t) : str :=
  vote_open ++ escape (Vote.candidate v)
    ++ quote :: vote_timestamp ++ number_text (Vote.timestamp v)
    ++ comma :: vote_voter_id ++ escape (Vote.voter_id v)
    ++ quote :: vote_close.

Fixpoint votes_tail (votes : list Vote.t) : str :=
  match votes with
  | [] => lit "]"
  | v :: rest => comma :: vote_text v ++ votes_tail rest
  end.

Definition votes_text (votes : list Vote.t) : str :=
  match votes with
  | [] => lit "[]"
  | v :: rest => lit "[" ++ vote_text v ++ votes_tail rest
  end.

Definition block_text (index : integer) (timestamp : number)
           (votes : list Vote.t) (previous_hash : str) : str :=
  block_open ++ integer_text index
    ++ comma :: block_previous_hash ++ escape previous_hash
    ++ quote :: block_timestamp ++ number_text timestamp
    ++ comma :: block_votes ++ votes_text votes
    ++ block_close.

End WithFloatRepr.

End Layout.

(** A timestamp of the annotated type: a float of the binary64 format. *)
Definition float_field (n : number) : Prop :=
  exists f, n = NFloat f /\ is_double f = true.

(** A timestamp of any of the accepted types: an [int], a [bool] or a
    float of the binary64 format. *)
Definition number_field (n : number) : Prop :=
  match n with
  | NFloat f => is_double f = true
  | NInteger _ => True
  end.

(** The fields on which the encoding is one to one: floats of the binary64
    format, strings without surrogate code points. *)
Definition vote_fields_ok (v : Vote.t) : Prop :=
  Unescape.text (Vote.voter_id v) /\ Unescape.text (Vote.candidate v)
  /\ float_field (Vote.timestamp v).

Definition block_fields_ok (timestamp : float) (votes : list Vote.t)
           (previous_hash : str) : Prop :=
  is_double timestamp = true /\ Forall vote_fields_ok votes
  /\ Unescape.text previous_hash.

(** The same with timestamps of any accepted type. *)
Definition vote_fields_plain (v : Vote.t) : Prop :=
  Unescape.text (Vote.voter_id v) /\ Unescape.text (Vote.candidate v)
  /\ number_field (Vote.timestamp v).

Definition block_fields_plain (timestamp : number) (votes : list Vote.t)
           (previous_hash : str) : Prop :=
  number_field timestamp /\ Forall vote_fields_plain votes
  /\ Unescape.text previous_hash.

(** [float.__repr__] writes a point or an exponent: a character that
    [int.__repr__] does not write. *)
Definition float_repr_marked (FR : FloatRepr) : Prop :=
  forall x : float,
    finite_double x = true ->
    Exists (fun c => int_char c = false) (float_repr x).

Definition lower_hex (c : codepoint) : bool :=
  ((48 <=? c) && (c <=? 57) || (97 <=? c) && (c <=? 102))%N.

(* ================================================================== *)
(** * Examples *)
(* ================================================================== *)

Module Examples.

Import VotingSystem Run.

#[local] Existing Instance exact_float_repr.

Definition now1 : float := float_of_pos 1700000000.
Definition now2 : float := float_of_pos 1700000060.
Definition now3 : float := float_of_pos 1700000120.

Definition alice : value := VStr (lit "alice").
Definition bob : value := VStr (lit "bob").
Definition candidate_a : value := VStr (lit "A").
Definition candidate_b : value := VStr (lit "B").

(** A fresh coordinator. *)
Definition fresh : t :=
  Make (Blockchain.Make [sealed now1 0 [] (lit "0")]) VoterManager.init [].

(** Alice and Bob registered. *)
Definition registered2 : t := run [Register alice; Register bob] fresh.

(** Alice has voted, her vote is pending. *)
Definition voted1 : t := run [Cast now2 alice candidate_a] registered2.

(** The vote is sealed in a second block. *)
Definition sealed1 : t := run [Seal now3] voted1.

(** The block that sealing built. *)
Definition block1 : Block.t :=
  sealed now3 1 [Vote.Make (lit "alice") (lit "A") (NFloat now2)]
         (Block.digest (IInt 0) (NFloat now1) [] (lit "0")).

(** The same voters as in [registered2], the sets iterating in the other
    order. *)
Definition registered2' : t := run [Register bob; Register alice] fresh.

(** A document whose ledger has no block at all. *)
Definition empty_ledger_document : value :=
  VDict [ (lit "blockchain", VDict [(lit "chain", VList [])]);
          (lit "voter_manager",
           VDict [ (lit "registered_voters", VList []);
                   (lit "voted_voters", VList []) ]);
          (lit "pending_votes", VList []) ].

Definition empty_ledger : t := Make (Blockchain.Make []) VoterManager.init [].

(** A document with a single block whose timestamp is an [int], as a
    caller of [json.dump] may have written it, with [h] as stored hash. *)
Definition int_timestamp_document (h : value) : value :=
  VDict [ (lit "blockchain",
           VDict [(lit "chain",
                   VList [VDict [ (lit "index", VInt 0);
                                  (lit "timestamp", VInt 1700000000);
                                  (lit "votes", VList []);
                                  (lit "previous_hash", VStr (lit "0"));
                                  (lit "hash", h) ]])]);
          (lit "voter_manager",
           VDict [ (lit "registered_voters", VList []);
                   (lit "voted_voters", VList []) ]);
          (lit "pending_votes", VList []) ].

(** The state it describes, the hash being the hash of the content. *)
Definition int_timestamp_state : t :=
  Make (Blockchain.Make
          [Block.Make (IInt 0) (NInteger (IInt 1700000000)) [] (lit "0")
             (VStr (Block.digest (IInt 0) (NInteger (IInt 1700000000)) []
                                 (lit "0")))])
       VoterManager.init [].

End Examples.

Module Collision.

Import Examples.

(** Two voter ids: the surrogates D83D and DE00 one after the other, and
    the single code point 1F600 that the pair stands for in UTF-16. *)
Definition pair_id : str := [0xD83D; 0xDE00]%N.
Definition astral_id : str := [0x1F600]%N.

Definition vote_pair : Vote.t := Vote.Make pair_id (lit "A") (NFloat now2).
Definition vote_astral : Vote.t :=
  Vote.Make astral_id (lit "A") (NFloat now2).

Definition block_pair : Block.t :=
  sealed (FR := exact_float_repr) now3 1 [vote_pair]
         (Block.digest (FR := exact_float_repr) (IInt 0) (NFloat now1) []
                       (lit "0")).
Definition block_astral : Block.t :=
  sealed (FR := exact_float_repr) now3 1 [vote_astral]
         (Block.digest (FR := exact_float_repr) (IInt 0) (NFloat now1) []
                       (lit "0")).

(** The coordinator after it registered the one id, or the other. *)
Definition registered_pair : VotingSystem.t :=
  Run.step (FR := exact_float_repr) (Run.Register (VStr pair_id)) fresh.
Definition registered_astral : VotingSystem.t :=
  Run.step (FR := exact_float_repr) (Run.Register (VStr astral_id)) fresh.

End Collision.

(* ================================================================== *)
(** * The rest of the program: queries and the ledger file *)
(* ================================================================== *)

(** ** voting_system.py, the read-only operations *)

Module Query.

Import VotingSystem.

(** The ["error"] codes of the queries. *)
Inductive error :=
| RESULTS_ERROR | CANDIDATE_VOTES_ERROR
| VOTE_NOT_FOUND | VOTER_NOT_REGISTERED | MULTIPLE_VOTES_FOUND
| VOTER_LOOKUP_ERROR.

Inductive outcome (A : Type) :=
| Success (payload : A)
| Failure (e : error).
Arguments Success {A} payload.
Arguments Failure {A} e.

(** [s == v] for a string field [s] and an argument [v] of any type. *)
Definition eq_value (s : str) (v : value) : bool :=
  match v with
  | VStr s' => str_eqb s s'
  | _ => false
  end.

(** One turn of the counting loop of [get_results] on the dict
    [vote_counts], which keeps its keys in insertion order:
    [vote_counts[candidate] += 1] on a key that is present,
    [vote_counts[candidate] = 1] otherwise. *)
Fixpoint count_vote (candidate : str) (vote_counts : list (str * Z))
  : list (str * Z) :=
  match vote_counts with
  | [] => [(candidate, 1%Z)]
  | (k, n) :: rest =>
      if str_eqb k candidate then (k, (n + 1)%Z) :: rest
      else (k, n) :: count_vote candidate rest
  end.

(** [vote_counts[candidate]], when the key is there. *)
Fixpoint get_count (candidate : str) (vote_counts : list (str * Z))
  : option Z :=
  match vote_counts with
  | [] => None
  | (k, n) :: rest =>
      if str_eqb k candidate then Some n else get_count candidate rest
  end.

(** [sum(l)]. *)
Definition sum (l : list Z) : Z := fold_left Z.add l 0%Z.

(** The payload of [get_results]. *)
Record results := Results {
  vote_counts : list (str * Z);
  total_votes : Z;
  registered_voters : nat;
  voted_voters : nat;
  pending_votes : nat;
  blockchain_valid : bool;
  integrity_valid : bool;
  total_blocks : nat;
  validation_issues : list issue
}.

(** The payload of [get_candidate_votes]. *)
Record candidate_votes := CandidateVotes {
  candidate : value;
  vote_count : nat;
  votes : list value
}.

Inductive status := Pending | Voted | RegisteredNotVoted.

(** The payload of [get_vote_by_voter]; ["vote"] is absent for a voter who
    has not voted. *)
Record voter_vote := VoterVote {
  voter_id : value;
  has_voted : bool;
  vote : option value;
  vote_status : status
}.

Section WithFloatRepr.

Context {FR : FloatRepr}.

(** [get_results]; nothing in its body can raise. A failed validation
    would leave the defaults of [.get]. *)
Definition get_results (vs : t) : outcome results :=
  let all_votes := Blockchain.get_all_votes (blockchain vs) in
  let vote_counts :=
    fold_left (fun counts v => count_vote (Vote.candidate v) counts)
              all_votes [] in
  let total_votes := sum (List.map snd vote_counts) in
  let validation_result := validate_system_integrity vs in
  let registered_count := List.length (get_registered_voters vs) in
  let voted_count := List.length (get_voted_voters vs) in
  let pending_count := List.length (VotingSystem.pending_votes vs) in
  Success
    (Results vote_counts total_votes registered_count voted_count
             pending_count
             (match validation_result with
              | VotingSystem.Success r => VotingSystem.blockchain_valid r
              | VotingSystem.Failure _ => false
              end)
             (match validation_result with
              | VotingSystem.Success r => VotingSystem.integrity_valid r
              | VotingSystem.Failure _ => false
              end)
             (Blockchain.get_block_count (blockchain vs))
             (match validation_result with
              | VotingSystem.Success r => VotingSystem.issues r
              | VotingSystem.Failure _ => []
              end)).

Definition get_candidate_votes (candidate : value) (vs : t)
  : outcome candidate_votes :=
  let all_votes := Blockchain.get_all_votes (blockchain vs) in
  let candidate_votes :=
    filter (fun v => eq_value (Vote.candidate v) candidate) all_votes in
  Success (CandidateVotes candidate (List.length candidate_votes)
                          (List.map Vote.to_dict candidate_votes)).

Definition get_all_candidates (vs : t) : list str :=
  let all_votes := Blockchain.get_all_votes (blockchain vs) in
  let candidates := set_of_list (List.map Vote.candidate all_votes) in
  sorted (set_to_list candidates).

Definition get_vote_by_voter (voter_id : value) (vs : t)
  : outcome voter_vote :=
  let all_votes := Blockchain.get_all_votes (blockchain vs) in
  let voter_votes :=
    filter (fun v => eq_value (Vote.voter_id v) voter_id) all_votes in
  match voter_votes with
  | [] =>
      if VoterManager.is_registered voter_id (voter_manager vs) then
        if VoterManager.has_voted voter_id (voter_manager vs) then
          let pending_votes :=
            filter (fun v => eq_value (Vote.voter_id v) voter_id)
                   (VotingSystem.pending_votes vs) in
          match pending_votes with
          | v :: _ =>
              Success (VoterVote voter_id true (Some (Vote.to_dict v)) Pending)
          | [] => Failure VOTE_NOT_FOUND
          end
        else Success (VoterVote voter_id false None RegisteredNotVoted)
      else Failure VOTER_NOT_REGISTERED
  | v :: rest =>
      if Nat.ltb 1 (List.length voter_votes)
      then Failure MULTIPLE_VOTES_FOUND
      else Success (VoterVote voter_id true (Some (Vote.to_dict v)) Voted)
  end.

End WithFloatRepr.

End Query.

(** ** blockchain.py, the ledger file *)

Module BlockchainFile.

Import VotingSystem.

Section WithFloatRepr.

Context {FR : FloatRepr}.

(** The text that [save_to_file] writes:
    [json.dump(blockchain_dict, f, indent=2, separators=(',', ': '))]. *)
Definition save_to_file_text (bc : Blockchain.t) : str :=
  Json.dumps (Json.Options false (Some 2%nat) (lit ",") (lit ": "))
             (Blockchain.to_dict bc).

(** [load_from_file], given what reading [filename] yields: the ledger
    afterwards and the returned flag. *)
Definition load_from_file (f : file) (bc : Blockchain.t)
  : Blockchain.t * bool :=
  match f with
  | Missing => (bc, false)
  | Unreadable => (bc, false)
  | Content data =>
      match Blockchain.from_dict data with
      | Raise _ => (bc, false)
      | Ok loaded_blockchain =>
          if negb (Blockchain.validate_chain loaded_blockchain)
          then (bc, false)
          else (Blockchain.Make (Blockchain.chain loaded_blockchain), true)
      end
  end.

End WithFloatRepr.

End BlockchainFile.

(** ** More vocabulary *)

Section Operated.

Context {FR : FloatRepr}.

(** The states of a coordinator that was created by [VotingSystem()] and
    then only registered voters, took votes and sealed blocks. *)
Inductive operated : VotingSystem.t -> Prop :=
| operated_init now vs : VotingSystem.init now = Ok vs -> operated vs
| operated_step o vs : operated vs -> operated (Run.step o vs).

(** Every vote that the coordinator holds: the sealed ones in ledger
    order, then the pending ones. *)
Definition ballots (vs : VotingSystem.t) : list Vote.t :=
  Blockchain.get_all_votes (VotingSystem.blockchain vs)
    ++ VotingSystem.pending_votes vs.

(** How many of the votes are for [candidate]. *)
Definition votes_for (candidate : str) (votes : list Vote.t) : nat :=
  List.length (filter (fun v => str_eqb (Vote.candidate v) candidate) votes).

(** The structure that [validate_chain] checks, block by block: the
    position as index, a stored hash that matches the content, the sentinel
    before the first block and the hash of the predecessor before the
    others. *)
Definition chain_structure (chain : list Block.t) : Prop :=
  chain <> []
  /\ forall (i : nat) (b : Block.t),
      nth_error chain i = Some b ->
      integer_value (Block.index b) = Z.of_nat i
      /\ Block.hash b = VStr (Block.calculate_hash b)
      /\ match i with
         | O => Block.previous_hash b = lit "0"
         | S j => exists p, nth_error chain j = Some p
                            /\ VStr (Block.previous_hash b) = Block.hash p
         end.

(** [a < b] on strings, and lists in strictly ascending order. *)
Definition str_lt (a b : str) : Prop := str_ltb a b = true.

End Operated.

(* ================================================================== *)
(** * [json.load]: the decoder

    [json/decoder.py] and [json/scanner.py] of the standard library, on a
    text that is held as a [str]: [scanstring], the number pattern, the
    loops of [JSONArray] and [JSONObject], [scan_once] and [decode]. Every
    error of the decoder is a [JSONDecodeError], a [ValueError]. *)
(* ================================================================== *)

(** [float(s)] on the text of a JSON number with a fraction or an
    exponent: the float nearest to it. Like [float.__repr__] it is taken
    as a parameter. *)
Class FloatParse := float_of_str : Py.str -> Py.float.

Module Decoder.

Import Json.
Local Open Scope N_scope.

(** [WHITESPACE_STR = ' \t\n\r']. *)
Definition is_ws (c : codepoint) : bool :=
  (c =? 32) || (c =? 9) || (c =? 10) || (c =? 13).

(** The text from [WHITESPACE.match(s, end).end()] on. *)
Fixpoint skip_ws (s : str) : str :=
  match s with
  | c :: rest => if is_ws c then skip_ws rest else s
  | [] => []
  end.

(** [s[idx:idx + len(p)] == p]: what follows the prefix, if it is there. *)
Fixpoint strip_prefix (p s : str) : option str :=
  match p, s with
  | [], _ => Some s
  | x :: p', y :: s' => if x =? y then strip_prefix p' s' else None
  | _ :: _, [] => None
  end.

(** ** Strings *)

Definition hex_value (c : codepoint) : option N :=
  if (48 <=? c) && (c <=? 57) then Some (c - 48)
  else if (97 <=? c) && (c <=? 102) then Some (c - 87)
  else if (65 <=? c) && (c <=? 70) then Some (c - 55)
  else None.

(** [_decode_uXXXX]: the number that four hexadecimal digits write. *)
Definition decode_uXXXX (a b c d : codepoint) : option N :=
  match hex_value a, hex_value b, hex_value c, hex_value d with
  | Some x, Some y, Some z, Some w => Some (((x * 16 + y) * 16 + z) * 16 + w)
  | _, _, _, _ => None
  end.

(** The table [BACKSLASH]. *)
Definition short_escape (esc : codepoint) : option codepoint :=
  if esc =? quote then Some quote
  else if esc =? backslash then Some backslash
  else if esc =? 47 then Some 47
  else if esc =? 98 then Some 8
  else if esc =? 102 then Some 12
  else if esc =? 110 then Some 10
  else if esc =? 114 then Some 13
  else if esc =? 116 then Some 9
  else None.

Definition is_high_surrogate (uni : N) : bool :=
  (0xd800 <=? uni) && (uni <=? 0xdbff).

Definition is_low_surrogate (uni : N) : bool :=
  (0xdc00 <=? uni) && (uni <=? 0xdfff).

(** [0x10000 + (((uni - 0xd800) << 10) | (uni2 - 0xdc00))]. *)
Definition join_surrogates (uni uni2 : N) : N :=
  0x10000 + N.lor (N.shiftl (uni - 0xd800) 10) (uni2 - 0xdc00).

(** [scanstring(s, end)], from the character after the opening quote on:
    the string read so far is [chunks]; the result is the string and the
    text after the closing quote. An escaped high surrogate that is
    followed by an escaped low surrogate is read as the one character the
    pair stands for; a control character ends the scan with an error. *)
Fixpoint scanstring (s : str) (chunks : str) : result (str * str) :=
  match s with
  | [] => Raise ValueError
  | x :: rest =>
      if x =? quote then Ok (chunks, rest)
      else if x =? backslash then
        match rest with
        | [] => Raise ValueError
        | esc :: rest1 =>
            if esc =? 117 then
              match rest1 with
              | a :: b :: c :: d :: rest2 =>
                  match decode_uXXXX a b c d with
                  | None => Raise ValueError
                  | Some uni =>
                      if is_high_surrogate uni then
                        match rest2 with
                        | y :: u :: rest3 =>
                            if (y =? backslash) && (u =? 117) then
                              match rest3 with
                              | a' :: b' :: c' :: d' :: rest4 =>
                                  match decode_uXXXX a' b' c' d' with
                                  | None => Raise ValueError
                                  | Some uni2 =>
                                      if is_low_surrogate uni2
                                      then scanstring rest4
                                             (chunks
                                                ++ [join_surrogates uni uni2])
                                      else scanstring rest2 (chunks ++ [uni])
                                  end
                              | _ => Raise ValueError
                              end
                            else scanstring rest2 (chunks ++ [uni])
                        | _ => scanstring rest2 (chunks ++ [uni])
                        end
                      else scanstring rest2 (chunks ++ [uni])
                  end
              | _ => Raise ValueError
              end
            else
              match short_escape esc with
              | Some char => scanstring rest1 (chunks ++ [char])
              | None => Raise ValueError
              end
        end
      else if x <? 32 then Raise ValueError
      else scanstring rest (chunks ++ [x])
  end.

(** ** Numbers *)

Definition is_digit (c : codepoint) : bool := (48 <=? c) && (c <=? 57).

(** The longest run of digits at the head of a text, and the rest. *)
Fixpoint span_digits (s : str) : str * str :=
  match s with
  | c :: rest =>
      if is_digit c
      then let (d, r) := span_digits rest in (c :: d, r)
      else ([], s)
  | [] => ([], [])
  end.

(** The first group of [NUMBER_RE]: an optional minus sign, then either
    a zero or a digit from 1 to 9 with any number of digits after it. *)
Definition match_integer (s : str) : option (str * str) :=
  let (sign, s1) :=
    match s with
    | c :: r => if c =? 45 then ([c], r) else ([], s)
    | [] => ([], s)
    end in
  match s1 with
  | c :: r =>
      if c =? 48 then Some (sign ++ [c], r)
      else if is_digit c
      then let (d, r') := span_digits r in Some (sign ++ c :: d, r')
      else None
  | [] => None
  end.

(** The second group, optional: a point and one digit or more. It is
    empty when it does not match. *)
Definition match_frac (s : str) : str * str :=
  match s with
  | c :: r =>
      if c =? 46 then
        match span_digits r with
        | ([], _) => ([], s)
        | (d, r') => (c :: d, r')
        end
      else ([], s)
  | [] => ([], s)
  end.

(** The third group, optional: [e] or [E], an optional sign, one digit
    or more. *)
Definition match_exp (s : str) : str * str :=
  match s with
  | c :: r =>
      if (c =? 101) || (c =? 69) then
        let (sign, r1) :=
          match r with
          | x :: r' => if (x =? 45) || (x =? 43) then ([x], r') else ([], r)
          | [] => ([], r)
          end in
        match span_digits r1 with
        | ([], _) => ([], s)
        | (d, r') => (c :: sign ++ d, r')
        end
      else ([], s)
  | [] => ([], s)
  end.

(** [NUMBER_RE.match]: the three groups and the text after the match. *)
Definition match_number (s : str) : option (str * str * str * str) :=
  match match_integer s with
  | None => None
  | Some (integer, r1) =>
      let (frac, r2) := match_frac r1 in
      let (exp, r3) := match_exp r2 in
      Some (integer, frac, exp, r3)
  end.

Definition to_string (s : str) : string :=
  string_of_list_ascii (List.map ascii_of_N s).

(** [int(s)] on the text of the first group. *)
Definition parse_int (s : str) : result Z :=
  match DecimalString.NilEmpty.int_of_string (to_string s) with
  | Some d => Ok (Z.of_int d)
  | None => Raise ValueError
  end.

(** ** Values *)

(** [dict(pairs)]: a key that comes again keeps its place and takes the
    later value. *)
Fixpoint dict_set (key : str) (v : value) (items : list (str * value))
  : list (str * value) :=
  match items with
  | [] => [(key, v)]
  | (k, v') :: rest =>
      if str_eqb k key then (k, v) :: rest
      else (k, v') :: dict_set key v rest
  end.

Definition dict_of_pairs (pairs : list (str * value))
  : list (str * value) :=
  fold_left (fun d kv => dict_set (fst kv) (snd kv) d) pairs [].

Section WithFloatParse.

Context {FP : FloatParse}.

(** What [scan_once] does with a match of [NUMBER_RE]. *)
Definition number_value (integer frac exp : str) : result value :=
  match frac, exp with
  | [], [] => z <- parse_int integer ;; Ok (VInt z)
  | _, _ => Ok (VFloat (float_of_str (integer ++ frac ++ exp)))
  end.

(** [scan_once] with the loops of [JSONArray] and [JSONObject].
    [array_loop] starts at the first character of an item, [object_loop]
    after the opening quote of a key. [fuel] bounds the calls and the
    rounds of the loops, which makes the three functions structurally
    recursive; when it runs out the scan ends with an error. *)
Fixpoint scan_once (fuel : nat) (s : str) {struct fuel}
  : result (value * str) :=
  match fuel with
  | O => Raise ValueError
  | S fuel' =>
      match s with
      | [] => Raise ValueError
      | nextchar :: rest =>
          if nextchar =? quote then
            r <- scanstring rest [] ;; Ok (VStr (fst r), snd r)
          else if nextchar =? 123 then
            match skip_ws rest with
            | c :: rest' =>
                if c =? 125 then Ok (VDict [], rest')
                else if c =? quote then object_loop fuel' rest' []
                else Raise ValueError
            | [] => Raise ValueError
            end
          else if nextchar =? 91 then
            match skip_ws rest with
            | c :: rest' =>
                if c =? 93 then Ok (VList [], rest')
                else array_loop fuel' (c :: rest') []
            | [] => Raise ValueError
            end
          else
            match strip_prefix (lit "null") s with
            | Some r => Ok (VNone, r)
            | None =>
            match strip_prefix (lit "true") s with
            | Some r => Ok (VBool true, r)
            | None =>
            match strip_prefix (lit "false") s with
            | Some r => Ok (VBool false, r)
            | None =>
            match match_number s with
            | Some (integer, frac, exp, r) =>
                v <- number_value integer frac exp ;; Ok (v, r)
            | None =>
            match strip_prefix (lit "NaN") s with
            | Some r => Ok (VFloat S754_nan, r)
            | None =>
            match strip_prefix (lit "Infinity") s with
            | Some r => Ok (VFloat (S754_infinity false), r)
            | None =>
            match strip_prefix (lit "-Infinity") s with
            | Some r => Ok (VFloat (S754_infinity true), r)
            | None => Raise ValueError
            end end end end end end end
      end
  end

with array_loop (fuel : nat) (s : str) (values : list value) {struct fuel}
  : result (value * str) :=
  match fuel with
  | O => Raise ValueError
  | S fuel' =>
      r <- scan_once fuel' s ;;
      let values := values ++ [fst r] in
      match skip_ws (snd r) with
      | c :: rest =>
          if c =? 93 then Ok (VList values, rest)
          else if c =? comma then array_loop fuel' (skip_ws rest) values
          else Raise ValueError
      | [] => Raise ValueError
      end
  end

with object_loop (fuel : nat) (s : str) (pairs : list (str * value))
       {struct fuel} : result (value * str) :=
  match fuel with
  | O => Raise ValueError
  | S fuel' =>
      k <- scanstring s [] ;;
      match skip_ws (snd k) with
      | c :: rest =>
          if c =? 58 then
            r <- scan_once fuel' (skip_ws rest) ;;
            let pairs := pairs ++ [(fst k, fst r)] in
            match skip_ws (snd r) with
            | c' :: rest' =>
                if c' =? 125 then Ok (VDict (dict_of_pairs pairs), rest')
                else if c' =? comma then
                  match skip_ws rest' with
                  | q :: rest'' =>
                      if q =? quote then object_loop fuel' rest'' pairs
                      else Raise ValueError
                  | [] => Raise ValueError
                  end
                else Raise ValueError
            | [] => Raise ValueError
            end
          else Raise ValueError
      | [] => Raise ValueError
      end
  end.

(** [json.loads(s)]: a byte order mark is refused, whitespace may
    surround the document, anything else after it is an error. The scan
    is given one step for each character of the text, more than it takes
    to read what [json.dumps] wrote; the recursion limit of the interpreter
    is not modelled. *)
Definition loads (s : str) : result value :=
  match s with
  | c :: _ => if c =? 0xfeff then Raise ValueError else
      r <- scan_once (S (List.length s)) (skip_ws s) ;;
      match skip_ws (snd r) with
      | [] => Ok (fst r)
      | _ => Raise ValueError
      end
  | [] => Raise ValueError
  end.

End WithFloatParse.

End Decoder.

(** An instance of [FloatParse] to run the decoder on examples: it reads
    what [exact_float_repr] writes. *)
Definition exact_float_of_str : FloatParse :=
  fun s =>
    match Decoder.match_number s with
    | Some (integer, _, exp, _) =>
        match exp with
        | _ :: exponent =>
            match Decoder.parse_int integer, Decoder.parse_int exponent with
            | Ok (Zpos m), Ok e => S754_finite false m e
            | Ok (Zneg m), Ok e => S754_finite true m e
            | _, _ => S754_nan
            end
        | [] =>
            match integer with
            | 45%N :: _ => S754_zero true
            | _ => S754_zero false
            end
        end
    | None => S754_nan
    end.

(** ** Documents that are read back as they were written *)

(** The text of a JSON number with a fraction or an exponent, matched
    whole by the number pattern. *)
Definition float_literal (s : str) : bool :=
  match Decoder.match_number s with
  | Some (_, frac, exp, []) =>
      match frac, exp with
      | [], [] => false
      | _, _ => true
      end
  | _ => false
  end.

(** What reading back needs of [float.__repr__] and [float]: the text of
    a finite float of the binary64 format is a JSON number with a fraction
    or an exponent, and [float] gives the float back. *)
Class FloatParseSpec (FR : FloatRepr) (FP : FloatParse) : Prop := {
  float_repr_literal :
    forall x : float,
      finite_double x = true -> float_literal (float_repr x) = true;
  float_of_str_repr :
    forall x : float,
      finite_double x = true -> float_of_str (float_repr x) = x
}.

Fixpoint distinct (keys : list str) : bool :=
  match keys with
  | [] => true
  | k :: rest => negb (set_mem k rest) && distinct rest
  end.

(** A document whose strings hold no surrogate code point, whose floats
    are of the binary64 format and whose dicts have distinct keys, as the
    dicts of Python have. *)
Fixpoint plainb (v : value) : bool :=
  match v with
  | VNone | VBool _ | VInt _ => true
  | VFloat f => is_double f
  | VStr s => forallb Unescape.scalar_value s
  | VList l => forallb plainb l
  | VDict items =>
      forallb (fun kv => forallb Unescape.scalar_value (fst kv)
                         && plainb (snd kv)) items
      && distinct (List.map fst items)
  end.

(** The number of values in a document, the items of the lists and dicts
    counted once more. *)
Fixpoint size (v : value) : nat :=
  match v with
  | VList l => S (list_sum (List.map (fun x => S (size x)) l))
  | VDict items =>
      S (list_sum (List.map (fun kv => S (size (snd kv))) items))
  | _ => 1
  end.

(** The options of [save_state] and [save_to_file]:
    [indent=2, separators=(',', ': ')]. *)
Definition indented : Json.options :=
  Json.Options false (Some 2%nat) (lit ",") (lit ": ").

(** What [json.load] makes of the text of a file, for [load_state] and
    [load_from_file]: the decoded document, or an exception. The file is
    written and read as text; what [json.dump] writes is ASCII, every other
    character being escaped. *)
Definition read_text {FP : FloatParse} (text : str) : VotingSystem.file :=
  match Decoder.loads text with
  | Ok data => VotingSystem.Content data
  | Raise _ => VotingSystem.Unreadable
  end.

(** A text that does not go on with a digit. *)
Definition no_digit_head (rest : str) : bool :=
  match rest with
  | [] => true
  | c :: _ => negb (Decoder.is_digit c)
  end.

(** A text that cannot go on a number: it is empty, or begins with
    something else than a digit, a point, an exponent mark or a sign. *)
Definition delimited (rest : str) : bool :=
  match rest with
  | [] => true
  | c :: _ =>
      negb (Decoder.is_digit c || (c =? 46) || (c =? 101) || (c =? 69)
            || (c =? 43) || (c =? 45))%N
  end.

(** The characters a JSON value can begin with. *)
Definition value_start (c : codepoint) : bool :=
  ((c =? 34) || (c =? 45) || Decoder.is_digit c || (c =? 91) || (c =? 123)
   || (c =? 110) || (c =? 116) || (c =? 102) || (c =? 78) || (c =? 73))%N.

(** What [json.dump] writes between two items of a list or a dict that
    is nested [level] deep, and the text of one item of a dict. *)
Definition items_separator (level : nat) : str :=
  Json.item_separator indented ++ Json.newline_indent indented (S level).

Definition dict_item {FR : FloatRepr} (level : nat) (kv : str * value)
  : str :=
  Json.encode_basestring_ascii (fst kv) ++ Json.key_separator indented
    ++ Json.encode indented (S level) (snd kv).


(* ================================================================== *)
(** * Facts about the runtime *)
(* ================================================================== *)

Example sha256_abc :
  Sha256.hexdigest (Py.lit "abc")
  = Py.lit "ba7816bf8f01cfea414140de5dae2223b00361a396177a9cb410ff61f20015ad".
Proof. vm_compute. reflexivity. Qed.

Example sha256_four_blocks :
  Sha256.hexdigest (repeat 97%N 200)
  = Py.lit "c2a908d98f5df987ade41b5fce213067efbcc21ef2240212a41e54b5e7c28ae5".
Proof. vm_compute. reflexivity. Qed.

Example sha256_empty :
  Sha256.hexdigest []
  = Py.lit "e3b0c44298fc1c149afbf4c8996fb92427ae41e4649b934ca495991b7852b855".
Proof. vm_compute. reflexivity. Qed.


Lemma str_eqb_refl (a : str) : str_eqb a a = true.
Proof.
  induction a as [|x a IH]; simpl; [reflexivity|].
  now rewrite N.eqb_refl, IH.
Qed.

Lemma str_eqb_eq (a b : str) : str_eqb a b = true <-> a = b.
Proof.
  split.
  - revert b; induction a as [|x a IH]; intros [|y b]; simpl;
      try discriminate; [reflexivity|].
    intros H. apply andb_true_iff in H as [Hx Hab].
    apply N.eqb_eq in Hx. apply IH in Hab. now subst.
  - intros ->. apply str_eqb_refl.
Qed.

Lemma str_eqb_neq (a b : str) : str_eqb a b = false <-> a <> b.
Proof.
  rewrite <- str_eqb_eq. destruct (str_eqb a b); intuition congruence.
Qed.

Lemma set_mem_In (x : str) (s : strset) : set_mem x s = true <-> In x s.
Proof.
  induction s as [|y s IH]; simpl.
  - intuition discriminate.
  - rewrite orb_true_iff, str_eqb_eq, IH. reflexivity.
Qed.

Lemma set_mem_notin (x : str) (s : strset) : set_mem x s = false <-> ~ In x s.
Proof.
  rewrite <- set_mem_In. destruct (set_mem x s); intuition congruence.
Qed.

Lemma set_add_In (x y : str) (s : strset) :
  In y (set_add x s) <-> y = x \/ In y s.
Proof.
  unfold set_add. destruct (set_mem x s) eqn:E.
  - apply set_mem_In in E. split; [auto|]. intros [->|H]; assumption.
  - rewrite in_app_iff. simpl. intuition.
Qed.

Lemma set_add_NoDup (x : str) (s : strset) : NoDup s -> NoDup (set_add x s).
Proof.
  intros H. unfold set_add. destruct (set_mem x s) eqn:E; [assumption|].
  apply set_mem_notin in E.
  apply NoDup_rev in H. rewrite <- (rev_involutive (s ++ [x])).
  apply NoDup_rev. rewrite rev_app_distr. simpl. constructor; [|assumption].
  now rewrite <- in_rev.
Qed.

Lemma set_of_list_acc_In (l : list str) (acc : strset) (y : str) :
  In y (fold_left (fun s x => set_add x s) l acc) <-> In y acc \/ In y l.
Proof.
  revert acc; induction l as [|x l IH]; intros acc; simpl.
  - intuition.
  - rewrite IH, set_add_In. intuition.
Qed.

Lemma set_of_list_In (l : list str) (y : str) :
  In y (set_of_list l) <-> In y l.
Proof.
  unfold set_of_list. rewrite set_of_list_acc_In. simpl. intuition.
Qed.

Lemma set_union_In (a b : strset) (y : str) :
  In y (set_union a b) <-> In y a \/ In y b.
Proof. apply set_of_list_acc_In. Qed.

Lemma set_diff_In (a b : strset) (y : str) :
  In y (set_diff a b) <-> In y a /\ ~ In y b.
Proof.
  unfold set_diff. rewrite filter_In, negb_true_iff, set_mem_notin.
  reflexivity.
Qed.

Lemma insert_sorted_In (x y : str) (l : list str) :
  In y (insert_sorted x l) <-> y = x \/ In y l.
Proof.
  induction l as [|z l IH]; simpl.
  - intuition.
  - destruct (str_ltb x z); simpl; rewrite ?IH; intuition.
Qed.

Lemma sorted_In (l : list str) (y : str) : In y (sorted l) <-> In y l.
Proof.
  induction l as [|x l IH]; simpl; [reflexivity|].
  rewrite insert_sorted_In, IH. intuition.
Qed.

Lemma insert_sorted_length (x : str) (l : list str) :
  List.length (insert_sorted x l) = S (List.length l).
Proof.
  induction l as [|z l IH]; simpl; [reflexivity|].
  destruct (str_ltb x z); simpl; congruence.
Qed.

Lemma sorted_length (l : list str) : List.length (sorted l) = List.length l.
Proof.
  induction l as [|x l IH]; simpl; [reflexivity|].
  now rewrite insert_sorted_length, IH.
Qed.

(** The digest is never the empty string. *)
Lemma hexdigest_nonempty (msg : list N) : Sha256.hexdigest msg <> [].
Proof. unfold Sha256.hexdigest, Sha256.hex_of_regs, Sha256.hex8. discriminate. Qed.

(* ================================================================== *)
(** * The voter registry inside the coordinator *)
(* ================================================================== *)

Section Registry.

Context {FR : FloatRepr}.

Import VotingSystem Run.

Lemma nonempty_str_inv (v : value) :
  nonempty_str v = true <-> exists s, v = VStr s /\ s <> [].
Proof.
  unfold nonempty_str. split.
  - destruct v; simpl; rewrite ?andb_false_r; try discriminate.
    destruct s; [discriminate|]. intros _. eexists; split; [reflexivity|].
    discriminate.
  - intros (s & -> & Hs). destruct s; [contradiction|reflexivity].
Qed.

Lemma invalid_id_nonempty (v : value) :
  VoterManager.invalid_id v = negb (nonempty_str v).
Proof.
  unfold VoterManager.invalid_id, nonempty_str.
  now rewrite negb_andb.
Qed.

Lemma invalid_id_str (s : str) :
  s <> [] -> VoterManager.invalid_id (VStr s) = false.
Proof. destruct s; [contradiction|reflexivity]. Qed.

(** What an operation does to the registry: nothing, one registration,
    or one voter marked. *)
Lemma step_registry (o : op) (vs : t) :
  voter_manager (step o vs) = voter_manager vs
  \/ (exists s, o = Register (VStr s) /\ s <> [] /\ ~ In s (registered vs)
                /\ voter_manager (step o vs)
                   = VoterManager.Make (set_add s (registered vs)) (voted vs))
  \/ (exists now s c, o = Cast now (VStr s) c /\ In s (registered vs)
                /\ voter_manager (step o vs)
                   = VoterManager.Make (registered vs) (set_add s (voted vs))).
Proof.
  destruct o as [v|now v c|now]; simpl.
  - unfold register_voter, VoterManager.register_voter.
    rewrite invalid_id_nonempty.
    destruct (nonempty_str v) eqn:Hv; simpl; [|now left].
    apply nonempty_str_inv in Hv as (s & -> & Hs). simpl.
    destruct (set_mem s _) eqn:Hm; simpl; [now left|].
    right; left. exists s. apply set_mem_notin in Hm. auto.
  - unfold cast_vote, VoterManager.is_registered, VoterManager.has_voted,
      VoterManager.mark_as_voted.
    rewrite invalid_id_nonempty.
    destruct (nonempty_str v) eqn:Hv; simpl; [|now left].
    apply nonempty_str_inv in Hv as (s & -> & Hs). simpl.
    destruct (set_mem s (VoterManager.registered_voters _)) eqn:Hr; simpl;
      [|now left].
    destruct (set_mem s (VoterManager.voted_voters _)) eqn:Hvo; simpl;
      [now left|].
    destruct (Vote.create_vote now (VStr s) c) as [vote|[]]; simpl;
      try now left.
    right; right. exists now, s, c. apply set_mem_In in Hr. auto.
  - unfold create_block_from_pending_votes.
    destruct (pending_votes vs); [now left|].
    destruct (Blockchain.add_block _ _ _) as [bc [|]]; simpl; [|now left].
    destruct (Blockchain.get_latest_block bc); now left.
Qed.

Lemma step_registered_mono (o : op) (vs : t) (x : str) :
  In x (registered vs) -> In x (registered (step o vs)).
Proof.
  intros H. unfold registered at 1.
  destruct (step_registry o vs) as [E|[(s & _ & _ & _ & E)|(n & s & c & _ & _ & E)]];
    rewrite E; simpl; try assumption.
  apply set_add_In. now right.
Qed.

Lemma step_voted_mono (o : op) (vs : t) (x : str) :
  In x (voted vs) -> In x (voted (step o vs)).
Proof.
  intros H. unfold voted at 1.
  destruct (step_registry o vs) as [E|[(s & _ & _ & _ & E)|(n & s & c & _ & _ & E)]];
    rewrite E; simpl; try assumption.
  apply set_add_In. now right.
Qed.

Lemma step_voted_inv (o : op) (vs : t) (x : str) :
  In x (voted (step o vs)) -> In x (voted vs) \/ casts_for (VStr x) o.
Proof.
  unfold voted at 1.
  destruct (step_registry o vs) as [E|[(s & _ & _ & _ & E)|(n & s & c & Ho & _ & E)]];
    rewrite E; simpl; auto.
  rewrite set_add_In. intros [->|H]; [right|now left].
  subst o. reflexivity.
Qed.

Lemma run_registered_mono (ops : list op) (vs : t) (x : str) :
  In x (registered vs) -> In x (registered (run ops vs)).
Proof.
  revert vs; induction ops as [|o ops IH]; intros vs H; simpl; [assumption|].
  apply IH, step_registered_mono, H.
Qed.

Lemma run_voted_mono (ops : list op) (vs : t) (x : str) :
  In x (voted vs) -> In x (voted (run ops vs)).
Proof.
  revert vs; induction ops as [|o ops IH]; intros vs H; simpl; [assumption|].
  apply IH, step_voted_mono, H.
Qed.

Lemma run_not_voted (ops : list op) (vs : t) (x : str) :
  Forall (fun o => ~ casts_for (VStr x) o) ops ->
  ~ In x (voted vs) -> ~ In x (voted (run ops vs)).
Proof.
  revert vs; induction ops as [|o ops IH]; intros vs Hops H; simpl;
    [assumption|].
  inversion Hops; subst. apply IH; [assumption|].
  intros Hin. apply step_voted_inv in Hin as [Hin|Hin]; auto.
Qed.

(** [cast_vote] for a voter who has voted: refused, nothing changes. *)
Lemma cast_vote_already_voted now (s : str) (c : value) (vs : t) :
  s <> [] -> In s (registered vs) -> In s (voted vs) ->
  cast_vote now (VStr s) c vs = (vs, Failure ALREADY_VOTED).
Proof.
  intros Hs Hr Hv.
  unfold cast_vote, VoterManager.is_registered, VoterManager.has_voted.
  rewrite invalid_id_str by assumption. simpl.
  apply set_mem_In in Hr, Hv. unfold registered, voted in *.
  now rewrite Hr, Hv.
Qed.

(** [cast_vote] for a registered voter who has not voted, with a valid
    candidate and a positive clock: the vote is staged and the voter
    marked. *)
Lemma cast_vote_ok now (s c : str) (vs : t) :
  s <> [] -> c <> [] -> float_le0 now = false ->
  In s (registered vs) -> ~ In s (voted vs) ->
  cast_vote now (VStr s) (VStr c) vs
  = (Make (blockchain vs)
          (VoterManager.Make (registered vs) (set_add s (voted vs)))
          (pending_votes vs ++ [Vote.Make s c (NFloat now)]),
     Success (VoteReceipt (VStr s) (VStr c) (NFloat now))).
Proof.
  intros Hs Hc Hnow Hr Hv.
  unfold cast_vote, VoterManager.is_registered, VoterManager.has_voted,
    VoterManager.mark_as_voted.
  rewrite invalid_id_str by assumption. simpl.
  apply set_mem_In in Hr. apply set_mem_notin in Hv.
  unfold registered, voted in *. rewrite Hr, Hv. simpl.
  unfold Vote.create_vote, Vote.new.
  destruct s; [contradiction|]. destruct c; [contradiction|]. simpl.
  now rewrite Hnow.
Qed.

(** [cast_vote] with a candidate that is not a non-empty string. *)
Lemma cast_vote_invalid_candidate now (s : str) (c : value) (vs : t) :
  s <> [] -> nonempty_str c = false ->
  In s (registered vs) -> ~ In s (voted vs) ->
  cast_vote now (VStr s) c vs = (vs, Failure INVALID_VOTE_DATA).
Proof.
  intros Hs Hc Hr Hv.
  unfold cast_vote, VoterManager.is_registered, VoterManager.has_voted.
  rewrite invalid_id_str by assumption. simpl.
  apply set_mem_In in Hr. apply set_mem_notin in Hv.
  unfold registered, voted in *. rewrite Hr, Hv. simpl.
  unfold Vote.create_vote, Vote.new.
  destruct s; [contradiction|]. simpl.
  unfold nonempty_str in Hc. rewrite <- negb_andb, Hc. reflexivity.
Qed.

(** A successful registration. *)
Lemma register_voter_success (v : value) (vs vs' : t) (p : value) :
  register_voter v vs = (vs', Success p) ->
  exists s, v = VStr s /\ s <> [] /\ ~ In s (registered vs)
            /\ vs' = Make (blockchain vs)
                          (VoterManager.Make (set_add s (registered vs))
                                             (voted vs))
                          (pending_votes vs).
Proof.
  unfold register_voter, VoterManager.register_voter.
  rewrite invalid_id_nonempty.
  destruct (nonempty_str v) eqn:Hv; simpl; [|discriminate].
  apply nonempty_str_inv in Hv as (s & -> & Hs). simpl.
  destruct (set_mem s _) eqn:Hm; simpl; [discriminate|].
  intros [= <- _]. exists s. apply set_mem_notin in Hm. auto.
Qed.

End Registry.

(* ================================================================== *)
(** * What the constructors guarantee *)
(* ================================================================== *)

(** Splits an equation [m >>= k = Ok _] or [(if c then _ else _) = Ok _]. *)
Ltac inv_result H :=
  match type of H with
  | Py.bind ?m _ = Ok _ =>
      let E := fresh "E" in
      destruct m eqn:E; simpl in H; [|discriminate H]
  | (if ?c then _ else _) = Ok _ =>
      let E := fresh "E" in
      destruct c eqn:E; simpl in H; try discriminate H
  end.

Section Constructors.

Context {FR : FloatRepr}.

Lemma mapM_Forall {A B} (f : A -> result B) (P : B -> Prop) :
  (forall a b, f a = Ok b -> P b) ->
  forall l r, mapM f l = Ok r -> Forall P r.
Proof.
  intros Hf. induction l as [|a l IH]; simpl; intros r H.
  - injection H as <-. constructor.
  - destruct (f a) as [b|] eqn:Ea; simpl in H; [|discriminate].
    destruct (mapM f l) as [bs|] eqn:El; simpl in H; [|discriminate].
    injection H as <-. constructor; eauto.
Qed.

Lemma mapM_length {A B} (f : A -> result B) :
  forall l r, mapM f l = Ok r -> List.length r = List.length l.
Proof.
  induction l as [|a l IH]; simpl; intros r H.
  - now injection H as <-.
  - destruct (f a) as [b|]; simpl in H; [|discriminate].
    destruct (mapM f l) as [bs|]; simpl in H; [|discriminate].
    injection H as <-. simpl. f_equal. now apply IH.
Qed.

Lemma Vote_new_wf (v c ts : value) (vote : Vote.t) :
  Vote.new v c ts = Ok vote -> wf_vote vote.
Proof.
  unfold Vote.new. intros H.
  destruct (negb (truthy v) || negb (isinstance_str v)) eqn:Hv;
    [discriminate|].
  destruct (negb (truthy c) || negb (isinstance_str c)) eqn:Hc;
    [discriminate|].
  destruct (as_number ts) as [n|]; [|discriminate].
  destruct (number_le0 n) eqn:Hn; [discriminate|].
  destruct v as [| | | |s| |]; try discriminate.
  destruct c as [| | | |c| |]; try discriminate.
  injection H as <-. unfold wf_vote; simpl.
  destruct s; [discriminate|]. destruct c; [discriminate|].
  repeat split; try discriminate. assumption.
Qed.

Lemma truthy_str (s : str) : s <> [] -> truthy (VStr s) = true.
Proof. destruct s; [contradiction|reflexivity]. Qed.

Lemma Vote_from_dict_wf (d : value) (vote : Vote.t) :
  Vote.from_dict d = Ok vote -> wf_vote vote.
Proof.
  unfold Vote.from_dict. destruct d; try discriminate.
  destruct (negb _); [discriminate|].
  destruct (lookup _ _); [|discriminate].
  destruct (lookup _ _); [|discriminate].
  destruct (lookup _ _); [|discriminate].
  apply Vote_new_wf.
Qed.

Lemma Block_new_wf (i ts : value) (votes : list Vote.t) (ph h : value)
      (b : Block.t) :
  Forall wf_vote votes -> Block.new i ts votes ph h = Ok b -> wf_block b.
Proof.
  intros Hvotes. unfold Block.new.
  destruct (as_integer i) as [n|]; [|discriminate].
  destruct (Z.ltb (integer_value n) 0) eqn:Hi; [discriminate|].
  destruct (as_number ts) as [t|]; [|discriminate].
  destruct (number_le0 t) eqn:Hts; [discriminate|].
  destruct ph as [| | | |ph| |]; try discriminate.
  apply Z.ltb_ge in Hi.
  destruct (negb (truthy h)) eqn:Hh.
  - intros [= <-]. unfold wf_block.
    cbn [Block.index Block.timestamp Block.votes Block.hash].
    split; [exact Hi|]. split; [exact Hts|]. split; [exact Hvotes|].
    apply truthy_str, hexdigest_nonempty.
  - intros [= <-]. unfold wf_block.
    cbn [Block.index Block.timestamp Block.votes Block.hash].
    split; [exact Hi|]. split; [exact Hts|]. split; [exact Hvotes|].
    now apply negb_false_iff in Hh.
Qed.

Lemma Block_from_dict_wf (d : value) (b : Block.t) :
  Block.from_dict d = Ok b -> wf_block b.
Proof.
  unfold Block.from_dict. destruct d; try discriminate.
  destruct (negb _); [discriminate|].
  do 5 (destruct (lookup _ _); [|discriminate]).
  intros H. inv_result H. inv_result H.
  eapply Block_new_wf; [|eassumption].
  eapply mapM_Forall; [|eassumption]. apply Vote_from_dict_wf.
Qed.

Lemma Blockchain_from_dict_wf (d : value) (bc : Blockchain.t) :
  Blockchain.from_dict d = Ok bc -> Forall wf_block (Blockchain.chain bc).
Proof.
  unfold Blockchain.from_dict. destruct d; try discriminate.
  destruct (lookup _ _); [|discriminate].
  intros H. inv_result H. inv_result H. injection H as <-. simpl.
  eapply mapM_Forall; [|eassumption]. apply Block_from_dict_wf.
Qed.

Lemma load_registered_wf (l : list value) (s r : strset) :
  NoDup s -> Forall (fun x => x <> []) s ->
  VoterManager.load_registered l s = Ok r ->
  NoDup r /\ Forall (fun x => x <> []) r.
Proof.
  revert s; induction l as [|v l IH]; simpl; intros s Hnd Hne H.
  - injection H as <-. auto.
  - destruct v as [| | | |x| |]; try discriminate.
    destruct x as [|c x]; [discriminate|]. simpl in H.
    apply IH in H; [assumption| |].
    + now apply set_add_NoDup.
    + apply Forall_forall. intros y Hy. apply set_add_In in Hy as [->|Hy].
      * discriminate.
      * rewrite Forall_forall in Hne. auto.
Qed.

Lemma load_voted_wf (l : list value) (reg s r : strset) :
  NoDup s -> incl s reg ->
  VoterManager.load_voted l reg s = Ok r -> NoDup r /\ incl r reg.
Proof.
  revert s; induction l as [|v l IH]; simpl; intros s Hnd Hin H.
  - injection H as <-. auto.
  - destruct v as [| | | |x| |]; try discriminate.
    destruct x as [|c x]; [discriminate|]. simpl in H.
    destruct (set_mem (c :: x) reg) eqn:Hm; [|discriminate]. simpl in H.
    apply IH in H; [assumption| |].
    + now apply set_add_NoDup.
    + intros y Hy. apply set_add_In in Hy as [->|Hy]; [|auto].
      now apply set_mem_In.
Qed.

Lemma VoterManager_from_dict_wf (d : value) (vm : VoterManager.t) :
  VoterManager.from_dict d = Ok vm -> wf_registry vm.
Proof.
  unfold VoterManager.from_dict. destruct d; try discriminate.
  destruct (negb _); [discriminate|].
  destruct (lookup _ _) as [[| | | | |reg|]|]; try discriminate;
    destruct (lookup _ _) as [vo|]; try discriminate.
  intros H. inv_result H.
  destruct vo as [| | | | |vo|]; try discriminate.
  inv_result H. injection H as <-.
  apply load_registered_wf in E as [Hnd Hne];
    [|constructor|constructor].
  apply load_voted_wf in E0 as [Hnd' Hin];
    [|constructor|intros ? []].
  unfold wf_registry; simpl. auto.
Qed.

Lemma from_dict_wf (d : value) (vs : VotingSystem.t) :
  VotingSystem.from_dict d = Ok vs -> wf_state vs.
Proof.
  unfold VotingSystem.from_dict. destruct d; try discriminate.
  destruct (negb _); [discriminate|].
  do 3 (destruct (lookup _ _); [|discriminate]).
  intros H. do 4 inv_result H. injection H as <-.
  unfold wf_state; simpl. repeat split.
  - eapply Blockchain_from_dict_wf; eassumption.
  - eapply VoterManager_from_dict_wf; eassumption.
  - eapply VoterManager_from_dict_wf; eassumption.
  - eapply VoterManager_from_dict_wf; eassumption.
  - eapply VoterManager_from_dict_wf; eassumption.
  - eapply mapM_Forall; [|eassumption]. apply Vote_from_dict_wf.
Qed.

End Constructors.

(* ================================================================== *)
(** * The ledger *)
(* ================================================================== *)

Section Ledger.

Context {FR : FloatRepr}.

Lemma create_block_spec now (i : Z) (votes : list Vote.t) (ph : str) :
  Block.create_block now (VInt i) votes (VStr ph)
  = if (i <? 0)%Z then Raise ValueError
    else if float_le0 now then Raise ValueError
    else Ok (sealed now i votes ph).
Proof. reflexivity. Qed.

(** [create_block] refuses a previous hash that is not a string. *)
Lemma create_block_not_str now (i : value) (votes : list Vote.t)
      (h : value) :
  (forall ph, h <> VStr ph) ->
  exists e, Block.create_block now i votes h = Raise e.
Proof.
  intros Hh. unfold Block.create_block, Block.new.
  destruct (as_integer i) as [n|]; [|now eexists].
  destruct (Z.ltb (integer_value n) 0); [now eexists|].
  cbn [as_number number_le0].
  destruct (float_le0 now); [now eexists|].
  destruct h; try (now eexists). now elim (Hh s).
Qed.

Lemma validate_hash_sealed now i votes ph :
  Block.validate_hash (sealed now i votes ph) = true.
Proof.
  unfold Block.validate_hash, sealed. cbn [Block.hash str_eq_value].
  apply str_eqb_refl.
Qed.

Lemma validate_hash_iff (b : Block.t) :
  Block.validate_hash b = true <-> Block.hash b = VStr (Block.calculate_hash b).
Proof.
  unfold Block.validate_hash. destruct (Block.hash b); cbn [str_eq_value];
    try (split; discriminate).
  rewrite str_eqb_eq. split; [now intros <-|now intros [= <-]].
Qed.

Lemma str_eq_value_iff (s : str) (v : value) :
  str_eq_value s v = true <-> VStr s = v.
Proof.
  destruct v; cbn [str_eq_value]; try (split; discriminate).
  rewrite str_eqb_eq. split; [now intros <-|now intros [= <-]].
Qed.

(** The tests of [add_block] pass on a list of votes. *)
Lemma the_votes_map (votes : list Vote.t) :
  the_votes (List.map OVote votes) = votes.
Proof. induction votes as [|v l IH]; simpl; [reflexivity|now rewrite IH]. Qed.

Lemma forallb_isinstance_Vote (votes : list Vote.t) :
  forallb isinstance_Vote (List.map OVote votes) = true.
Proof. induction votes as [|v l IH]; simpl; [reflexivity|exact IH]. Qed.

Lemma add_block_votes now (votes : list Vote.t) (bc : Blockchain.t) :
  Blockchain.add_block now (votes_object votes) bc
  = match Blockchain.get_latest_block bc with
    | Raise _ => (bc, false)
    | Ok latest_block =>
        match Block.create_block
                now (VInt (integer_value (Block.index latest_block) + 1))
                votes (Block.hash latest_block) with
        | Raise _ => (bc, false)
        | Ok new_block =>
            (Blockchain.Make (Blockchain.chain bc ++ [new_block]), true)
        end
    end.
Proof.
  unfold Blockchain.add_block, votes_object.
  cbn [isinstance_list list_items negb].
  now rewrite forallb_isinstance_Vote, the_votes_map.
Qed.

Lemma get_latest_block_spec (bc : Blockchain.t) :
  Blockchain.get_latest_block bc
  = match Blockchain.chain bc with
    | [] => Raise IndexError
    | g :: rest => Ok (last rest g)
    end.
Proof. reflexivity. Qed.

Lemma last_app_single {A} (l : list A) (x d : A) : last (l ++ [x]) d = x.
Proof.
  induction l as [|a l IH]; simpl; [reflexivity|].
  destruct (l ++ [x]) eqn:E; [destruct l; discriminate|]. exact IH.
Qed.

Lemma last_cons {A} (l : list A) (x d d' : A) :
  last (x :: l) d = last (x :: l) d'.
Proof.
  revert x; induction l as [|a l IH]; intros x; [reflexivity|].
  change (last (a :: l) d = last (a :: l) d'). apply IH.
Qed.

(** [add_block] either appends the sealed successor of the latest block
    or leaves the ledger as it is. *)
Lemma add_block_spec now (votes : list Vote.t) (bc : Blockchain.t) :
  (exists latest ph,
      Blockchain.get_latest_block bc = Ok latest
      /\ Block.hash latest = VStr ph
      /\ float_le0 now = false
      /\ (0 <= integer_value (Block.index latest) + 1)%Z
      /\ Blockchain.add_block now (votes_object votes) bc
         = (Blockchain.Make
              (Blockchain.chain bc
                 ++ [sealed now (integer_value (Block.index latest) + 1)
                            votes ph]),
            true))
  \/ Blockchain.add_block now (votes_object votes) bc = (bc, false).
Proof.
  rewrite add_block_votes.
  destruct (Blockchain.get_latest_block bc) as [latest|] eqn:E;
    [|now right].
  assert (Hcases : (exists ph, Block.hash latest = VStr ph)
                   \/ forall ph, Block.hash latest <> VStr ph).
  { destruct (Block.hash latest); try (right; discriminate).
    left. now eexists. }
  destruct Hcases as [[ph Hph]|Hnot].
  - rewrite Hph, create_block_spec.
    destruct (Z.ltb_spec (integer_value (Block.index latest) + 1) 0);
      [now right|].
    destruct (float_le0 now) eqn:Hn; [now right|].
    left. exists latest, ph. auto.
  - destruct (create_block_not_str
                now (VInt (integer_value (Block.index latest) + 1))
                votes (Block.hash latest) Hnot) as [e He].
    rewrite He. now right.
Qed.

Lemma add_block_true now votes bc bc' :
  Blockchain.add_block now (votes_object votes) bc = (bc', true) ->
  exists latest ph,
    Blockchain.get_latest_block bc = Ok latest
    /\ Block.hash latest = VStr ph
    /\ float_le0 now = false
    /\ (0 <= integer_value (Block.index latest) + 1)%Z
    /\ bc' = Blockchain.Make
               (Blockchain.chain bc
                  ++ [sealed now (integer_value (Block.index latest) + 1)
                             votes ph]).
Proof.
  intros H.
  destruct (add_block_spec now votes bc)
    as [(latest & ph & E & Hph & Hn & Hi & E')|E'];
    rewrite E' in H; [|discriminate].
  injection H as <-. exists latest, ph. auto.
Qed.

Lemma add_block_false now votes bc bc' :
  Blockchain.add_block now votes bc = (bc', false) -> bc' = bc.
Proof.
  unfold Blockchain.add_block.
  destruct (negb (isinstance_list votes)); [now intros [= <-]|].
  destruct (negb (forallb isinstance_Vote (list_items votes)));
    [now intros [= <-]|].
  destruct (Blockchain.get_latest_block bc); [|now intros [= <-]].
  destruct (Block.create_block _ _ _ _); [discriminate|now intros [= <-]].
Qed.

Lemma validate_links_cons (p c : Block.t) (rest : list Block.t) :
  Blockchain.validate_links p (c :: rest)
  = link_ok p c && Blockchain.validate_links c rest.
Proof.
  simpl. unfold link_ok.
  destruct (Block.validate_hash c); simpl; [|reflexivity].
  destruct (str_eq_value _ _); simpl; [|reflexivity].
  destruct (Z.eqb _ _); reflexivity.
Qed.

Lemma validate_links_app (p : Block.t) (rest : list Block.t) (b : Block.t) :
  Blockchain.validate_links p (rest ++ [b])
  = Blockchain.validate_links p rest && link_ok (last rest p) b.
Proof.
  revert p; induction rest as [|c rest IH]; intros p.
  - simpl app. rewrite validate_links_cons. simpl. now rewrite andb_true_r.
  - change ((c :: rest) ++ [b]) with (c :: (rest ++ [b])).
    rewrite !validate_links_cons, IH, andb_assoc.
    destruct rest as [|c' rest]; [reflexivity|].
    change (last (c :: c' :: rest) p) with (last (c' :: rest) p).
    now rewrite (last_cons rest c' c p).
Qed.

Lemma link_ok_sealed now (latest : Block.t) votes (ph : str) :
  Block.hash latest = VStr ph ->
  link_ok latest
          (sealed now (integer_value (Block.index latest) + 1) votes ph)
  = true.
Proof.
  intros Hph. unfold link_ok. rewrite validate_hash_sealed, Hph.
  unfold sealed.
  cbn [Block.previous_hash Block.index str_eq_value integer_value andb].
  now rewrite str_eqb_refl, Z.eqb_refl.
Qed.

Lemma validate_chain_spec (bc : Blockchain.t) :
  Blockchain.validate_chain bc
  = match Blockchain.chain bc with
    | [] => false
    | genesis :: rest =>
        genesis_ok genesis && Blockchain.validate_links genesis rest
    end.
Proof.
  unfold Blockchain.validate_chain, genesis_ok.
  destruct (Blockchain.chain bc) as [|g rest]; [reflexivity|].
  destruct (Z.eqb _ _); simpl; [|reflexivity].
  destruct (str_eqb _ _); simpl; [|reflexivity].
  destruct (Block.validate_hash g); reflexivity.
Qed.

(** A successful append keeps a valid ledger valid. *)
Lemma add_block_valid now votes bc bc' :
  Blockchain.validate_chain bc = true ->
  Blockchain.add_block now (votes_object votes) bc = (bc', true) ->
  Blockchain.validate_chain bc' = true.
Proof.
  intros Hv H.
  apply add_block_true in H as (latest & ph & E & Hph & _ & _ & ->).
  rewrite validate_chain_spec in *. cbn [Blockchain.chain].
  rewrite get_latest_block_spec in E.
  destruct (Blockchain.chain bc) as [|g rest]; [discriminate|].
  injection E as <-. cbn [app].
  apply andb_true_iff in Hv as [Hg Hl].
  now rewrite Hg, validate_links_app, Hl, link_ok_sealed.
Qed.

(** [Blockchain()]: the genesis block alone, and a valid ledger. *)
Lemma Blockchain_init_spec now :
  Blockchain.init now
  = if float_le0 now then Raise ValueError
    else Ok (Blockchain.Make [sealed now 0 [] (lit "0")]).
Proof.
  unfold Blockchain.init, Blockchain.create_genesis_block.
  rewrite create_block_spec. simpl.
  destruct (float_le0 now); reflexivity.
Qed.

Lemma Blockchain_init_valid now bc :
  Blockchain.init now = Ok bc -> Blockchain.validate_chain bc = true.
Proof.
  rewrite Blockchain_init_spec. destruct (float_le0 now); [discriminate|].
  intros [= <-]. rewrite validate_chain_spec.
  cbn [Blockchain.chain Blockchain.validate_links].
  unfold genesis_ok. rewrite validate_hash_sealed. reflexivity.
Qed.

Lemma add_blocks_valid appends :
  forall bc bc',
    Blockchain.validate_chain bc = true ->
    Run.add_blocks appends bc = Some bc' ->
    Blockchain.validate_chain bc' = true.
Proof.
  induction appends as [|[now votes] appends IH]; simpl; intros bc bc' Hv H.
  - now injection H as <-.
  - destruct (Blockchain.add_block now (votes_object votes) bc)
      as [bc1 [|]] eqn:E; [|discriminate].
    eapply IH; [|eassumption]. eapply add_block_valid; eassumption.
Qed.

End Ledger.

(* ================================================================== *)
(** * The coordinator *)
(* ================================================================== *)

Section Coordinator.

Context {FR : FloatRepr}.

Import VotingSystem Run.

Lemma init_spec now :
  init now
  = if float_le0 now then Raise ValueError
    else Ok (Make (Blockchain.Make [sealed now 0 [] (lit "0")])
                  VoterManager.init []).
Proof.
  unfold init. rewrite Blockchain_init_spec.
  destruct (float_le0 now); reflexivity.
Qed.

(** Sealing, case by case. *)
Lemma seal_empty now (vs : t) :
  pending_votes vs = [] ->
  create_block_from_pending_votes now vs = (vs, Failure NO_PENDING_VOTES).
Proof.
  intros H. unfold create_block_from_pending_votes. now rewrite H.
Qed.

Lemma seal_nonempty now (vs : t) :
  pending_votes vs <> [] ->
  (exists latest ph,
      Blockchain.get_latest_block (blockchain vs) = Ok latest
      /\ Block.hash latest = VStr ph
      /\ float_le0 now = false
      /\ (0 <= integer_value (Block.index latest) + 1)%Z
      /\ create_block_from_pending_votes now vs
         = (Make (Blockchain.Make
                    (Blockchain.chain (blockchain vs)
                       ++ [sealed now
                                  (integer_value (Block.index latest) + 1)
                                  (pending_votes vs) ph]))
                 (voter_manager vs) [],
            Success (BlockReceipt
                       (IInt (integer_value (Block.index latest) + 1))
                       (VStr (Block.digest
                                (IInt (integer_value (Block.index latest)
                                       + 1))
                                (NFloat now) (pending_votes vs) ph))
                       (List.length (pending_votes vs)) (NFloat now))))
  \/ (Blockchain.add_block now (votes_object (pending_votes vs))
                           (blockchain vs)
      = (blockchain vs, false)
      /\ create_block_from_pending_votes now vs
         = (vs, Failure BLOCK_CREATION_FAILED)).
Proof.
  intros Hp. unfold create_block_from_pending_votes.
  destruct (pending_votes vs) as [|v pending] eqn:Ep; [contradiction|].
  destruct (add_block_spec now (v :: pending) (blockchain vs))
    as [(latest & ph & E & Hph & Hn & Hi & E')|E']; rewrite E'.
  - left. exists latest, ph. repeat split; try assumption.
    rewrite get_latest_block_spec. cbn [Blockchain.chain].
    destruct (Blockchain.chain (blockchain vs) ++ _) as [|g rest] eqn:Ec.
    + destruct (Blockchain.chain (blockchain vs)); discriminate.
    + assert (Hl : last rest g
                   = sealed now (integer_value (Block.index latest) + 1)
                            (v :: pending) ph).
      { rewrite <- (last_app_single
                      (Blockchain.chain (blockchain vs))
                      (sealed now (integer_value (Block.index latest) + 1)
                              (v :: pending) ph) g).
        rewrite Ec. destruct rest; reflexivity. }
      rewrite Hl. reflexivity.
  - right. split; [reflexivity|]. rewrite <- Ep. now destruct vs.
Qed.

Lemma set_add_incl (x : str) (a b : strset) :
  incl a b -> In x b -> incl (set_add x a) b.
Proof.
  intros H Hx y Hy. apply set_add_In in Hy as [->|Hy]; auto.
Qed.

Lemma step_wf (o : op) (vs : t) : wf_state vs -> wf_state (step o vs).
Proof.
  intros (Hc & (Hnr & Hnv & Hne & Hin) & Hp).
  destruct o as [v|now v c|now]; simpl.
  - unfold register_voter, VoterManager.register_voter.
    rewrite invalid_id_nonempty.
    destruct (nonempty_str v) eqn:Hv; simpl;
      [|repeat split; assumption].
    apply nonempty_str_inv in Hv as (s & -> & Hs). simpl.
    destruct (set_mem s _) eqn:Hm; simpl; [repeat split; assumption|].
    repeat split; simpl; try assumption.
    + now apply set_add_NoDup.
    + apply Forall_forall. intros y Hy.
      apply set_add_In in Hy as [->|Hy]; [assumption|].
      rewrite Forall_forall in Hne. auto.
    + intros y Hy. apply set_add_In. right. auto.
  - unfold cast_vote, VoterManager.is_registered, VoterManager.has_voted,
      VoterManager.mark_as_voted.
    rewrite invalid_id_nonempty.
    destruct (nonempty_str v) eqn:Hv; simpl;
      [|repeat split; assumption].
    apply nonempty_str_inv in Hv as (s & -> & Hs). simpl.
    destruct (set_mem s (VoterManager.registered_voters _)) eqn:Hr; simpl;
      [|repeat split; assumption].
    destruct (set_mem s (VoterManager.voted_voters _)) eqn:Hvo; simpl;
      [repeat split; assumption|].
    destruct (Vote.create_vote now (VStr s) c) as [vote|e] eqn:Ev.
    + apply Vote_new_wf in Ev. apply set_mem_In in Hr.
      repeat split; simpl; try assumption.
      * now apply set_add_NoDup.
      * now apply set_add_incl.
      * apply Forall_app. split; [assumption|]. now constructor.
    + destruct e; repeat split; assumption.
  - assert (Hcase : pending_votes vs = [] \/ pending_votes vs <> []).
    { destruct (pending_votes vs); [now left|right; discriminate]. }
    destruct Hcase as [Ep|Ep].
    + rewrite seal_empty by assumption. repeat split; assumption.
    + destruct (seal_nonempty now vs Ep)
        as [(latest & ph & _ & _ & Hn & Hi & E)|[_ E]];
        rewrite E; cbn [fst].
      * unfold wf_state.
        cbn [blockchain voter_manager pending_votes Blockchain.chain].
        split; [|split; [repeat split; assumption|constructor]].
        apply Forall_app. split; [assumption|]. constructor; [|constructor].
        unfold wf_block, sealed.
        cbn [Block.index Block.timestamp Block.votes Block.hash
             integer_value number_le0].
        split; [exact Hi|]. split; [exact Hn|]. split; [exact Hp|].
        apply truthy_str, hexdigest_nonempty.
      * repeat split; assumption.
Qed.

Lemma init_wf now vs : init now = Ok vs -> wf_state vs.
Proof.
  rewrite init_spec. destruct (float_le0 now) eqn:Hn; [discriminate|].
  intros [= <-]. unfold wf_state.
  cbn [blockchain voter_manager pending_votes Blockchain.chain].
  split; [|split; [|constructor]].
  - constructor; [|constructor]. unfold wf_block, sealed.
    cbn [Block.index Block.timestamp Block.votes Block.hash
         integer_value number_le0].
    split; [lia|]. split; [exact Hn|]. split; [constructor|].
    apply truthy_str, hexdigest_nonempty.
  - repeat split; try constructor. intros ? [].
Qed.

Lemma validate_system_integrity_total (vs : t) :
  exists r,
    validate_system_integrity vs = Success r
    /\ blockchain_valid r = Blockchain.validate_chain (blockchain vs).
Proof. eexists. split; reflexivity. Qed.

(** [load_state], case by case: the state is replaced by the decoded
    one exactly when decoding succeeds and the decoded ledger is valid. *)
Lemma load_state_spec (f : file) (vs : t) :
  (exists data loaded r,
      f = Content data /\ from_dict data = Ok loaded
      /\ Blockchain.validate_chain (blockchain loaded) = true
      /\ validate_system_integrity loaded = Success r
      /\ load_state f vs = (loaded, Success r))
  \/ (exists e, load_state f vs = (vs, Failure e)
                /\ match f with
                   | Missing => e = FILE_NOT_FOUND
                   | Unreadable => e = LOAD_ERROR
                   | Content data =>
                       match from_dict data with
                       | Raise _ => e = LOAD_ERROR
                       | Ok loaded =>
                           e = INVALID_BLOCKCHAIN
                           /\ Blockchain.validate_chain (blockchain loaded)
                              = false
                       end
                   end).
Proof.
  destruct f as [| |data]; unfold load_state.
  - right. eexists; split; reflexivity.
  - right. eexists; split; reflexivity.
  - destruct (from_dict data) as [loaded|e] eqn:E.
    + destruct (validate_system_integrity_total loaded) as (r & Er & Hr).
      rewrite Er, Hr.
      destruct (Blockchain.validate_chain (blockchain loaded)) eqn:Hv.
      * left. exists data, loaded, r. repeat split; try assumption.
        simpl. now destruct loaded.
      * right. eexists; split; [reflexivity|]. auto.
    + right. eexists; split; reflexivity.
Qed.

Lemma load_state_wf (f : file) (vs : t) :
  wf_state vs -> wf_state (fst (load_state f vs)).
Proof.
  intros H.
  destruct (load_state_spec f vs)
    as [(data & loaded & r & _ & E & _ & _ & E')|(e & E' & _)];
    rewrite E'; simpl; [|assumption].
  eapply from_dict_wf; eassumption.
Qed.

Lemma reachable_wf (vs : t) : reachable vs -> wf_state vs.
Proof.
  induction 1.
  - eapply init_wf; eassumption.
  - eapply from_dict_wf; eassumption.
  - now apply step_wf.
  - now apply load_state_wf.
Qed.

End Coordinator.

(* ================================================================== *)
(** * One vote per voter *)
(* ================================================================== *)

Section OneVote.

Context {FR : FloatRepr}.

Import VotingSystem Run.

(** C1 — One-vote enforcement. A voter is registered with success in a
    reachable state; registrations, votes of other voters and sealings may
    follow. Then the first [cast_vote] for the voter (with a candidate
    that is a non-empty string, the clock being positive) succeeds and
    stages one vote, and after any further registrations, votes and
    sealings every [cast_vote] for the same voter, whatever the candidate,
    fails with [ALREADY_VOTED] and returns the state as it was: the
    pending list has the same contents and the same length. *)
Theorem one_vote_enforcement :
  forall (vs0 vs1 : t) (voter_id candidate payload : value)
         (before : list op) (now : float),
    reachable vs0 ->
    register_voter voter_id vs0 = (vs1, Success payload) ->
    Forall (fun o => ~ casts_for voter_id o) before ->
    nonempty_str candidate = true ->
    float_le0 now = false ->
    exists (vs3 : t) (receipt : vote_receipt),
      cast_vote now voter_id candidate (run before vs1)
      = (vs3, Success receipt)
      /\ List.length (pending_votes vs3)
         = S (List.length (pending_votes (run before vs1)))
      /\ forall (after : list op) (now' : float) (candidate' : value),
          cast_vote now' voter_id candidate' (run after vs3)
          = (run after vs3, Failure ALREADY_VOTED)
          /\ pending_votes
               (fst (cast_vote now' voter_id candidate' (run after vs3)))
             = pending_votes (run after vs3)
          /\ List.length
               (pending_votes
                  (fst (cast_vote now' voter_id candidate' (run after vs3))))
             = List.length (pending_votes (run after vs3)).
Proof.
  intros vs0 vs1 voter_id candidate payload before now
         Hreach Hreg Hbefore Hcand Hnow.
  apply reachable_wf in Hreach as (_ & (_ & _ & _ & Hincl) & _).
  apply register_voter_success in Hreg as (s & -> & Hs & Hnew & ->).
  apply nonempty_str_inv in Hcand as (c & -> & Hc).
  set (vs1 := Make _ _ _) in *.
  assert (Hr1 : In s (registered vs1)).
  { unfold vs1, registered; simpl. apply set_add_In. now left. }
  assert (Hv1 : ~ In s (voted vs1)).
  { unfold vs1, voted; simpl. intros H. apply Hnew, Hincl, H. }
  pose proof (run_registered_mono before vs1 s Hr1) as Hr2.
  pose proof (run_not_voted before vs1 s Hbefore Hv1) as Hv2.
  rewrite (cast_vote_ok now s c (run before vs1) Hs Hc Hnow Hr2 Hv2).
  eexists. eexists. split; [reflexivity|]. split.
  { simpl. rewrite length_app. simpl. lia. }
  intros after now' candidate'.
  set (vs3 := Make _ _ _).
  assert (Hr3 : In s (registered (run after vs3))).
  { apply run_registered_mono. exact Hr2. }
  assert (Hv3 : In s (voted (run after vs3))).
  { apply run_voted_mono. unfold vs3, voted; simpl.
    apply set_add_In. now left. }
  rewrite (cast_vote_already_voted now' s candidate' (run after vs3) Hs Hr3 Hv3).
  auto.
Qed.

(** C10 — A [cast_vote] with an invalid candidate mutates nothing. For a
    registered voter who has not voted, a candidate that is empty or not
    a string gives [INVALID_VOTE_DATA]; the state is returned as it was
    (nothing staged, the voter not marked), and a following [cast_vote]
    with a valid candidate, the clock being positive, succeeds and stages
    that vote. *)
Theorem cast_vote_invalid_candidate_mutates_nothing :
  forall (vs : t) (voter_id candidate : value) (now : float),
    VoterManager.is_registered voter_id (voter_manager vs) = true ->
    VoterManager.has_voted voter_id (voter_manager vs) = false ->
    nonempty_str candidate = false ->
    cast_vote now voter_id candidate vs = (vs, Failure INVALID_VOTE_DATA)
    /\ VoterManager.has_voted
         voter_id
         (voter_manager (fst (cast_vote now voter_id candidate vs)))
       = false
    /\ forall (now' : float) (candidate' : value),
        nonempty_str candidate' = true ->
        float_le0 now' = false ->
        exists (vs' : t) (receipt : vote_receipt),
          cast_vote now' voter_id candidate'
                    (fst (cast_vote now voter_id candidate vs))
          = (vs', Success receipt)
          /\ List.length (pending_votes vs')
             = S (List.length (pending_votes vs))
          /\ VoterManager.has_voted voter_id (voter_manager vs') = true.
Proof.
  intros vs voter_id candidate now Hreg Hvoted Hcand.
  unfold VoterManager.is_registered, VoterManager.has_voted in Hreg, Hvoted.
  rewrite invalid_id_nonempty in Hreg, Hvoted.
  destruct (nonempty_str voter_id) eqn:Hid; [|discriminate].
  apply nonempty_str_inv in Hid as (s & -> & Hs). simpl in Hreg, Hvoted.
  apply set_mem_In in Hreg. apply set_mem_notin in Hvoted.
  rewrite (cast_vote_invalid_candidate now s candidate vs Hs Hcand Hreg Hvoted).
  split; [reflexivity|]. split.
  { simpl. unfold VoterManager.has_voted.
    rewrite invalid_id_str by assumption. simpl.
    now apply set_mem_notin. }
  intros now' candidate' Hcand' Hnow'.
  apply nonempty_str_inv in Hcand' as (c & -> & Hc). simpl fst.
  rewrite (cast_vote_ok now' s c vs Hs Hc Hnow' Hreg Hvoted).
  eexists. eexists. split; [reflexivity|]. split.
  - simpl. rewrite length_app. simpl. lia.
  - simpl. unfold VoterManager.has_voted.
    rewrite invalid_id_str by assumption. simpl.
    apply set_mem_In, set_add_In. now left.
Qed.

End OneVote.

(* ================================================================== *)
(** * Sealing, linkage, tampering, loading *)
(* ================================================================== *)

Section Sealing.

Context {FR : FloatRepr}.

Import VotingSystem Run.

(** C5 — Sealing is all or nothing. With nothing staged
    [create_block_from_pending_votes] fails with [NO_PENDING_VOTES] and
    returns the state as it was; on a fresh coordinator the ledger keeps
    its single block. With votes staged, either [add_block] returns
    [True], the ledger gains exactly one block that holds the whole
    pending list in its order, and the pending list is emptied; or
    [add_block] returns [False] and the state, the pending list with it,
    is returned as it was. *)
Theorem seal_block_all_or_nothing :
  forall (now : float) (vs : t),
    (pending_votes vs = [] ->
     create_block_from_pending_votes now vs = (vs, Failure NO_PENDING_VOTES))
    /\ (forall now0, init now0 = Ok vs ->
          create_block_from_pending_votes now vs
          = (vs, Failure NO_PENDING_VOTES)
          /\ Blockchain.get_block_count
               (blockchain (fst (create_block_from_pending_votes now vs)))
             = 1%nat)
    /\ (pending_votes vs <> [] ->
        let vs' := fst (create_block_from_pending_votes now vs) in
        let o := snd (create_block_from_pending_votes now vs) in
        (snd (Blockchain.add_block now (votes_object (pending_votes vs))
                                   (blockchain vs))
         = true
         /\ success o = true
         /\ (exists b, Blockchain.chain (blockchain vs')
                       = Blockchain.chain (blockchain vs) ++ [b]
                       /\ Block.votes b = pending_votes vs)
         /\ pending_votes vs' = []
         /\ voter_manager vs' = voter_manager vs)
        \/ (snd (Blockchain.add_block now (votes_object (pending_votes vs))
                                      (blockchain vs))
            = false
            /\ o = Failure BLOCK_CREATION_FAILED
            /\ vs' = vs)).
Proof.
  intros now vs. split; [apply seal_empty|]. split.
  - intros now0 H. rewrite init_spec in H.
    destruct (float_le0 now0); [discriminate|]. injection H as <-.
    rewrite seal_empty by reflexivity. split; reflexivity.
  - intros Hp.
    destruct (seal_nonempty now vs Hp)
      as [(latest & ph & E & Hph & Hn & Hi & E')|[Ea E']]; rewrite E'.
    + left. cbn [fst snd]. split.
      { destruct (add_block_spec now (pending_votes vs) (blockchain vs))
          as [(l' & ph' & _ & _ & _ & _ & Ea)|Ea]; rewrite Ea;
          [reflexivity|].
        exfalso. rewrite add_block_votes, E, Hph in Ea.
        rewrite create_block_spec in Ea.
        destruct (Z.ltb_spec (integer_value (Block.index latest) + 1) 0);
          [lia|].
        rewrite Hn in Ea. discriminate. }
      split; [reflexivity|]. split; [|split; reflexivity].
      eexists. split; reflexivity.
    + right. rewrite Ea. auto.
Qed.

(** C2 — Chain linkage. A successful [add_block] appends one block whose
    index is the index of the block that was the latest plus one and
    whose [previous_hash] is that block's hash; and from a fresh ledger,
    after any sequence of successful appends, [validate_chain] returns
    [True]. *)
Theorem chain_linkage :
  (forall (bc bc' : Blockchain.t) (now : float) (votes : list Vote.t),
      Blockchain.add_block now (votes_object votes) bc = (bc', true) ->
      exists latest b,
        Blockchain.get_latest_block bc = Ok latest
        /\ Blockchain.chain bc' = Blockchain.chain bc ++ [b]
        /\ Blockchain.get_latest_block bc' = Ok b
        /\ Block.index b = IInt (integer_value (Block.index latest) + 1)
        /\ VStr (Block.previous_hash b) = Block.hash latest
        /\ Block.votes b = votes)
  /\ (forall (now0 : float) (bc0 bc : Blockchain.t)
             (appends : list (float * list Vote.t)),
         Blockchain.init now0 = Ok bc0 ->
         add_blocks appends bc0 = Some bc ->
         Blockchain.validate_chain bc = true).
Proof.
  split.
  - intros bc bc' now votes H.
    apply add_block_true in H as (latest & ph & E & Hph & _ & _ & ->).
    exists latest. eexists. split; [assumption|].
    split; [reflexivity|]. split;
      [|split; [reflexivity|split; [now rewrite Hph|reflexivity]]].
    rewrite get_latest_block_spec. cbn [Blockchain.chain].
    destruct (Blockchain.chain bc ++ _) as [|g rest] eqn:Ec.
    + destruct (Blockchain.chain bc); discriminate.
    + f_equal.
      rewrite <- (last_app_single (Blockchain.chain bc)
                    (sealed now (integer_value (Block.index latest) + 1)
                            votes ph) g).
      rewrite Ec. destruct rest; reflexivity.
  - intros now0 bc0 bc appends H0 H.
    eapply add_blocks_valid; [|eassumption].
    eapply Blockchain_init_valid; eassumption.
Qed.

End Sealing.

Section Tampering.

Context {FR : FloatRepr}.

Import Tamper.

Lemma calculate_hash_set_hash h b :
  Block.calculate_hash (set_hash h b) = Block.calculate_hash b.
Proof. reflexivity. Qed.

Lemma validate_hash_set_hash h b :
  Block.validate_hash b = true -> h <> Block.hash b ->
  Block.validate_hash (set_hash h b) = false.
Proof.
  intros Hb Hh. apply validate_hash_iff in Hb.
  destruct (Block.validate_hash (set_hash h b)) eqn:E; [|reflexivity].
  apply validate_hash_iff in E. rewrite calculate_hash_set_hash in E.
  cbn [set_hash Block.hash] in E. congruence.
Qed.

Lemma set_hash_breaks_link h b :
  h <> Block.hash b -> breaks_link b (set_hash h b).
Proof.
  intros Hh p H. unfold link_ok in *.
  apply andb_true_iff in H as [H _]. apply andb_true_iff in H as [H _].
  now rewrite validate_hash_set_hash.
Qed.

Lemma set_hash_breaks_genesis h b :
  h <> Block.hash b -> breaks_genesis b (set_hash h b).
Proof.
  intros Hh H. unfold genesis_ok in *.
  apply andb_true_iff in H as [_ H].
  rewrite validate_hash_set_hash by assumption. apply andb_false_r.
Qed.

Lemma set_previous_hash_breaks_link h b :
  h <> Block.previous_hash b -> breaks_link b (set_previous_hash h b).
Proof.
  intros Hh p H. unfold link_ok in *.
  apply andb_true_iff in H as [H _]. apply andb_true_iff in H as [_ H].
  apply str_eq_value_iff in H.
  cbn [set_previous_hash Block.previous_hash Block.hash].
  assert (E : str_eq_value h (Block.hash p) = false).
  { destruct (str_eq_value h (Block.hash p)) eqn:E; [|reflexivity].
    apply str_eq_value_iff in E. congruence. }
  rewrite E. now rewrite andb_false_r.
Qed.

Lemma set_previous_hash_breaks_genesis h b :
  h <> Block.previous_hash b -> breaks_genesis b (set_previous_hash h b).
Proof.
  intros Hh H. unfold genesis_ok in *.
  apply andb_true_iff in H as [H _]. apply andb_true_iff in H as [_ H].
  apply str_eqb_eq in H. cbn [set_previous_hash Block.previous_hash].
  assert (E : str_eqb h (lit "0") = false)
    by (apply str_eqb_neq; congruence).
  rewrite E. now rewrite andb_false_r.
Qed.

Lemma set_index_breaks_link z b :
  integer_value z <> integer_value (Block.index b) ->
  breaks_link b (set_index z b).
Proof.
  intros Hz p H. unfold link_ok in *.
  apply andb_true_iff in H as [_ H]. apply Z.eqb_eq in H.
  cbn [set_index Block.index].
  assert (E : Z.eqb (integer_value z) (integer_value (Block.index p) + 1)
              = false)
    by (apply Z.eqb_neq; congruence).
  rewrite E. apply andb_false_r.
Qed.

Lemma set_index_breaks_genesis z b :
  integer_value z <> integer_value (Block.index b) ->
  breaks_genesis b (set_index z b).
Proof.
  intros Hz H. unfold genesis_ok in *.
  apply andb_true_iff in H as [H _]. apply andb_true_iff in H as [H _].
  apply Z.eqb_eq in H. cbn [set_index Block.index].
  assert (E : Z.eqb (integer_value z) 0 = false)
    by (apply Z.eqb_neq; congruence).
  now rewrite E.
Qed.

Lemma validate_links_update (f : Block.t -> Block.t) :
  forall (rest : list Block.t) (i : nat) (p b : Block.t),
    Blockchain.validate_links p rest = true ->
    nth_error rest i = Some b ->
    breaks_link b (f b) ->
    Blockchain.validate_links p (update i f rest) = false.
Proof.
  induction rest as [|c rest IH]; intros i p b Hv Hn Hf.
  - destruct i; discriminate.
  - rewrite validate_links_cons in Hv.
    apply andb_true_iff in Hv as [Hl Hv].
    destruct i as [|i]; simpl in Hn.
    + injection Hn as ->. cbn [update].
      rewrite validate_links_cons, (Hf p Hl). reflexivity.
    + cbn [update]. rewrite validate_links_cons, Hl.
      apply (IH i c b Hv Hn Hf).
Qed.

Lemma validate_chain_tamper (f : Block.t -> Block.t) :
  forall (bc : Blockchain.t) (i : nat) (b : Block.t),
    Blockchain.validate_chain bc = true ->
    nth_error (Blockchain.chain bc) i = Some b ->
    breaks_link b (f b) -> breaks_genesis b (f b) ->
    Blockchain.validate_chain (tamper i f bc) = false.
Proof.
  intros bc i b Hv Hn Hl Hg. rewrite validate_chain_spec in *.
  unfold tamper. cbn [Blockchain.chain].
  destruct (Blockchain.chain bc) as [|g rest]; [discriminate|].
  apply andb_true_iff in Hv as [Hgen Hlinks].
  destruct i as [|i]; simpl in Hn.
  - injection Hn as ->. cbn [update]. now rewrite (Hg Hgen).
  - cbn [update]. rewrite Hgen.
    apply (validate_links_update f rest i g b Hlinks Hn Hl).
Qed.

(** C3 — Tamper detection. In a ledger of at least two blocks on which
    [validate_chain] returns [True], giving any one block another stored
    hash (an object of any type), another [previous_hash] or another
    index (an [int] or [bool] that does not compare equal to the old
    one), with nothing else recomputed, makes [validate_chain] return
    [False]. *)
Theorem tamper_detection :
  forall (bc : Blockchain.t) (i : nat) (b : Block.t),
    Blockchain.validate_chain bc = true ->
    (2 <= List.length (Blockchain.chain bc))%nat ->
    nth_error (Blockchain.chain bc) i = Some b ->
    (forall h, h <> Block.hash b ->
               Blockchain.validate_chain (tamper i (set_hash h) bc) = false)
    /\ (forall h, h <> Block.previous_hash b ->
                  Blockchain.validate_chain
                    (tamper i (set_previous_hash h) bc) = false)
    /\ (forall z, integer_value z <> integer_value (Block.index b) ->
                  Blockchain.validate_chain (tamper i (set_index z) bc)
                  = false).
Proof.
  intros bc i b Hv _ Hn. repeat split; intros x Hx.
  - apply (validate_chain_tamper (set_hash x) bc i b Hv Hn).
    + now apply set_hash_breaks_link.
    + now apply set_hash_breaks_genesis.
  - apply (validate_chain_tamper (set_previous_hash x) bc i b Hv Hn).
    + now apply set_previous_hash_breaks_link.
    + now apply set_previous_hash_breaks_genesis.
  - apply (validate_chain_tamper (set_index x) bc i b Hv Hn).
    + now apply set_index_breaks_link.
    + now apply set_index_breaks_genesis.
Qed.

End Tampering.

Section Loading.

Context {FR : FloatRepr}.

Import VotingSystem.

(** C9 — Loading validates and is all or nothing. [load_state] succeeds
    only when the document decodes and [validate_chain] returns [True]
    on the decoded ledger, and the coordinator then holds the decoded
    state; whenever it fails (no file, an error while reading or
    decoding, a decoded ledger that is not valid) the ledger, the
    registry and the pending list are what they were. *)
Theorem load_state_all_or_nothing :
  forall (f : file) (vs : t),
    let vs' := fst (load_state f vs) in
    let o := snd (load_state f vs) in
    (success o = true ->
     exists data, f = Content data /\ from_dict data = Ok vs'
                  /\ Blockchain.validate_chain (blockchain vs') = true)
    /\ (success o = false ->
        vs' = vs
        /\ blockchain vs' = blockchain vs
        /\ voter_manager vs' = voter_manager vs
        /\ pending_votes vs' = pending_votes vs)
    /\ (f = Missing -> o = Failure FILE_NOT_FOUND)
    /\ (f = Unreadable -> o = Failure LOAD_ERROR)
    /\ (forall data e, f = Content data -> from_dict data = Raise e ->
                       o = Failure LOAD_ERROR)
    /\ (forall data loaded,
           f = Content data -> from_dict data = Ok loaded ->
           Blockchain.validate_chain (blockchain loaded) = false ->
           o = Failure INVALID_BLOCKCHAIN).
Proof.
  intros f vs.
  destruct (load_state_spec f vs)
    as [(data & loaded & r & -> & E & Hv & Er & E')|(e & E' & Hf)];
    rewrite E'; cbn [fst snd success].
  - split; [intros _; exists data; auto|].
    split; [discriminate|]. split; [discriminate|]. split; [discriminate|].
    split.
    + intros d e [= <-] H. congruence.
    + intros d l [= <-] H H'. congruence.
  - split; [discriminate|]. split; [auto|].
    split; [intros ->; now subst e|].
    split; [intros ->; now subst e|].
    split.
    + intros d e' -> H. rewrite H in Hf. now subst e.
    + intros d l -> H H'. rewrite H in Hf. destruct Hf as [-> _].
      reflexivity.
Qed.

End Loading.

(* ================================================================== *)
(** * The integrity report *)
(* ================================================================== *)

Section Integrity.

Context {FR : FloatRepr}.

Import VotingSystem.

Lemma voted_snapshot_In (vs : t) (x : str) :
  In x (set_of_list (VoterManager.get_voted_voters (voter_manager vs)))
  <-> In x (voted vs).
Proof.
  rewrite set_of_list_In. unfold VoterManager.get_voted_voters.
  now rewrite sorted_In.
Qed.

Lemma unmarked_In (vs : t) (x : str) :
  In x (set_diff (set_of_list (sealed_voters vs))
                 (set_of_list (VoterManager.get_voted_voters
                                 (voter_manager vs))))
  <-> In x (sealed_voters vs) /\ ~ In x (voted vs).
Proof. now rewrite set_diff_In, voted_snapshot_In, set_of_list_In. Qed.

Lemma extra_In (vs : t) (x : str) :
  In x (set_diff (set_of_list (VoterManager.get_voted_voters
                                 (voter_manager vs)))
                 (set_union (set_of_list (sealed_voters vs))
                            (set_of_list (pending_voters vs))))
  <-> In x (voted vs) /\ ~ In x (sealed_voters vs)
      /\ ~ In x (pending_voters vs).
Proof.
  rewrite set_diff_In, voted_snapshot_In, set_union_In, !set_of_list_In.
  intuition.
Qed.

Lemma issue_list_unmarked (u e : strset) (x : str) :
  (exists s, In (UnmarkedVoters s) (issue_list u e) /\ In x s) <-> In x u.
Proof.
  unfold issue_list. split.
  - intros (s' & Hs & Hx).
    destruct u as [|u0 u], e as [|e0 e]; simpl in Hs;
      intuition (try discriminate);
      match goal with
      | H : _ = _ |- _ => injection H as <-
      end; assumption.
  - intros Hx. exists u. split; [|assumption].
    destruct u as [|u0 u]; [destruct Hx|].
    destruct e; simpl; auto.
Qed.

Lemma issue_list_extra (u e : strset) (x : str) :
  (exists s, In (ExtraVotedVoters s) (issue_list u e) /\ In x s) <-> In x e.
Proof.
  unfold issue_list. split.
  - intros (s' & Hs & Hx).
    destruct u as [|u0 u], e as [|e0 e]; simpl in Hs;
      intuition (try discriminate);
      match goal with
      | H : _ = _ |- _ => injection H as <-
      end; assumption.
  - intros Hx. exists e. split; [|assumption].
    destruct e as [|e0 e]; [destruct Hx|].
    destruct u; simpl; auto.
Qed.

Lemma issue_list_nil (u e : strset) :
  issue_list u e = [] <-> u = [] /\ e = [].
Proof.
  unfold issue_list.
  destruct u as [|u0 u], e as [|e0 e]; simpl; split;
    try discriminate; intuition discriminate.
Qed.

Lemma length_eqb_0 {A} (l : list A) :
  Nat.eqb (List.length l) 0 = true <-> l = [].
Proof. destruct l; simpl; split; congruence. Qed.

Lemma nil_iff_no_member (l : strset) : l = [] <-> forall x, ~ In x l.
Proof.
  split; [intros -> x []|]. destruct l as [|y l]; [reflexivity|].
  intros H. exfalso. apply (H y). now left.
Qed.

(** C6 — What [validate_system_integrity] computes. [blockchain_valid]
    is [validate_chain] of the ledger. The issues list (a) every voter
    id of a sealed vote that is not in the voted set and (b) every voter
    id of the voted set with no vote among the sealed and the pending
    ones, and nothing else. [integrity_valid] is true exactly when there
    is no issue, that is when no id falls under (a) or (b); structural
    validity is reported on its own, in [blockchain_valid], and is not
    part of [integrity_valid]. *)
Theorem validate_system_integrity_computes :
  forall vs : t,
    exists r : validation,
      validate_system_integrity vs = Success r
      /\ blockchain_valid r = Blockchain.validate_chain (blockchain vs)
      /\ (forall x, reported_unmarked r x
                    <-> In x (sealed_voters vs) /\ ~ In x (voted vs))
      /\ (forall x, reported_extra r x
                    <-> In x (voted vs) /\ ~ In x (sealed_voters vs)
                        /\ ~ In x (pending_voters vs))
      /\ (integrity_valid r = true <-> issues r = [])
      /\ (issues r = []
          <-> forall x, ~ (In x (sealed_voters vs) /\ ~ In x (voted vs))
                        /\ ~ (In x (voted vs) /\ ~ In x (sealed_voters vs)
                              /\ ~ In x (pending_voters vs))).
Proof.
  intros vs. eexists. split; [reflexivity|].
  cbn [blockchain_valid integrity_valid issues].
  fold (sealed_voters vs). fold (pending_voters vs).
  pose proof (unmarked_In vs) as Hu. pose proof (extra_In vs) as He.
  set (u := set_diff (set_of_list (sealed_voters vs)) _) in *.
  set (e := set_diff _ (set_union _ _)) in *.
  unfold reported_unmarked, reported_extra. cbn [issues].
  change (match e with
          | [] => match u with [] => [] | _ :: _ => [UnmarkedVoters u] end
          | _ :: _ =>
              match u with [] => [] | _ :: _ => [UnmarkedVoters u] end
                ++ [ExtraVotedVoters e]
          end) with (issue_list u e).
  split; [reflexivity|].
  split; [intros x; now rewrite issue_list_unmarked|].
  split; [intros x; now rewrite issue_list_extra|].
  split; [apply length_eqb_0|].
  rewrite issue_list_nil, !nil_iff_no_member. split.
  - intros [H1 H2] x. rewrite <- Hu, <- He. auto.
  - intros H. split; intros x.
    + rewrite Hu. apply H.
    + rewrite He. apply H.
Qed.

End Integrity.

(* ================================================================== *)
(** * [to_dict] and [from_dict] *)
(* ================================================================== *)

Section RoundTrip.

Context {FR : FloatRepr}.

Lemma mapM_map {A B} (f : A -> result B) (g : B -> A) (l : list B) :
  Forall (fun b => f (g b) = Ok b) l -> mapM f (List.map g l) = Ok l.
Proof.
  induction 1 as [|b l Hb _ IH]; simpl; [reflexivity|].
  now rewrite Hb, IH.
Qed.

Lemma as_integer_to_value (i : integer) :
  as_integer (integer_to_value i) = Some i.
Proof. destruct i; reflexivity. Qed.

Lemma as_number_to_value (n : number) :
  as_number (number_to_value n) = Some n.
Proof. destruct n as [[z|b]|f]; reflexivity. Qed.

Lemma Vote_round_trip (v : Vote.t) :
  wf_vote v -> Vote.from_dict (Vote.to_dict v) = Ok v.
Proof.
  destruct v as [s c ts]. intros (Hs & Hc & Hts). simpl in *.
  unfold Vote.from_dict, Vote.to_dict. simpl.
  unfold Vote.new. simpl.
  destruct s; [contradiction|]. destruct c; [contradiction|]. simpl.
  now rewrite as_number_to_value, Hts.
Qed.

Lemma votes_round_trip (l : list Vote.t) :
  Forall wf_vote l ->
  mapM Vote.from_dict (List.map Vote.to_dict l) = Ok l.
Proof.
  intros H. apply mapM_map.
  eapply Forall_impl; [|exact H]. apply Vote_round_trip.
Qed.

Lemma Block_round_trip (b : Block.t) :
  wf_block b -> Block.from_dict (Block.to_dict b) = Ok b.
Proof.
  destruct b as [i ts votes ph h]. intros (Hi & Hts & Hvotes & Hh).
  simpl in *.
  unfold Block.from_dict, Block.to_dict.
  cbn [Block.index Block.timestamp Block.votes Block.previous_hash
       Block.hash].
  change (negb (forallb _ Block.required_keys)) with false.
  cbv iota.
  change (lookup (lit "index") _) with (Some (integer_to_value i)).
  change (lookup (lit "timestamp") _) with (Some (number_to_value ts)).
  change (lookup (lit "votes") _)
    with (Some (VList (List.map Vote.to_dict votes))).
  change (lookup (lit "previous_hash") _) with (Some (VStr ph)).
  change (lookup (lit "hash") _) with (Some h).
  cbv iota. cbn [Block.iterate Py.bind].
  rewrite votes_round_trip by assumption. cbn [Py.bind].
  unfold Block.new. rewrite as_integer_to_value, as_number_to_value.
  destruct (Z.ltb_spec (integer_value i) 0); [lia|].
  now rewrite Hts, Hh.
Qed.

Lemma Blockchain_round_trip (bc : Blockchain.t) :
  Forall wf_block (Blockchain.chain bc) ->
  Blockchain.from_dict (Blockchain.to_dict bc) = Ok bc.
Proof.
  destruct bc as [chain]. intros H. simpl in H.
  unfold Blockchain.from_dict, Blockchain.to_dict.
  cbn [Blockchain.chain].
  change (lookup (lit "chain") _)
    with (Some (VList (List.map Block.to_dict chain))).
  cbv iota. cbn [Block.iterate Py.bind].
  rewrite (mapM_map Block.from_dict Block.to_dict chain).
  - reflexivity.
  - eapply Forall_impl; [|exact H]. apply Block_round_trip.
Qed.

Lemma load_registered_round_trip (l : list str) :
  forall acc : strset,
    NoDup (acc ++ l) -> Forall (fun s => s <> []) l ->
    VoterManager.load_registered (List.map VStr l) acc = Ok (acc ++ l).
Proof.
  induction l as [|x l IH]; intros acc Hnd Hne; simpl.
  - now rewrite app_nil_r.
  - inversion Hne as [|? ? Hx Hl]; subst.
    destruct x as [|c x]; [contradiction|]. simpl.
    assert (Hm : set_mem (c :: x) acc = false).
    { apply set_mem_notin. intros Hin.
      apply NoDup_remove_2 in Hnd. apply Hnd.
      apply in_app_iff. now left. }
    unfold set_add. rewrite Hm.
    rewrite IH; [now rewrite <- app_assoc| |assumption].
    now rewrite <- app_assoc.
Qed.

Lemma load_voted_round_trip (reg : strset) (l : list str) :
  forall acc : strset,
    NoDup (acc ++ l) -> Forall (fun s => s <> []) l -> incl l reg ->
    VoterManager.load_voted (List.map VStr l) reg acc = Ok (acc ++ l).
Proof.
  induction l as [|x l IH]; intros acc Hnd Hne Hin; simpl.
  - now rewrite app_nil_r.
  - inversion Hne as [|? ? Hx Hl]; subst.
    destruct x as [|c x]; [contradiction|]. simpl.
    assert (Hr : set_mem (c :: x) reg = true).
    { apply set_mem_In, Hin. now left. }
    rewrite Hr. simpl.
    assert (Hm : set_mem (c :: x) acc = false).
    { apply set_mem_notin. intros Hin'.
      apply NoDup_remove_2 in Hnd. apply Hnd.
      apply in_app_iff. now left. }
    unfold set_add. rewrite Hm.
    rewrite IH; [now rewrite <- app_assoc| |assumption|].
    + now rewrite <- app_assoc.
    + intros y Hy. apply Hin. now right.
Qed.

Lemma VoterManager_round_trip (vm : VoterManager.t) :
  wf_registry vm -> VoterManager.from_dict (VoterManager.to_dict vm) = Ok vm.
Proof.
  destruct vm as [reg vo]. intros (Hnr & Hnv & Hne & Hin). simpl in *.
  unfold VoterManager.from_dict, VoterManager.to_dict, set_to_list.
  cbn [VoterManager.registered_voters VoterManager.voted_voters].
  change (negb (forallb _ VoterManager.required_keys)) with false.
  cbv iota.
  change (lookup (lit "registered_voters") _)
    with (Some (VList (List.map VStr reg))).
  change (lookup (lit "voted_voters") _)
    with (Some (VList (List.map VStr vo))).
  cbv iota.
  rewrite (load_registered_round_trip reg set_empty) by assumption.
  cbn [Py.bind app set_empty].
  rewrite (load_voted_round_trip reg vo set_empty); try assumption.
  - reflexivity.
  - apply Forall_forall. intros x Hx. rewrite Forall_forall in Hne. auto.
Qed.

Lemma VotingSystem_round_trip (vs : VotingSystem.t) :
  wf_state vs -> VotingSystem.from_dict (VotingSystem.to_dict vs) = Ok vs.
Proof.
  destruct vs as [bc vm pending]. intros (Hc & Hvm & Hp).
  cbn [VotingSystem.blockchain VotingSystem.voter_manager
       VotingSystem.pending_votes] in Hc, Hvm, Hp.
  change (VotingSystem.from_dict
            (VotingSystem.to_dict (VotingSystem.Make bc vm pending)))
    with (bc0 <- Blockchain.from_dict (Blockchain.to_dict bc) ;;
          vm0 <- VoterManager.from_dict (VoterManager.to_dict vm) ;;
          vote_data <- Block.iterate (VList (List.map Vote.to_dict pending)) ;;
          pending0 <- mapM Vote.from_dict vote_data ;;
          Ok (VotingSystem.Make bc0 vm0 pending0)).
  rewrite Blockchain_round_trip by assumption. cbn [Py.bind].
  rewrite VoterManager_round_trip by assumption. cbn [Py.bind Block.iterate].
  rewrite votes_round_trip by assumption. reflexivity.
Qed.

End RoundTrip.

(* ================================================================== *)
(** * The statements at concrete inputs *)
(* ================================================================== *)

Section ExampleFacts.

Import VotingSystem Run Examples.

#[local] Existing Instance exact_float_repr.

Lemma fresh_init : init now1 = Ok fresh.
Proof. vm_compute. reflexivity. Qed.

Lemma fresh_reachable : reachable fresh.
Proof. apply (reach_init now1), fresh_init. Qed.

Lemma run_reachable (ops : list op) :
  forall vs, reachable vs -> reachable (run ops vs).
Proof.
  induction ops as [|o ops IH]; intros vs H; simpl; [assumption|].
  apply IH. now apply reach_step.
Qed.

Lemma sealed1_valid :
  Blockchain.validate_chain (blockchain sealed1) = true.
Proof. vm_compute. reflexivity. Qed.

End ExampleFacts.

Section Witnesses.

Import VotingSystem Run Examples.

#[local] Existing Instance exact_float_repr.

(** C1 at a concrete run: Alice registers on a fresh coordinator, Bob
    registers, Alice votes; every later vote of hers is refused. *)
Lemma one_vote_enforcement_witness :
  reachable fresh
  /\ register_voter alice fresh = (run [Register alice] fresh, Success alice)
  /\ nonempty_str candidate_a = true
  /\ float_le0 now2 = false
  /\ exists vs3 receipt,
      cast_vote now2 alice candidate_a registered2 = (vs3, Success receipt)
      /\ forall after now' candidate',
          cast_vote now' alice candidate' (run after vs3)
          = (run after vs3, Failure ALREADY_VOTED).
Proof.
  assert (H1 : reachable fresh) by exact fresh_reachable.
  assert (H2 : register_voter alice fresh
               = (run [Register alice] fresh, Success alice))
    by (vm_compute; reflexivity).
  assert (H3 : Forall (fun o => ~ casts_for alice o) [Register bob])
    by (constructor; [intros []|constructor]).
  assert (H4 : nonempty_str candidate_a = true) by reflexivity.
  assert (H5 : float_le0 now2 = false) by (vm_compute; reflexivity).
  do 4 (split; [assumption|]).
  destruct (one_vote_enforcement
              fresh (run [Register alice] fresh) alice candidate_a alice
              [Register bob] now2 H1 H2 H3 H4 H5)
    as (vs3 & receipt & Hcast & _ & Hafter).
  exists vs3, receipt. split; [exact Hcast|].
  intros after now' candidate'. apply Hafter.
Defined.

(** C10 at a concrete state: Alice, registered, votes for the empty
    string, then for "A". *)
Lemma cast_vote_invalid_candidate_witness :
  VoterManager.is_registered alice (voter_manager registered2) = true
  /\ VoterManager.has_voted alice (voter_manager registered2) = false
  /\ nonempty_str (VStr []) = false
  /\ cast_vote now2 alice (VStr []) registered2
     = (registered2, Failure INVALID_VOTE_DATA).
Proof.
  assert (H1 : VoterManager.is_registered alice (voter_manager registered2)
               = true) by (vm_compute; reflexivity).
  assert (H2 : VoterManager.has_voted alice (voter_manager registered2)
               = false) by (vm_compute; reflexivity).
  assert (H3 : nonempty_str (VStr []) = false) by reflexivity.
  do 3 (split; [assumption|]).
  apply (cast_vote_invalid_candidate_mutates_nothing
           registered2 alice (VStr []) now2 H1 H2 H3).
Defined.

(** C5 at a concrete state: one vote staged, then sealed. *)
Lemma seal_block_witness :
  pending_votes voted1 <> []
  /\ pending_votes (fst (create_block_from_pending_votes now3 voted1)) = []
  /\ Blockchain.get_block_count
       (blockchain (fst (create_block_from_pending_votes now3 voted1)))
     = 2%nat.
Proof.
  assert (H1 : pending_votes voted1 <> []) by (vm_compute; discriminate).
  split; [assumption|].
  destruct (seal_block_all_or_nothing now3 voted1) as (_ & _ & H).
  destruct (H H1) as [(_ & _ & (b & Hb & _) & Hp & _)|(Hf & _)].
  - split; [exact Hp|].
    unfold Blockchain.get_block_count. rewrite Hb, length_app.
    reflexivity.
  - exfalso. revert Hf. vm_compute. discriminate.
Defined.

(** C2 at a concrete ledger: the block that seals Alice's vote. *)
Lemma chain_linkage_witness :
  Blockchain.add_block now3 (votes_object (pending_votes voted1))
                       (blockchain voted1)
  = (blockchain sealed1, true)
  /\ Blockchain.init now1 = Ok (blockchain fresh)
  /\ add_blocks [(now3, pending_votes voted1)] (blockchain fresh)
     = Some (blockchain sealed1)
  /\ (exists latest b,
         Blockchain.get_latest_block (blockchain voted1) = Ok latest
         /\ Blockchain.get_latest_block (blockchain sealed1) = Ok b
         /\ Block.index b = IInt (integer_value (Block.index latest) + 1)
         /\ VStr (Block.previous_hash b) = Block.hash latest)
  /\ Blockchain.validate_chain (blockchain sealed1) = true.
Proof.
  assert (H1 : Blockchain.add_block now3
                                    (votes_object (pending_votes voted1))
                                    (blockchain voted1)
               = (blockchain sealed1, true)) by (vm_compute; reflexivity).
  assert (H2 : Blockchain.init now1 = Ok (blockchain fresh))
    by (vm_compute; reflexivity).
  assert (H3 : add_blocks [(now3, pending_votes voted1)] (blockchain fresh)
               = Some (blockchain sealed1)) by (vm_compute; reflexivity).
  do 3 (split; [assumption|]). split.
  - destruct chain_linkage as [Hstep _].
    destruct (Hstep _ _ _ _ H1) as (latest & b & E1 & _ & E2 & Hi & Hp & _).
    exists latest, b. auto.
  - destruct chain_linkage as [_ Hvalid].
    exact (Hvalid now1 _ _ _ H2 H3).
Defined.

(** C3 at a concrete ledger: the second block of [sealed1]. *)
Lemma tamper_detection_witness :
  Blockchain.validate_chain (blockchain sealed1) = true
  /\ (2 <= List.length (Blockchain.chain (blockchain sealed1)))%nat
  /\ nth_error (Blockchain.chain (blockchain sealed1)) 1 = Some block1
  /\ (let b := block1 in
      (forall h, h <> Block.hash b ->
                    Blockchain.validate_chain
                      (Tamper.tamper 1 (Tamper.set_hash h)
                                     (blockchain sealed1)) = false)
      /\ (forall h, h <> Block.previous_hash b ->
                    Blockchain.validate_chain
                      (Tamper.tamper 1 (Tamper.set_previous_hash h)
                                     (blockchain sealed1)) = false)
      /\ (forall z, integer_value z <> integer_value (Block.index b) ->
                    Blockchain.validate_chain
                      (Tamper.tamper 1 (Tamper.set_index z)
                                     (blockchain sealed1)) = false)).
Proof.
  assert (H1 : Blockchain.validate_chain (blockchain sealed1) = true)
    by exact sealed1_valid.
  assert (H2 : (2 <= List.length (Blockchain.chain (blockchain sealed1)))%nat)
    by (vm_compute; lia).
  assert (H3 : nth_error (Blockchain.chain (blockchain sealed1)) 1
               = Some block1) by (vm_compute; reflexivity).
  do 3 (split; [assumption|]).
  exact (tamper_detection (blockchain sealed1) 1 block1 H1 H2 H3).
Defined.

(** [load_state] at documents with an [int] timestamp: with the hash of
    the content as stored hash, or with a blank one, which the constructor
    fills in, the document is loaded; with a stored hash that is a number
    the ledger is decoded and found invalid. *)
Lemma load_state_int_timestamp :
  load_state
    (Content (int_timestamp_document
                (VStr (Block.digest (IInt 0) (NInteger (IInt 1700000000)) []
                                    (lit "0"))))) voted1
  = (int_timestamp_state, validate_system_integrity int_timestamp_state)
  /\ load_state (Content (int_timestamp_document (VStr []))) voted1
     = (int_timestamp_state, validate_system_integrity int_timestamp_state)
  /\ load_state (Content (int_timestamp_document (VInt 12345))) voted1
     = (voted1, Failure INVALID_BLOCKCHAIN).
Proof. repeat split; vm_compute; reflexivity. Qed.

(** C9 at a concrete document: a ledger without a genesis block is
    refused and the coordinator keeps its state. *)
Lemma load_state_witness :
  success (snd (load_state (Content empty_ledger_document) voted1)) = false
  /\ fst (load_state (Content empty_ledger_document) voted1) = voted1.
Proof.
  assert (H1 : success (snd (load_state (Content empty_ledger_document)
                                        voted1)) = false)
    by (vm_compute; reflexivity).
  split; [assumption|].
  destruct (load_state_all_or_nothing (Content empty_ledger_document) voted1)
    as (_ & H & _).
  exact (proj1 (H H1)).
Defined.

(** C6 at a concrete state: the report of [sealed1]. *)
Lemma validate_system_integrity_witness :
  exists r,
    validate_system_integrity sealed1 = Success r
    /\ blockchain_valid r
       = Blockchain.validate_chain (blockchain sealed1)
    /\ (integrity_valid r = true <-> issues r = []).
Proof.
  destruct (validate_system_integrity_computes sealed1)
    as (r & E & Hb & _ & _ & Hi & _).
  exists r. auto.
Defined.

(** C6, the claim as it is written, fails: on the state that [from_dict]
    builds from a document with an empty ledger there is no issue and
    [integrity_valid] is true, yet the ledger is not valid, so
    [integrity_valid] is not the conjunction of structural validity and
    the absence of issues. *)
Lemma integrity_valid_ignores_ledger :
  from_dict empty_ledger_document = Ok empty_ledger
  /\ exists r,
      validate_system_integrity empty_ledger = Success r
      /\ blockchain_valid r = false
      /\ issues r = []
      /\ integrity_valid r = true
      /\ integrity_valid r
         <> (blockchain_valid r && Nat.eqb (List.length (issues r)) 0).
Proof.
  split; [vm_compute; reflexivity|].
  eexists. split; [reflexivity|]. vm_compute.
  repeat split; discriminate.
Qed.

End Witnesses.

Section Canonical.

Import VotingSystem Run Examples.

#[local] Existing Instance exact_float_repr.

(** C8 — Canonical serialization, which the code misses. [to_dict] of
    the registry lists the two sets in iteration order, where
    [get_registered_voters] and [get_voted_voters] sort. Two reachable
    coordinators with the same ledger, the same registered ids, the same
    voted ids and the same pending votes, whose sets iterate in different
    orders, are written by [save_state] as different texts. *)
Theorem save_state_depends_on_set_order :
  reachable registered2 /\ reachable registered2'
  /\ blockchain registered2 = blockchain registered2'
  /\ pending_votes registered2 = pending_votes registered2'
  /\ get_registered_voters registered2 = get_registered_voters registered2'
  /\ get_voted_voters registered2 = get_voted_voters registered2'
  /\ (forall x, In x (registered registered2)
                <-> In x (registered registered2'))
  /\ VoterManager.to_dict (voter_manager registered2)
     <> VoterManager.to_dict (voter_manager registered2')
  /\ save_state_text registered2 <> save_state_text registered2'.
Proof.
  split; [apply run_reachable, fresh_reachable|].
  split; [apply run_reachable, fresh_reachable|].
  split; [vm_compute; reflexivity|].
  split; [vm_compute; reflexivity|].
  split; [vm_compute; reflexivity|].
  split; [vm_compute; reflexivity|].
  split.
  { intros x. vm_compute. tauto. }
  split.
  - vm_compute. discriminate.
  - apply str_eqb_neq. vm_compute. reflexivity.
Qed.

End Canonical.

(* ================================================================== *)
(** * The canonical encoding loses nothing *)
(* ================================================================== *)

(** ** Reading back an escaped string *)

Section Escaping.

Import Json Unescape.
Local Open Scope N_scope.

Local Ltac Zify.zify_post_hook ::= Z.to_euclidean_division_equations.

Lemma unhexdigit_hexdigit (d : N) :
  d < 16 -> unhexdigit (Sha256.hexdigit d) = d.
Proof.
  intros H. unfold unhexdigit, Sha256.hexdigit.
  destruct (N.ltb_spec d 10).
  - replace ((48 <=? 48 + d) && (48 + d <=? 57)) with true; [lia|].
    symmetry. apply andb_true_iff. split; apply N.leb_le; lia.
  - replace ((48 <=? 87 + d) && (87 + d <=? 57)) with false; [lia|].
    symmetry. apply andb_false_iff. right. apply N.leb_gt. lia.
Qed.

Lemma hex_nibble_spec (n i : N) :
  Sha256.hex_nibble n i = Sha256.hexdigit ((n / 2 ^ (4 * i)) mod 16).
Proof.
  unfold Sha256.hex_nibble. change 0xF with (N.ones 4).
  now rewrite N.land_ones, N.shiftr_div_pow2.
Qed.

Lemma unhex4_hex4 (n : N) (rest : str) :
  n < 65536 ->
  exists a b c d,
    hex4 n = [a; b; c; d] /\ unhex4 a b c d = n.
Proof.
  intros H. unfold hex4. do 4 eexists. split; [reflexivity|].
  unfold unhex4. rewrite !hex_nibble_spec.
  rewrite !unhexdigit_hexdigit by (apply N.mod_lt; discriminate).
  change (2 ^ (4 * 3)) with (16 * 16 * 16).
  change (2 ^ (4 * 2)) with (16 * 16).
  change (2 ^ (4 * 1)) with 16.
  change (2 ^ (4 * 0)) with 1.
  rewrite <- !N.Div0.div_div. rewrite N.div_1_r. lia.
Qed.

Lemma land_shiftl_low (a k v : N) :
  v < 2 ^ k -> N.land (N.shiftl a k) v = 0.
Proof.
  intros H. apply N.bits_inj. intros i. rewrite N.land_spec, N.bits_0.
  destruct (N.lt_ge_cases i k).
  - now rewrite N.shiftl_spec_low.
  - rewrite andb_comm. replace (N.testbit v i) with false; [reflexivity|].
    destruct (N.eq_dec v 0) as [->|Hv]; [now rewrite N.bits_0|].
    symmetry. apply N.bits_above_log2. apply N.log2_lt_pow2 in H; lia.
Qed.

Lemma lor_shiftl_low (a k v : N) :
  v < 2 ^ k -> N.lor (N.shiftl a k) v = N.shiftl a k + v.
Proof.
  intros H. rewrite <- N.lxor_lor by now apply land_shiftl_low.
  symmetry. apply N.add_nocarry_lxor. now apply land_shiftl_low.
Qed.

(** The two halves of a surrogate pair, in arithmetic. *)
Lemma high_surrogate_spec (n : N) :
  N.lor 0xd800 (N.land (N.shiftr n 10) 0x3ff) = 0xd800 + (n / 1024) mod 1024.
Proof.
  change 0x3ff with (N.ones 10). rewrite N.land_ones, N.shiftr_div_pow2.
  change 0xd800 with (N.shiftl 54 10).
  apply lor_shiftl_low. apply N.mod_lt. discriminate.
Qed.

Lemma low_surrogate_spec (n : N) :
  N.lor 0xdc00 (N.land n 0x3ff) = 0xdc00 + n mod 1024.
Proof.
  change 0x3ff with (N.ones 10). rewrite N.land_ones.
  change 0xdc00 with (N.shiftl 55 10).
  apply lor_shiftl_low. apply N.mod_lt. discriminate.
Qed.

(** Reading gives back the code point that was escaped, and the rest. *)
Lemma read_escape_char (c : codepoint) (rest : str) :
  scalar_value c = true ->
  read_char (escape_char c ++ rest) = Some (c, rest).
Proof.
  intros Hc. unfold escape_char.
  destruct (N.eqb_spec c backslash) as [->|Hbs]; [reflexivity|].
  destruct (N.eqb_spec c quote) as [->|Hq]; [reflexivity|].
  destruct (N.eqb_spec c 8) as [->|H8]; [reflexivity|].
  destruct (N.eqb_spec c 12) as [->|H12]; [reflexivity|].
  destruct (N.eqb_spec c 10) as [->|H10]; [reflexivity|].
  destruct (N.eqb_spec c 13) as [->|H13]; [reflexivity|].
  destruct (N.eqb_spec c 9) as [->|H9]; [reflexivity|].
  destruct ((32 <=? c) && (c <=? 126)) eqn:Hp.
  - cbn [app read_char].
    apply N.eqb_neq in Hbs, Hq. now rewrite Hq, Hbs.
  - unfold scalar_value in Hc.
    destruct (N.ltb_spec c 0x10000) as [Hlt|Hge].
    + destruct (unhex4_hex4 c rest Hlt) as (a & b & x & d & E & Hv).
      unfold u_escape. rewrite E. cbn [app read_char].
      change (backslash =? quote) with false.
      change (backslash =? backslash) with true.
      change (117 =? 117) with true. cbv iota. cbv zeta.
      rewrite Hv.
      assert (Hs : is_high_surrogate c = false).
      { unfold is_high_surrogate.
        apply orb_true_iff in Hc as [Hc|Hc].
        - apply N.ltb_lt in Hc. apply andb_false_iff. left.
          apply N.leb_gt. lia.
        - apply andb_true_iff in Hc as [Hc _]. apply N.leb_le in Hc.
          apply andb_false_iff. right. apply N.ltb_ge. lia. }
      now rewrite Hs.
    + assert (Hmax : c < 0x110000).
      { apply orb_true_iff in Hc as [Hc|Hc].
        - apply N.ltb_lt in Hc. lia.
        - apply andb_true_iff in Hc as [_ Hc]. now apply N.ltb_lt in Hc. }
      cbv zeta. rewrite high_surrogate_spec, low_surrogate_spec.
      set (n := c - 0x10000).
      assert (Hn : n < 1048576) by (unfold n; lia).
      assert (H1 : 0xd800 + (n / 1024) mod 1024 < 65536) by lia.
      assert (H2 : 0xdc00 + n mod 1024 < 65536) by lia.
      destruct (unhex4_hex4 _ rest H1) as (a1 & b1 & c1 & d1 & E1 & Hv1).
      destruct (unhex4_hex4 _ rest H2) as (a2 & b2 & c2 & d2 & E2 & Hv2).
      unfold u_escape. rewrite E1, E2. cbn [app read_char].
      change (backslash =? quote) with false.
      change (backslash =? backslash) with true.
      change (117 =? 117) with true. cbv iota. cbv zeta.
      rewrite Hv1, Hv2.
      assert (Hs : is_high_surrogate (0xd800 + (n / 1024) mod 1024) = true).
      { unfold is_high_surrogate. apply andb_true_iff. split.
        - apply N.leb_le. lia.
        - apply N.ltb_lt. lia. }
      rewrite Hs. f_equal. f_equal. unfold n. lia.
Qed.

Lemma read_char_quote (rest : str) : read_char (quote :: rest) = None.
Proof. reflexivity. Qed.

(** An escaped text followed by the closing quote determines the text
    and what follows the quote. *)
Lemma escape_delimited (s1 : str) :
  forall (s2 r1 r2 : str),
    text s1 -> text s2 ->
    escape s1 ++ quote :: r1 = escape s2 ++ quote :: r2 ->
    s1 = s2 /\ r1 = r2.
Proof.
  unfold escape.
  induction s1 as [|c1 s1 IH]; intros [|c2 s2] r1 r2 H1 H2 E;
    cbn [flat_map app] in E.
  - now injection E as <-.
  - exfalso. apply (f_equal read_char) in E.
    inversion H2; subst. rewrite <- app_assoc in E.
    rewrite read_char_quote, read_escape_char in E by assumption.
    discriminate.
  - exfalso. apply (f_equal read_char) in E.
    inversion H1; subst. rewrite <- app_assoc in E.
    rewrite read_char_quote, read_escape_char in E by assumption.
    discriminate.
  - inversion H1; subst. inversion H2; subst.
    apply (f_equal read_char) in E. rewrite <- !app_assoc in E.
    rewrite !read_escape_char in E by assumption.
    injection E as -> E. apply IH in E as [-> ->]; auto.
Qed.

End Escaping.

(** ** Numbers *)

Section Numbers.

Import Json.

Lemma lit_inj (a b : string) : lit a = lit b -> a = b.
Proof.
  unfold lit. intros H.
  rewrite <- (string_of_list_ascii_of_string a),
          <- (string_of_list_ascii_of_string b).
  f_equal. revert H.
  generalize (list_ascii_of_string a), (list_ascii_of_string b).
  induction l as [|x l IH]; intros [|y l']; simpl; try discriminate;
    [reflexivity|].
  intros [= Hx Hl]. f_equal; [|now apply IH].
  rewrite <- (ascii_N_embedding x), <- (ascii_N_embedding y). now f_equal.
Qed.

Lemma int_repr_inj (a b : Z) : int_repr a = int_repr b -> a = b.
Proof.
  unfold int_repr. intros H. apply lit_inj in H.
  apply DecimalZ.to_int_inj.
  pose proof (DecimalString.NilEmpty.isi (Z.to_int a)) as Ha.
  pose proof (DecimalString.NilEmpty.isi (Z.to_int b)) as Hb.
  rewrite H in Ha. congruence.
Qed.

Lemma string_of_uint_chars (d : Decimal.uint) :
  Forall (fun c => int_char c = true)
         (lit (DecimalString.NilEmpty.string_of_uint d)).
Proof.
  induction d; simpl; try constructor; try reflexivity; assumption.
Qed.

Lemma int_repr_int_chars (z : Z) :
  Forall (fun c => int_char c = true) (int_repr z).
Proof.
  unfold int_repr.
  destruct (Z.to_int z) as [d|d]; simpl.
  - apply string_of_uint_chars.
  - constructor; [reflexivity|apply string_of_uint_chars].
Qed.

Lemma int_char_number_char (c : codepoint) :
  int_char c = true -> number_char c = true.
Proof.
  unfold int_char, number_char. intros H.
  apply orb_true_iff in H as [H|H]; rewrite H; simpl;
    rewrite ?orb_true_r; reflexivity.
Qed.

Lemma int_repr_chars (z : Z) :
  Forall (fun c => number_char c = true) (int_repr z).
Proof.
  eapply Forall_impl; [|apply int_repr_int_chars].
  apply int_char_number_char.
Qed.

Lemma number_chars_no_comma (s : str) :
  Forall (fun c => number_char c = true) s ->
  Forall (fun c => c <> comma) s.
Proof.
  apply Forall_impl. intros c H ->. discriminate.
Qed.

(** A text without the character [d] that is followed by [d] ends
    there. *)
Lemma char_delimited (d : codepoint) (x1 : str) :
  forall (x2 r1 r2 : str),
    Forall (fun c => c <> d) x1 -> Forall (fun c => c <> d) x2 ->
    x1 ++ d :: r1 = x2 ++ d :: r2 ->
    x1 = x2 /\ r1 = r2.
Proof.
  induction x1 as [|c1 x1 IH]; intros [|c2 x2] r1 r2 H1 H2 E;
    cbn [app] in E.
  - now injection E as <-.
  - injection E as <- _. inversion H2; subst. contradiction.
  - injection E as -> _. inversion H1; subst. contradiction.
  - injection E as -> E. inversion H1; subst. inversion H2; subst.
    apply IH in E as [-> ->]; auto.
Qed.

Context {FR : FloatRepr} {FRS : FloatReprSpec FR}.

Lemma is_double_cases (x : float) :
  is_double x = true ->
  finite_double x = true
  \/ x = S754_nan \/ x = S754_infinity false \/ x = S754_infinity true.
Proof.
  destruct x as [s|[]| |s m e]; cbn; auto.
Qed.

Lemma floatstr_finite (x : float) :
  finite_double x = true -> floatstr x = float_repr x.
Proof. destruct x; try discriminate; reflexivity. Qed.

Lemma floatstr_chars (x : float) :
  is_double x = true -> Forall (fun c => c <> comma) (floatstr x).
Proof.
  intros H. destruct (is_double_cases x H) as [Hf | [-> | [-> | ->]]].
  - rewrite floatstr_finite by assumption.
    apply number_chars_no_comma, float_repr_chars, Hf.
  - cbn. repeat constructor; discriminate.
  - cbn. repeat constructor; discriminate.
  - cbn. repeat constructor; discriminate.
Qed.

Lemma float_repr_not_special (x : float) (s : str) :
  finite_double x = true ->
  existsb (fun c => negb (number_char c)) s = true ->
  float_repr x <> s.
Proof.
  intros Hx Hs E. pose proof (float_repr_chars x Hx) as Hc. rewrite E in Hc.
  apply existsb_exists in Hs as (c & Hin & Hn).
  rewrite Forall_forall in Hc. rewrite (Hc c Hin) in Hn. discriminate.
Qed.

Lemma floatstr_inj (x y : float) :
  is_double x = true -> is_double y = true ->
  floatstr x = floatstr y -> x = y.
Proof.
  intros Hx Hy E.
  destruct (is_double_cases x Hx) as [Fx | [-> | [-> | ->]]];
    destruct (is_double_cases y Hy) as [Fy | [-> | [-> | ->]]];
    try reflexivity;
    try rewrite (floatstr_finite x Fx) in E;
    try rewrite (floatstr_finite y Fy) in E;
    try (cbn in E; discriminate E);
    try (exfalso; apply (float_repr_not_special _ _ Fx) in E;
         [exact E|reflexivity]);
    try (exfalso; symmetry in E;
         apply (float_repr_not_special _ _ Fy) in E;
         [exact E|reflexivity]).
  now apply float_repr_inj.
Qed.

End Numbers.

(** ** The layout of the hashed text *)

Section Shape.

Import Json Layout.

Context {FR : FloatRepr}.

(** The encoder on a non-empty dict, without [indent]. *)
Lemma encode_dict_compact (n : nat) (kv : str * value)
      (items : list (str * value)) :
  encode compact n (VDict (kv :: items))
  = lit "{" ++
    join (lit ",")
         (List.map (fun kv => encode_basestring_ascii (fst kv)
                                ++ lit ":" ++ snd kv)
            (sort_items
               (List.map (fun kv => (fst kv, encode compact (S n) (snd kv)))
                         (kv :: items))))
    ++ lit "}".
Proof. reflexivity. Qed.

Lemma encode_integer (n : nat) (i : integer) :
  encode compact n (integer_to_value i) = integer_text i.
Proof. destruct i as [z|[|]]; reflexivity. Qed.

Lemma encode_number (n : nat) (x : number) :
  encode compact n (number_to_value x) = number_text x.
Proof. destruct x as [i|f]; [apply encode_integer|reflexivity]. Qed.

Lemma encode_vote (n : nat) (v : Vote.t) :
  encode compact n (Vote.to_dict v) = vote_text v.
Proof.
  destruct v as [s c ts]. unfold vote_text, Vote.to_dict.
  cbn [Vote.voter_id Vote.candidate Vote.timestamp].
  rewrite encode_dict_compact. cbn [List.map fst snd].
  change (encode compact (S n) (VStr s)) with (quote :: escape s ++ [quote]).
  change (encode compact (S n) (VStr c)) with (quote :: escape c ++ [quote]).
  rewrite encode_number.
  generalize (escape s), (escape c), (number_text ts). intros es ec ets.
  cbv -[app]. rewrite <- ?app_assoc. cbn [app]. rewrite <- ?app_assoc.
  reflexivity.
Qed.

Lemma join_votes (n : nat) (rest : list Vote.t) :
  forall v : Vote.t,
    join (lit ",")
         (List.map (encode compact n) (List.map Vote.to_dict (v :: rest)))
      ++ lit "]"
    = vote_text v ++ votes_tail rest.
Proof.
  induction rest as [|v' rest IH]; intros v.
  - cbn [List.map join votes_tail]. now rewrite encode_vote.
  - change (join (lit ",")
              (List.map (encode compact n)
                        (List.map Vote.to_dict (v :: v' :: rest))))
      with (encode compact n (Vote.to_dict v) ++ lit ","
              ++ join (lit ",")
                   (List.map (encode compact n)
                             (List.map Vote.to_dict (v' :: rest)))).
    rewrite <- !app_assoc, IH, encode_vote. reflexivity.
Qed.

Lemma encode_votes (n : nat) (votes : list Vote.t) :
  encode compact n (VList (List.map Vote.to_dict votes)) = votes_text votes.
Proof.
  destruct votes as [|v rest]; [reflexivity|].
  change (encode compact n (VList (List.map Vote.to_dict (v :: rest))))
    with (lit "[" ++
          join (lit ",")
            (List.map (encode compact (S n))
                      (List.map Vote.to_dict (v :: rest)))
          ++ lit "]").
  now rewrite join_votes.
Qed.

(** The text that [calculate_hash] hashes, laid out. *)
Lemma block_string_text (i : integer) (ts : number) (votes : list Vote.t)
      (ph : str) :
  Block.block_string i ts votes ph = block_text i ts votes ph.
Proof.
  unfold Block.block_string, dumps, Block.block_data, block_text.
  fold compact. rewrite encode_dict_compact. cbn [List.map fst snd].
  rewrite encode_votes, encode_integer, encode_number.
  change (encode compact 1 (VStr ph)) with (quote :: escape ph ++ [quote]).
  generalize (escape ph), (integer_text i), (number_text ts),
    (votes_text votes).
  intros eph ei ets evs.
  cbv -[app]. rewrite <- ?app_assoc. cbn [app]. rewrite <- ?app_assoc.
  reflexivity.
Qed.

End Shape.

(** ** Different fields, different text *)

Section Injective.

Import Json Unescape Layout.

Context {FR : FloatRepr} {FRS : FloatReprSpec FR}.

Ltac push_app H :=
  repeat (rewrite <- app_assoc in H || rewrite <- app_comm_cons in H).

(** The layout is one to one on every class of numbers on which the
    text of a number is: [oki] for the index, [okn] for the timestamps. *)
Section Classes.

Variable oki : integer -> Prop.
Variable okn : number -> Prop.

Hypothesis oki_inj :
  forall x y, oki x -> oki y -> integer_text x = integer_text y -> x = y.
Hypothesis oki_chars :
  forall x, oki x -> Forall (fun c => c <> comma) (integer_text x).
Hypothesis okn_inj :
  forall x y, okn x -> okn y -> number_text x = number_text y -> x = y.
Hypothesis okn_chars :
  forall x, okn x -> Forall (fun c => c <> comma) (number_text x).

Lemma vote_text_delimited (v1 v2 : Vote.t) (r1 r2 : str) :
  text (Vote.voter_id v1) /\ text (Vote.candidate v1)
  /\ okn (Vote.timestamp v1) ->
  text (Vote.voter_id v2) /\ text (Vote.candidate v2)
  /\ okn (Vote.timestamp v2) ->
  vote_text v1 ++ r1 = vote_text v2 ++ r2 ->
  v1 = v2 /\ r1 = r2.
Proof.
  destruct v1 as [s1 c1 t1], v2 as [s2 c2 t2].
  intros (Hs1 & Hc1 & Ht1) (Hs2 & Hc2 & Ht2) E.
  cbn [Vote.voter_id Vote.candidate Vote.timestamp] in *.
  unfold vote_text in E.
  cbn [Vote.voter_id Vote.candidate Vote.timestamp] in E.
  push_app E.
  apply app_inv_head in E.
  apply escape_delimited in E as [-> E]; try assumption.
  apply app_inv_head in E.
  apply (char_delimited comma) in E as [Ht E];
    try (apply okn_chars; assumption).
  apply okn_inj in Ht; try assumption. subst t2.
  apply app_inv_head in E.
  apply escape_delimited in E as [-> E]; try assumption.
  apply app_inv_head in E. auto.
Qed.

Lemma votes_tail_delimited (l1 : list Vote.t) :
  forall (l2 : list Vote.t) (r1 r2 : str),
    Forall (fun v => text (Vote.voter_id v) /\ text (Vote.candidate v)
                     /\ okn (Vote.timestamp v)) l1 ->
    Forall (fun v => text (Vote.voter_id v) /\ text (Vote.candidate v)
                     /\ okn (Vote.timestamp v)) l2 ->
    votes_tail l1 ++ r1 = votes_tail l2 ++ r2 ->
    l1 = l2 /\ r1 = r2.
Proof.
  induction l1 as [|v1 l1 IH]; intros [|v2 l2] r1 r2 H1 H2 E;
    cbn [votes_tail] in E.
  - apply app_inv_head in E. auto.
  - discriminate E.
  - discriminate E.
  - push_app E. apply (f_equal (@tl _)) in E. cbn [tl] in E.
    inversion H1; subst. inversion H2; subst.
    apply vote_text_delimited in E as [-> E]; try assumption.
    apply IH in E as [-> ->]; auto.
Qed.

Lemma vote_text_head (v : Vote.t) : exists t, vote_text v = 123%N :: t.
Proof. eexists. reflexivity. Qed.

Lemma votes_text_delimited (l1 l2 : list Vote.t) (r1 r2 : str) :
  Forall (fun v => text (Vote.voter_id v) /\ text (Vote.candidate v)
                   /\ okn (Vote.timestamp v)) l1 ->
  Forall (fun v => text (Vote.voter_id v) /\ text (Vote.candidate v)
                   /\ okn (Vote.timestamp v)) l2 ->
  votes_text l1 ++ r1 = votes_text l2 ++ r2 ->
  l1 = l2 /\ r1 = r2.
Proof.
  intros H1 H2 E.
  destruct l1 as [|v1 l1], l2 as [|v2 l2]; cbn [votes_text] in E.
  - apply app_inv_head in E. auto.
  - exfalso. destruct (vote_text_head v2) as (t & Ht).
    rewrite Ht in E. discriminate E.
  - exfalso. destruct (vote_text_head v1) as (t & Ht).
    rewrite Ht in E. discriminate E.
  - push_app E. apply app_inv_head in E.
    inversion H1; subst. inversion H2; subst.
    apply vote_text_delimited in E as [-> E]; try assumption.
    apply votes_tail_delimited in E as [-> ->]; auto.
Qed.

Lemma block_text_inj (i1 i2 : integer) (t1 t2 : number)
      (l1 l2 : list Vote.t) (p1 p2 : str) :
  oki i1 -> oki i2 -> okn t1 -> okn t2 ->
  Forall (fun v => text (Vote.voter_id v) /\ text (Vote.candidate v)
                   /\ okn (Vote.timestamp v)) l1 ->
  Forall (fun v => text (Vote.voter_id v) /\ text (Vote.candidate v)
                   /\ okn (Vote.timestamp v)) l2 ->
  text p1 -> text p2 ->
  block_text i1 t1 l1 p1 = block_text i2 t2 l2 p2 ->
  i1 = i2 /\ t1 = t2 /\ l1 = l2 /\ p1 = p2.
Proof.
  intros Hi1 Hi2 Ht1 Ht2 Hl1 Hl2 Hp1 Hp2 E.
  unfold block_text in E.
  apply app_inv_head in E.
  apply (char_delimited comma) in E as [Hi E];
    try (apply oki_chars; assumption).
  apply oki_inj in Hi; try assumption. subst i2.
  apply app_inv_head in E.
  apply escape_delimited in E as [-> E]; try assumption.
  apply app_inv_head in E.
  apply (char_delimited comma) in E as [Ht E];
    try (apply okn_chars; assumption).
  apply okn_inj in Ht; try assumption. subst t2.
  apply app_inv_head in E.
  apply votes_text_delimited in E as [-> _]; auto.
Qed.

End Classes.

(** The numbers of the annotated types: an [int] proper as index, floats
    as timestamps. *)
Lemma int_text_inj (x y : integer) :
  (exists z, x = IInt z) -> (exists z, y = IInt z) ->
  integer_text x = integer_text y -> x = y.
Proof.
  intros [a ->] [b ->] E. cbn [integer_text] in E.
  now apply int_repr_inj in E as ->.
Qed.

Lemma int_text_chars (x : integer) :
  (exists z, x = IInt z) -> Forall (fun c => c <> comma) (integer_text x).
Proof.
  intros [a ->]. apply number_chars_no_comma, int_repr_chars.
Qed.

Lemma float_text_inj (x y : number) :
  float_field x -> float_field y -> number_text x = number_text y -> x = y.
Proof.
  intros (a & -> & Ha) (b & -> & Hb) E. cbn [number_text] in E.
  now apply floatstr_inj in E as ->.
Qed.

Lemma float_text_chars (x : number) :
  float_field x -> Forall (fun c => c <> comma) (number_text x).
Proof. intros (a & -> & Ha). now apply floatstr_chars. Qed.

(** The numbers of all the accepted types. *)
Lemma bool_text_not_int (b : bool) (z : Z) :
  integer_text (IBool b) <> int_repr z.
Proof.
  intros E. pose proof (int_repr_int_chars z) as H. rewrite <- E in H.
  destruct b; inversion H as [|? ? Hc _]; discriminate Hc.
Qed.

Lemma integer_text_inj (x y : integer) :
  integer_text x = integer_text y -> x = y.
Proof.
  destruct x as [a|a], y as [b|b]; intros E.
  - cbn [integer_text] in E. now apply int_repr_inj in E as ->.
  - symmetry in E. now apply bool_text_not_int in E.
  - now apply bool_text_not_int in E.
  - destruct a, b; try reflexivity; discriminate E.
Qed.

Lemma integer_text_chars (x : integer) :
  Forall (fun c => c <> comma) (integer_text x).
Proof.
  destruct x as [a|[|]].
  - apply number_chars_no_comma, int_repr_chars.
  - repeat constructor; discriminate.
  - repeat constructor; discriminate.
Qed.

Lemma integer_text_not_special (x : integer) (s : str) :
  existsb (fun c => negb (int_char c)) s = true ->
  s <> lit "true" -> s <> lit "false" ->
  integer_text x <> s.
Proof.
  intros Hs Ht Hf E. destruct x as [a|[|]].
  - apply existsb_exists in Hs as (c & Hin & Hc).
    apply negb_true_iff in Hc.
    pose proof (int_repr_int_chars a) as H. rewrite Forall_forall in H.
    cbn [integer_text] in E. rewrite <- E in Hin.
    rewrite (H c Hin) in Hc. discriminate.
  - now apply Ht.
  - now apply Hf.
Qed.

Lemma integer_text_not_float (x : integer) (f : float) :
  float_repr_marked FR -> is_double f = true ->
  integer_text x <> floatstr f.
Proof.
  intros Hm Hf E.
  destruct (is_double_cases f Hf) as [Fin | [-> | [-> | ->]]].
  - rewrite floatstr_finite in E by assumption.
    destruct x as [a|b].
    + pose proof (Hm f Fin) as Hex. apply Exists_exists in Hex as (c & Hin & Hc).
      pose proof (int_repr_int_chars a) as H. rewrite Forall_forall in H.
      cbn [integer_text] in E. rewrite <- E in Hin.
      rewrite (H c Hin) in Hc. discriminate.
    + pose proof (float_repr_chars f Fin) as H. rewrite <- E in H.
      destruct b; inversion H as [|? ? Hc _]; discriminate Hc.
  - revert E. apply integer_text_not_special;
      [reflexivity|intros H; vm_compute in H; discriminate H..].
  - revert E. apply integer_text_not_special;
      [reflexivity|intros H; vm_compute in H; discriminate H..].
  - revert E. apply integer_text_not_special;
      [reflexivity|intros H; vm_compute in H; discriminate H..].
Qed.

Lemma number_text_inj (x y : number) :
  float_repr_marked FR -> number_field x -> number_field y ->
  number_text x = number_text y -> x = y.
Proof.
  intros Hm Hx Hy E. destruct x as [a|a], y as [b|b];
    cbn [number_text number_field] in *.
  - now apply integer_text_inj in E as ->.
  - now apply integer_text_not_float in E.
  - symmetry in E. now apply integer_text_not_float in E.
  - now apply floatstr_inj in E as ->.
Qed.

Lemma number_text_chars (x : number) :
  number_field x -> Forall (fun c => c <> comma) (number_text x).
Proof.
  destruct x as [a|a]; cbn [number_text number_field].
  - intros _. apply integer_text_chars.
  - apply floatstr_chars.
Qed.

(** The digest is 64 lowercase hexadecimal digits. *)
Lemma hexdigit_lower (d : N) : (d < 16)%N -> lower_hex (Sha256.hexdigit d) = true.
Proof.
  intros H. unfold lower_hex, Sha256.hexdigit.
  destruct (N.ltb_spec d 10).
  - apply orb_true_iff. left. apply andb_true_iff.
    split; apply N.leb_le; lia.
  - apply orb_true_iff. right. apply andb_true_iff.
    split; apply N.leb_le; lia.
Qed.

Lemma hex_nibble_lower (x i : N) : lower_hex (Sha256.hex_nibble x i) = true.
Proof.
  rewrite hex_nibble_spec. apply hexdigit_lower.
  apply N.mod_lt. discriminate.
Qed.

Lemma hex8_lower (x : N) :
  Forall (fun c => lower_hex c = true) (Sha256.hex8 x).
Proof.
  unfold Sha256.hex8. repeat constructor; apply hex_nibble_lower.
Qed.

Lemma hexdigest_shape (msg : list N) :
  List.length (Sha256.hexdigest msg) = 64%nat
  /\ Forall (fun c => lower_hex c = true) (Sha256.hexdigest msg).
Proof.
  unfold Sha256.hexdigest, Sha256.hex_of_regs.
  generalize (Sha256.digest msg). intros r. split.
  - reflexivity.
  - repeat (apply Forall_app; split); apply hex8_lower.
Qed.

Lemma lower_hex_text (s : str) :
  Forall (fun c => lower_hex c = true) s -> text s.
Proof.
  apply Forall_impl. intros c H. unfold lower_hex in H. unfold scalar_value.
  apply orb_true_iff. left. apply N.ltb_lt.
  apply orb_true_iff in H as [H|H]; apply andb_true_iff in H as [_ H];
    apply N.leb_le in H; lia.
Qed.


End Injective.

(** ** The example instance meets the requirements *)

Section ExactRepr.

Import Json.

Lemma int_chars_no_e (s : str) :
  Forall (fun c => int_char c = true) s -> Forall (fun c => c <> 101%N) s.
Proof. apply Forall_impl. intros c H ->. discriminate. Qed.

Lemma exact_float_repr_finite (s : bool) (m : positive) (e : Z) :
  exact_float_repr (S754_finite s m e)
  = int_repr (if s then Zneg m else Zpos m) ++ 101%N :: int_repr e.
Proof. reflexivity. Qed.

Lemma exact_float_repr_has_e (s : bool) (m : positive) (e : Z) :
  In 101%N (exact_float_repr (S754_finite s m e)).
Proof.
  rewrite exact_float_repr_finite. apply in_app_iff. right. now left.
Qed.

#[export] Instance exact_float_repr_spec : FloatReprSpec exact_float_repr.
Proof.
  split.
  - intros x y Hx Hy E.
    destruct x as [sx| | |sx mx ex]; try discriminate;
      destruct y as [sy| | |sy my ey]; try discriminate.
    + destruct sx, sy; try reflexivity; discriminate E.
    + exfalso. pose proof (exact_float_repr_has_e sy my ey) as H.
      unfold float_repr in E. rewrite <- E in H.
      destruct sx; cbn in H; intuition discriminate.
    + exfalso. pose proof (exact_float_repr_has_e sx mx ex) as H.
      unfold float_repr in E. rewrite E in H.
      destruct sy; cbn in H; intuition discriminate.
    + unfold float_repr in E. rewrite !exact_float_repr_finite in E.
      apply (char_delimited 101%N) in E as [Hm He];
        try (apply int_chars_no_e, int_repr_int_chars).
      apply int_repr_inj in Hm, He. subst ey.
      destruct sx, sy; try discriminate; now injection Hm as ->.
  - intros x Hx. unfold float_repr.
    destruct x as [[|]| | |s m e]; try discriminate.
    + repeat constructor.
    + repeat constructor.
    + rewrite exact_float_repr_finite. apply Forall_app. split.
      * apply int_repr_chars.
      * constructor; [reflexivity|apply int_repr_chars].
Qed.

End ExactRepr.

Section Collisions.

Import Examples Collision.

(** Whatever [float.__repr__] is, the two ids are written alike. *)
Lemma surrogate_pair_same_text (FR : FloatRepr) (i : integer)
      (ts now : number) (c ph : str) :
  Block.block_string i ts [Vote.Make pair_id c now] ph
  = Block.block_string i ts [Vote.Make astral_id c now] ph.
Proof. rewrite !block_string_text. reflexivity. Qed.

#[local] Existing Instance exact_float_repr.



End Collisions.

(* ================================================================== *)
(** * Reading back what was written *)
(* ================================================================== *)

(** ** Strings *)

Section ReadString.

Import Json Decoder.
Local Open Scope N_scope.

Local Ltac Zify.zify_post_hook ::= Z.to_euclidean_division_equations.

Lemma hex_value_hexdigit (d : N) :
  d < 16 -> hex_value (Sha256.hexdigit d) = Some d.
Proof.
  intros H. unfold hex_value, Sha256.hexdigit.
  destruct (N.ltb_spec d 10).
  - replace ((48 <=? 48 + d) && (48 + d <=? 57)) with true;
      [f_equal; lia|].
    symmetry. apply andb_true_iff. split; apply N.leb_le; lia.
  - replace ((48 <=? 87 + d) && (87 + d <=? 57)) with false.
    + replace ((97 <=? 87 + d) && (87 + d <=? 102)) with true;
        [f_equal; lia|].
      symmetry. apply andb_true_iff. split; apply N.leb_le; lia.
    + symmetry. apply andb_false_iff. right. apply N.leb_gt. lia.
Qed.

Lemma decode_hex4 (n : N) :
  n < 65536 ->
  exists a b c d,
    hex4 n = [a; b; c; d] /\ decode_uXXXX a b c d = Some n.
Proof.
  intros H. unfold hex4. do 4 eexists. split; [reflexivity|].
  unfold decode_uXXXX. rewrite !hex_nibble_spec.
  rewrite !hex_value_hexdigit by (apply N.mod_lt; discriminate).
  f_equal.
  change (2 ^ (4 * 3)) with (16 * 16 * 16).
  change (2 ^ (4 * 2)) with (16 * 16).
  change (2 ^ (4 * 1)) with 16.
  change (2 ^ (4 * 0)) with 1.
  rewrite <- !N.Div0.div_div. rewrite N.div_1_r. lia.
Qed.

Lemma join_surrogates_spec (n : N) :
  n < 1048576 ->
  join_surrogates (0xd800 + (n / 1024) mod 1024) (0xdc00 + n mod 1024)
  = 0x10000 + n.
Proof.
  intros H. unfold join_surrogates. f_equal.
  replace (0xd800 + (n / 1024) mod 1024 - 0xd800) with (n / 1024) by lia.
  replace (0xdc00 + n mod 1024 - 0xdc00) with (n mod 1024) by lia.
  rewrite lor_shiftl_low by (apply N.mod_lt; discriminate).
  rewrite N.shiftl_mul_pow2. change (2 ^ 10) with 1024. lia.
Qed.

(** Scanning reads the code point that was escaped and goes on. *)
Lemma scanstring_escape_char (c : codepoint) (rest chunks : str) :
  Unescape.scalar_value c = true ->
  scanstring (escape_char c ++ rest) chunks
  = scanstring rest (chunks ++ [c]).
Proof.
  intros Hc. unfold escape_char.
  destruct (N.eqb_spec c backslash) as [->|Hbs]; [reflexivity|].
  destruct (N.eqb_spec c quote) as [->|Hq]; [reflexivity|].
  destruct (N.eqb_spec c 8) as [->|H8]; [reflexivity|].
  destruct (N.eqb_spec c 12) as [->|H12]; [reflexivity|].
  destruct (N.eqb_spec c 10) as [->|H10]; [reflexivity|].
  destruct (N.eqb_spec c 13) as [->|H13]; [reflexivity|].
  destruct (N.eqb_spec c 9) as [->|H9]; [reflexivity|].
  destruct ((32 <=? c) && (c <=? 126)) eqn:Hp.
  - cbn [app scanstring].
    apply N.eqb_neq in Hbs, Hq. rewrite Hq, Hbs.
    apply andb_true_iff in Hp as [Hp _]. apply N.leb_le in Hp.
    destruct (N.ltb_spec c 32); [lia|reflexivity].
  - unfold Unescape.scalar_value in Hc.
    destruct (N.ltb_spec c 0x10000) as [Hlt|Hge].
    + destruct (decode_hex4 c Hlt) as (a & b & x & d & E & Hv).
      unfold u_escape. rewrite E. cbn [app scanstring].
      change (backslash =? quote) with false.
      change (backslash =? backslash) with true.
      change (117 =? 117) with true. cbv iota.
      rewrite Hv.
      assert (Hs : is_high_surrogate c = false).
      { unfold is_high_surrogate.
        apply orb_true_iff in Hc as [Hc|Hc].
        - apply N.ltb_lt in Hc. apply andb_false_iff. left.
          apply N.leb_gt. lia.
        - apply andb_true_iff in Hc as [Hc _]. apply N.leb_le in Hc.
          apply andb_false_iff. right. apply N.leb_gt. lia. }
      now rewrite Hs.
    + assert (Hmax : c < 0x110000).
      { apply orb_true_iff in Hc as [Hc|Hc].
        - apply N.ltb_lt in Hc. lia.
        - apply andb_true_iff in Hc as [_ Hc]. now apply N.ltb_lt in Hc. }
      cbv zeta. rewrite high_surrogate_spec, low_surrogate_spec.
      set (n := c - 0x10000).
      assert (Hn : n < 1048576) by (unfold n; lia).
      assert (H1 : 0xd800 + (n / 1024) mod 1024 < 65536) by lia.
      assert (H2 : 0xdc00 + n mod 1024 < 65536) by lia.
      destruct (decode_hex4 _ H1) as (a1 & b1 & c1 & d1 & E1 & Hv1).
      destruct (decode_hex4 _ H2) as (a2 & b2 & c2 & d2 & E2 & Hv2).
      unfold u_escape. rewrite E1, E2. cbn [app scanstring].
      change (backslash =? quote) with false.
      change (backslash =? backslash) with true.
      change (117 =? 117) with true. cbv iota.
      rewrite Hv1. cbn [andb]. rewrite Hv2.
      assert (Hs : is_high_surrogate (0xd800 + (n / 1024) mod 1024) = true).
      { unfold is_high_surrogate. apply andb_true_iff. split;
          apply N.leb_le; lia. }
      assert (Hl : is_low_surrogate (0xdc00 + n mod 1024) = true).
      { unfold is_low_surrogate. apply andb_true_iff. split;
          apply N.leb_le; lia. }
      rewrite Hs, Hl. rewrite join_surrogates_spec by assumption.
      do 3 f_equal. unfold n. lia.
Qed.

Lemma scanstring_escape (s : str) :
  forall (chunks rest : str),
    Unescape.text s ->
    scanstring (escape s ++ quote :: rest) chunks = Ok (chunks ++ s, rest).
Proof.
  unfold escape.
  induction s as [|c s IH]; intros chunks rest H; cbn [flat_map app].
  - cbn [scanstring]. change (quote =? quote) with true. cbv iota.
    now rewrite app_nil_r.
  - inversion H; subst. rewrite <- app_assoc.
    rewrite scanstring_escape_char by assumption.
    rewrite IH by assumption. now rewrite <- app_assoc.
Qed.

End ReadString.

(** ** Numbers *)

Section ReadNumber.

Import Json Decoder.
Local Open Scope N_scope.

Lemma delimited_no_digit (rest : str) :
  delimited rest = true -> no_digit_head rest = true.
Proof.
  destruct rest as [|c rest]; [reflexivity|]. cbn [delimited no_digit_head].
  destruct (is_digit c); [discriminate|reflexivity].
Qed.

Lemma span_digits_whole (s : str) :
  forall d r, span_digits s = (d, r) -> s = d ++ r.
Proof.
  induction s as [|c s IH]; intros d r; cbn [span_digits].
  - now intros [= <- <-].
  - destruct (is_digit c).
    + destruct (span_digits s) as [d' r']. intros [= <- <-].
      cbn [app]. f_equal. now apply IH.
    + now intros [= <- <-].
Qed.

Lemma span_digits_app (s : str) :
  forall d r rest,
    no_digit_head rest = true ->
    span_digits s = (d, r) -> span_digits (s ++ rest) = (d, r ++ rest).
Proof.
  induction s as [|c s IH]; intros d r rest Hrest; cbn [span_digits app].
  - intros [= <- <-]. destruct rest as [|x rest]; [reflexivity|].
    cbn [span_digits]. cbn [no_digit_head] in Hrest.
    now destruct (is_digit x).
  - destruct (is_digit c).
    + destruct (span_digits s) as [d' r'] eqn:E. intros [= <- <-].
      now rewrite (IH d' r' rest Hrest eq_refl).
    + now intros [= <- <-].
Qed.

Lemma span_digits_all (ds : str) :
  forallb is_digit ds = true -> span_digits ds = (ds, []).
Proof.
  induction ds as [|c ds IH]; [reflexivity|]. cbn [forallb span_digits].
  intros H. apply andb_true_iff in H as [-> H]. now rewrite IH.
Qed.

Lemma match_integer_whole (s : str) :
  forall i r, match_integer s = Some (i, r) -> s = i ++ r.
Proof.
  intros i r. unfold match_integer.
  assert (G : forall sign s1 : str,
             match s1 with
             | [] => None
             | c :: r0 =>
                 if c =? 48 then Some (sign ++ [c], r0)
                 else if is_digit c
                      then let (d, r') := span_digits r0 in
                           Some (sign ++ c :: d, r')
                      else None
             end = Some (i, r) -> sign ++ s1 = i ++ r).
  { intros sign [|c r0]; [discriminate|].
    destruct (c =? 48).
    - intros [= <- <-]. now rewrite <- app_assoc.
    - destruct (is_digit c); [|discriminate].
      destruct (span_digits r0) as [d r'] eqn:E. intros [= <- <-].
      apply span_digits_whole in E. subst r0.
      now rewrite <- app_assoc. }
  destruct s as [|c s]; [discriminate|].
  destruct (c =? 45); intros H.
  - apply (G [c] s) in H. exact H.
  - apply (G [] (c :: s)) in H. exact H.
Qed.

Lemma match_integer_app (s : str) :
  forall i r rest,
    no_digit_head rest = true ->
    match_integer s = Some (i, r) ->
    match_integer (s ++ rest) = Some (i, r ++ rest).
Proof.
  intros i r rest Hrest. unfold match_integer.
  assert (G : forall sign s1 : str,
             match s1 with
             | [] => None
             | c :: r0 =>
                 if c =? 48 then Some (sign ++ [c], r0)
                 else if is_digit c
                      then let (d, r') := span_digits r0 in
                           Some (sign ++ c :: d, r')
                      else None
             end = Some (i, r) ->
             match s1 ++ rest with
             | [] => None
             | c :: r0 =>
                 if c =? 48 then Some (sign ++ [c], r0)
                 else if is_digit c
                      then let (d, r') := span_digits r0 in
                           Some (sign ++ c :: d, r')
                      else None
             end = Some (i, r ++ rest)).
  { intros sign [|c r0]; [discriminate|]. cbn [app].
    destruct (c =? 48).
    - now intros [= <- <-].
    - destruct (is_digit c); [|discriminate].
      destruct (span_digits r0) as [d r'] eqn:E. intros [= <- <-].
      now rewrite (span_digits_app r0 d r' rest Hrest E). }
  destruct s as [|c s]; [discriminate|]. cbn [app].
  destruct (c =? 45); intros H.
  - apply (G [c] s H).
  - apply (G [] (c :: s) H).
Qed.

Lemma match_frac_whole (s : str) :
  forall f r, match_frac s = (f, r) -> s = f ++ r.
Proof.
  intros f r. unfold match_frac. destruct s as [|c s].
  - now intros [= <- <-].
  - destruct (c =? 46); [|now intros [= <- <-]].
    destruct (span_digits s) as [[|x d] r'] eqn:E.
    + now intros [= <- <-].
    + intros [= <- <-]. apply span_digits_whole in E. now subst s.
Qed.

Lemma match_frac_app (s : str) :
  forall f r rest,
    delimited rest = true ->
    match_frac s = (f, r) -> match_frac (s ++ rest) = (f, r ++ rest).
Proof.
  intros f r rest Hrest. unfold match_frac. destruct s as [|c s].
  - intros [= <- <-]. cbn [app]. destruct rest as [|x rest]; [reflexivity|].
    cbn [delimited] in Hrest.
    destruct (x =? 46); [|reflexivity].
    rewrite !orb_true_r in Hrest. cbn in Hrest.
    destruct (is_digit x); discriminate.
  - cbn [app]. destruct (c =? 46); [|now intros [= <- <-]].
    destruct (span_digits s) as [d r'] eqn:E.
    rewrite (span_digits_app s d r' rest (delimited_no_digit _ Hrest) E).
    destruct d as [|x d]; now intros [= <- <-].
Qed.

Lemma match_exp_whole (s : str) :
  forall e r, match_exp s = (e, r) -> s = e ++ r.
Proof.
  intros e r. unfold match_exp. destruct s as [|c s].
  - now intros [= <- <-].
  - destruct ((c =? 101) || (c =? 69)); [|now intros [= <- <-]].
    destruct s as [|x s'].
    + cbn [span_digits]. now intros [= <- <-].
    + destruct ((x =? 45) || (x =? 43)).
      * destruct (span_digits s') as [[|y d] r'] eqn:E.
        -- now intros [= <- <-].
        -- intros [= <- <-]. apply span_digits_whole in E. now subst s'.
      * destruct (span_digits (x :: s')) as [[|y d] r'] eqn:E.
        -- now intros [= <- <-].
        -- intros [= <- <-]. apply span_digits_whole in E.
           cbn [app]. now rewrite E.
Qed.

Lemma match_exp_app (s : str) :
  forall e r rest,
    delimited rest = true ->
    match_exp s = (e, r) -> match_exp (s ++ rest) = (e, r ++ rest).
Proof.
  intros e r rest Hrest. unfold match_exp.
  pose proof (delimited_no_digit _ Hrest) as Hnd.
  destruct s as [|c s].
  - intros [= <- <-]. cbn [app]. destruct rest as [|x rest]; [reflexivity|].
    cbn [delimited] in Hrest.
    destruct ((x =? 101) || (x =? 69)) eqn:Ex; [|reflexivity].
    exfalso. apply negb_true_iff in Hrest.
    apply orb_true_iff in Ex as [Ex|Ex]; rewrite Ex in Hrest;
      rewrite ?orb_true_r in Hrest; discriminate.
  - cbn [app]. destruct ((c =? 101) || (c =? 69)); [|now intros [= <- <-]].
    destruct s as [|x s'].
    + cbn [span_digits app]. intros [= <- <-].
      destruct rest as [|x rest]; [reflexivity|].
      cbn [delimited] in Hrest. apply negb_true_iff in Hrest.
      assert (Hx : (x =? 45) || (x =? 43) = false).
      { destruct (x =? 45); [now rewrite !orb_true_r in Hrest|].
        destruct (x =? 43); [now rewrite !orb_true_r in Hrest|].
        reflexivity. }
      rewrite Hx. cbn [span_digits].
      cbn [no_digit_head] in Hnd. apply negb_true_iff in Hnd.
      now rewrite Hnd.
    + cbn [app]. destruct ((x =? 45) || (x =? 43)).
      * destruct (span_digits s') as [d r'] eqn:E.
        rewrite (span_digits_app s' d r' rest Hnd E).
        destruct d as [|y d]; now intros [= <- <-].
      * destruct (span_digits (x :: s')) as [d r'] eqn:E.
        change (x :: s' ++ rest) with ((x :: s') ++ rest).
        rewrite (span_digits_app (x :: s') d r' rest Hnd E).
        destruct d as [|y d]; now intros [= <- <-].
Qed.

Lemma match_number_whole (s : str) :
  forall i f e r, match_number s = Some (i, f, e, r) -> s = i ++ f ++ e ++ r.
Proof.
  intros i f e r. unfold match_number.
  destruct (match_integer s) as [[i' r1]|] eqn:Ei; [|discriminate].
  destruct (match_frac r1) as [f' r2] eqn:Ef.
  destruct (match_exp r2) as [e' r3] eqn:Ee.
  intros [= <- <- <- <-].
  apply match_integer_whole in Ei. apply match_frac_whole in Ef.
  apply match_exp_whole in Ee. now subst.
Qed.

Lemma match_number_app (s : str) :
  forall i f e r rest,
    delimited rest = true ->
    match_number s = Some (i, f, e, r) ->
    match_number (s ++ rest) = Some (i, f, e, r ++ rest).
Proof.
  intros i f e r rest Hrest. unfold match_number.
  destruct (match_integer s) as [[i' r1]|] eqn:Ei; [|discriminate].
  destruct (match_frac r1) as [f' r2] eqn:Ef.
  destruct (match_exp r2) as [e' r3] eqn:Ee.
  intros [= <- <- <- <-].
  rewrite (match_integer_app s i' r1 rest (delimited_no_digit _ Hrest) Ei).
  rewrite (match_frac_app r1 f' r2 rest Hrest Ef).
  now rewrite (match_exp_app r2 e' r3 rest Hrest Ee).
Qed.

(** A text that the number pattern matches begins with a minus sign or
    a digit. *)
Lemma match_number_head (s : str) :
  match_number s <> None ->
  exists c s', s = c :: s' /\ (c = 45 \/ is_digit c = true).
Proof.
  unfold match_number, match_integer. intros H.
  destruct s as [|c s]; [now contradiction H|].
  exists c, s. split; [reflexivity|].
  destruct (N.eqb_spec c 45) as [->|Hc]; [now left|]. right.
  destruct (N.eqb_spec c 48) as [->|H0]; [reflexivity|].
  destruct (is_digit c); [reflexivity|now contradiction H].
Qed.

Section WithFloatParse.

Context {FP : FloatParse}.

(** On a text that the number pattern matches, [scan_once] gives the
    number. *)
Lemma scan_once_number (fuel : nat) (s : str) :
  forall i f e r,
    match_number s = Some (i, f, e, r) ->
    scan_once (S fuel) s = (v <- number_value i f e ;; Ok (v, r)).
Proof.
  intros i f e r H.
  destruct (match_number_head s) as (c & s' & -> & Hc);
    [now rewrite H|].
  cbn [scan_once]. rewrite H.
  assert (Hq : (c =? quote) = false).
  { destruct (N.eqb_spec c quote) as [->|]; [|reflexivity].
    destruct Hc as [Hc|Hc]; discriminate Hc. }
  assert (Hb : (c =? 123) = false).
  { destruct (N.eqb_spec c 123) as [->|]; [|reflexivity].
    destruct Hc as [Hc|Hc]; discriminate Hc. }
  assert (Hk : (c =? 91) = false).
  { destruct (N.eqb_spec c 91) as [->|]; [|reflexivity].
    destruct Hc as [Hc|Hc]; discriminate Hc. }
  rewrite Hq, Hb, Hk.
  assert (Hn : strip_prefix (lit "null") (c :: s') = None).
  { change (lit "null") with [110; 117; 108; 108]. cbn [strip_prefix].
    destruct (N.eqb_spec 110 c) as [<-|]; [|reflexivity].
    destruct Hc as [Hc|Hc]; discriminate Hc. }
  assert (Ht : strip_prefix (lit "true") (c :: s') = None).
  { change (lit "true") with [116; 114; 117; 101]. cbn [strip_prefix].
    destruct (N.eqb_spec 116 c) as [<-|]; [|reflexivity].
    destruct Hc as [Hc|Hc]; discriminate Hc. }
  assert (Hf : strip_prefix (lit "false") (c :: s') = None).
  { change (lit "false") with [102; 97; 108; 115; 101]. cbn [strip_prefix].
    destruct (N.eqb_spec 102 c) as [<-|]; [|reflexivity].
    destruct Hc as [Hc|Hc]; discriminate Hc. }
  now rewrite Hn, Ht, Hf.
Qed.

End WithFloatParse.

(** *** Integers *)

Lemma to_string_lit (s : string) : to_string (lit s) = s.
Proof.
  unfold to_string, lit. rewrite map_map.
  rewrite (map_ext _ (fun a => a)) by apply ascii_N_embedding.
  rewrite map_id. apply string_of_list_ascii_of_string.
Qed.

Lemma parse_int_repr (z : Z) : parse_int (int_repr z) = Ok z.
Proof.
  unfold parse_int, int_repr. rewrite to_string_lit.
  rewrite DecimalString.NilEmpty.isi. now rewrite DecimalZ.of_to.
Qed.

Lemma uint_text_digits (d : Decimal.uint) :
  forallb is_digit (lit (DecimalString.NilEmpty.string_of_uint d)) = true.
Proof. induction d; cbn; auto. Qed.

Lemma nzhead_not_D0 (d d' : Decimal.uint) :
  Decimal.nzhead d <> Decimal.D0 d'.
Proof. induction d; cbn; try discriminate; assumption. Qed.

Lemma to_uint_not_D0 (p : positive) (d : Decimal.uint) :
  Pos.to_uint p <> Decimal.D0 d.
Proof.
  intros E.
  pose proof (DecimalPos.Unsigned.to_of (Pos.to_uint p)) as H.
  rewrite DecimalPos.Unsigned.of_to in H. cbn [N.to_uint] in H.
  rewrite E in H. unfold Decimal.unorm in H. cbn [Decimal.nzhead] in H.
  destruct (Decimal.nzhead d) eqn:En; try discriminate H.
  - injection H as ->. apply (DecimalPos.Unsigned.to_uint_nonzero p).
    exact E.
  - exact (nzhead_not_D0 _ _ En).
Qed.

(** The text of a positive number: a digit that is not zero, then
    digits. *)
Lemma pos_text (p : positive) :
  exists c r,
    lit (DecimalString.NilEmpty.string_of_uint (Pos.to_uint p)) = c :: r
    /\ is_digit c = true /\ c <> 48 /\ forallb is_digit r = true.
Proof.
  pose proof (to_uint_not_D0 p) as H0.
  pose proof (DecimalPos.Unsigned.to_uint_nonnil p) as Hn.
  pose proof (uint_text_digits (Pos.to_uint p)) as Hd.
  destruct (Pos.to_uint p) as [|d|d|d|d|d|d|d|d|d|d];
    [contradiction| exfalso; apply (H0 d); reflexivity |..];
    (do 2 eexists; split; [reflexivity|];
     split; [reflexivity|]; split; [discriminate|exact Hd]).
Qed.

(** The text of an integer: digits, after a minus sign when it is
    negative; no zero leads other digits. *)
Lemma int_repr_cases (z : Z) :
  exists c r,
    is_digit c = true /\ forallb is_digit r = true
    /\ (c = 48 -> r = [])
    /\ (int_repr z = c :: r \/ int_repr z = 45 :: c :: r).
Proof.
  destruct z as [|p|p].
  - exists 48, []. split; [reflexivity|]. split; [reflexivity|].
    split; [reflexivity|]. left. reflexivity.
  - destruct (pos_text p) as (c & r & E & Hc & H0 & Hr).
    exists c, r. split; [exact Hc|]. split; [exact Hr|].
    split; [intros; contradiction|]. left. exact E.
  - destruct (pos_text p) as (c & r & E & Hc & H0 & Hr).
    exists c, r. split; [exact Hc|]. split; [exact Hr|].
    split; [intros; contradiction|].
    right. unfold int_repr. cbn [Z.to_int DecimalString.NilEmpty.string_of_int].
    change (lit (String "-" ?s)) with (45 :: lit s).
    unfold lit in *. cbn [list_ascii_of_string List.map]. now rewrite E.
Qed.

Lemma digit_not_minus (c : codepoint) : is_digit c = true -> (c =? 45) = false.
Proof.
  intros H. destruct (N.eqb_spec c 45) as [->|]; [discriminate|reflexivity].
Qed.

Lemma match_integer_digits (sign c : codepoint) (r : str) :
  is_digit c = true -> forallb is_digit r = true -> (c = 48 -> r = []) ->
  match_integer (c :: r) = Some (c :: r, [])
  /\ match_integer (45 :: c :: r) = Some (45 :: c :: r, []).
Proof.
  intros Hc Hr H0. unfold match_integer.
  change (45 =? 45) with true. rewrite (digit_not_minus c Hc). cbv iota.
  destruct (N.eqb_spec c 48) as [E|E].
  - rewrite (H0 E). split; reflexivity.
  - rewrite Hc, (span_digits_all r Hr). split; reflexivity.
Qed.

Lemma match_integer_int_repr (z : Z) :
  match_integer (int_repr z) = Some (int_repr z, []).
Proof.
  destruct (int_repr_cases z) as (c & r & Hc & Hr & H0 & [E|E]);
    rewrite E; now apply (match_integer_digits 0 c r).
Qed.

Lemma match_number_int_repr (z : Z) :
  match_number (int_repr z) = Some (int_repr z, [], [], []).
Proof. unfold match_number. now rewrite match_integer_int_repr. Qed.

End ReadNumber.

(** ** Values *)

Section ReadValue.

Import Json Decoder.
Local Open Scope N_scope.

Lemma value_start_facts (c : codepoint) :
  value_start c = true ->
  is_ws c = false /\ (c =? 93) = false /\ (c =? 125) = false
  /\ (c =? 0xfeff) = false.
Proof.
  unfold value_start. intros H.
  repeat match goal with
         | H : _ || _ = true |- _ => apply orb_true_iff in H as [H|H]
         end;
    try (apply N.eqb_eq in H; subst c; repeat split; reflexivity).
  unfold is_digit in H. apply andb_true_iff in H as [H1 H2].
  apply N.leb_le in H1, H2. unfold is_ws.
  repeat split;
    repeat match goal with
           | |- context [?a =? ?b] => destruct (N.eqb_spec a b); [lia|]
           end; reflexivity.
Qed.

Lemma skip_ws_start (c : codepoint) (r : str) :
  value_start c = true -> skip_ws (c :: r) = c :: r.
Proof.
  intros H. apply value_start_facts in H as (H & _). cbn [skip_ws].
  now rewrite H.
Qed.

Lemma skip_ws_spaces (n : nat) (r : str) :
  skip_ws (repeat space n ++ r) = skip_ws r.
Proof. induction n as [|n IH]; [reflexivity|exact IH]. Qed.

Lemma skip_ws_indent (k : nat) (r : str) :
  skip_ws (newline_indent indented k ++ r) = skip_ws r.
Proof.
  unfold newline_indent. cbn [indent indented app skip_ws].
  change (is_ws newline) with true. cbv iota. apply skip_ws_spaces.
Qed.

Lemma delimited_indent (k : nat) (r : str) :
  delimited (newline_indent indented k ++ r) = true.
Proof. reflexivity. Qed.

Lemma dict_set_fresh (key : str) (v : value) (items : list (str * value)) :
  ~ In key (List.map fst items) ->
  dict_set key v items = items ++ [(key, v)].
Proof.
  induction items as [|[k v'] items IH]; intros H; cbn [dict_set app].
  - reflexivity.
  - cbn [List.map fst In] in H.
    destruct (str_eqb k key) eqn:E.
    + apply str_eqb_eq in E. exfalso. apply H. now left.
    + rewrite IH; [reflexivity|]. intros Hin. apply H. now right.
Qed.

Lemma distinct_NoDup (keys : list str) :
  distinct keys = true -> NoDup keys.
Proof.
  induction keys as [|k keys IH]; intros H; [constructor|].
  cbn [distinct] in H. apply andb_true_iff in H as [Hk H].
  apply negb_true_iff, set_mem_notin in Hk.
  constructor; [exact Hk|now apply IH].
Qed.

Lemma dict_of_pairs_distinct (items : list (str * value)) :
  distinct (List.map fst items) = true -> dict_of_pairs items = items.
Proof.
  intros H. apply distinct_NoDup in H. unfold dict_of_pairs.
  enough (G : forall acc : list (str * value),
             NoDup (List.map fst (acc ++ items)) ->
             fold_left (fun d kv => dict_set (fst kv) (snd kv) d) items acc
             = acc ++ items) by (apply (G []); exact H).
  clear H. induction items as [|[k v] items IH]; intros acc H;
    cbn [fold_left fst snd].
  - now rewrite app_nil_r.
  - rewrite dict_set_fresh.
    + rewrite IH; rewrite <- app_assoc; [reflexivity|exact H].
    + rewrite map_app in H. cbn [List.map fst] in H.
      apply NoDup_remove_2 in H. intros Hin. apply H.
      apply in_app_iff. now left.
Qed.

Section WithFloats.

Context {FR : FloatRepr} {FP : FloatParse} {FPS : FloatParseSpec FR FP}.

Lemma float_repr_match (x : float) :
  finite_double x = true ->
  exists i f e,
    match_number (float_repr x) = Some (i, f, e, [])
    /\ float_repr x = i ++ f ++ e
    /\ number_value i f e = Ok (VFloat x).
Proof.
  intros Hx. pose proof (float_repr_literal x Hx) as H.
  unfold float_literal in H.
  destruct (match_number (float_repr x)) as [[[[i f] e] r]|] eqn:E;
    [|discriminate].
  destruct r; [|discriminate].
  exists i, f, e. split; [reflexivity|].
  pose proof (match_number_whole _ _ _ _ _ E) as W.
  rewrite app_nil_r in W. split; [exact W|].
  unfold number_value.
  destruct f; [destruct e; [discriminate|]|];
    now rewrite <- W, float_of_str_repr.
Qed.

(** Every value is written with a character that no other token begins
    with. *)
Lemma encode_head (o : options) (level : nat) (v : value) :
  plainb v = true ->
  exists c r, encode o level v = c :: r /\ value_start c = true.
Proof.
  intros Hv. destruct v as [|[]|z|f|s|[|x l]|[|kv items]];
    try (do 2 eexists; split; [reflexivity|reflexivity]).
  - cbn [encode].
    destruct (int_repr_cases z) as (c & r & Hc & Hr & H0 & [E|E]);
      rewrite E; do 2 eexists; (split; [reflexivity|]).
    + unfold value_start. rewrite Hc. now rewrite !orb_true_r.
    + reflexivity.
  - cbn [encode plainb] in *.
    destruct (is_double_cases f Hv) as [Hf | [-> | [-> | ->]]];
      try (do 2 eexists; split; [reflexivity|reflexivity]).
    rewrite floatstr_finite by assumption.
    destruct (float_repr_match f Hf) as (i & fr & e & E & _ & _).
    destruct (match_number_head (float_repr f)) as (c & s' & Es & Hc);
      [now rewrite E|].
    rewrite Es. do 2 eexists. split; [reflexivity|].
    unfold value_start. destruct Hc as [->|Hc]; [reflexivity|].
    rewrite Hc. now rewrite !orb_true_r.
Qed.

(** The values that hold no other value. *)
Lemma scan_once_leaf (fuel level : nat) (o : options) (v : value)
      (rest : str) :
  match v with VList _ | VDict _ => False | _ => True end ->
  plainb v = true -> delimited rest = true ->
  scan_once (S fuel) (encode o level v ++ rest) = Ok (v, rest).
Proof.
  intros Hleaf Hv Hrest.
  destruct v as [|[]|z|f|s|l|items]; try contradiction;
    try reflexivity.
  - cbn [encode].
    rewrite (scan_once_number fuel _ (int_repr z) [] [] rest).
    + unfold number_value. now rewrite parse_int_repr.
    + apply (match_number_app (int_repr z) _ _ _ [] rest Hrest).
      apply match_number_int_repr.
  - cbn [encode plainb] in *.
    destruct (is_double_cases f Hv) as [Hf | [-> | [-> | ->]]];
      try reflexivity.
    rewrite floatstr_finite by assumption.
    destruct (float_repr_match f Hf) as (i & fr & e & E & _ & Hn).
    rewrite (scan_once_number fuel _ i fr e rest).
    + now rewrite Hn.
    + apply (match_number_app (float_repr f) _ _ _ [] rest Hrest E).
  - cbn [encode plainb] in *. unfold encode_basestring_ascii.
    cbn [app scan_once]. change (quote =? quote) with true. cbv iota.
    rewrite <- app_assoc. cbn [app].
    rewrite scanstring_escape.
    + reflexivity.
    + apply Forall_forall. intros c Hc.
      rewrite forallb_forall in Hv. now apply Hv.
Qed.

Lemma scan_once_array (fuel : nat) (s : str) :
  scan_once (S fuel) (91 :: s)
  = match skip_ws s with
    | c :: rest' =>
        if c =? 93 then Ok (VList [], rest')
        else array_loop fuel (c :: rest') []
    | [] => Raise ValueError
    end.
Proof. reflexivity. Qed.

Lemma scan_once_object (fuel : nat) (s : str) :
  scan_once (S fuel) (123 :: s)
  = match skip_ws s with
    | c :: rest' =>
        if c =? 125 then Ok (VDict [], rest')
        else if c =? quote then object_loop fuel rest' []
        else Raise ValueError
    | [] => Raise ValueError
    end.
Proof. reflexivity. Qed.

Lemma array_loop_step (fuel : nat) (s : str) (values : list value) :
  array_loop (S fuel) s values
  = (r <- scan_once fuel s ;;
     match skip_ws (snd r) with
     | c :: rest =>
         if c =? 93 then Ok (VList (values ++ [fst r]), rest)
         else if c =? comma
              then array_loop fuel (skip_ws rest) (values ++ [fst r])
              else Raise ValueError
     | [] => Raise ValueError
     end).
Proof. reflexivity. Qed.

Lemma object_loop_step (fuel : nat) (s : str) (pairs : list (str * value)) :
  object_loop (S fuel) s pairs
  = (k <- scanstring s [] ;;
     match skip_ws (snd k) with
     | c :: rest =>
         if c =? 58 then
           r <- scan_once fuel (skip_ws rest) ;;
           match skip_ws (snd r) with
           | c' :: rest' =>
               if c' =? 125
               then Ok (VDict (dict_of_pairs (pairs ++ [(fst k, fst r)])),
                        rest')
               else if c' =? comma then
                 match skip_ws rest' with
                 | q :: rest'' =>
                     if q =? quote
                     then object_loop fuel rest''
                            (pairs ++ [(fst k, fst r)])
                     else Raise ValueError
                 | [] => Raise ValueError
                 end
               else Raise ValueError
           | [] => Raise ValueError
           end
         else Raise ValueError
     | [] => Raise ValueError
     end).
Proof. reflexivity. Qed.

Lemma encode_list_indented (level : nat) (x : value) (l : list value) :
  encode indented level (VList (x :: l))
  = 91 :: newline_indent indented (S level)
      ++ join (items_separator level)
              (List.map (encode indented (S level)) (x :: l))
      ++ newline_indent indented level ++ [93].
Proof. reflexivity. Qed.

Lemma encode_dict_indented (level : nat) (kv : str * value)
      (items : list (str * value)) :
  encode indented level (VDict (kv :: items))
  = 123 :: newline_indent indented (S level)
      ++ join (items_separator level)
              (List.map (dict_item level) (kv :: items))
      ++ newline_indent indented level ++ [125].
Proof.
  cbn [encode sort_keys indented]. rewrite map_map. reflexivity.
Qed.

Lemma items_separator_app (level : nat) (z : str) :
  items_separator level ++ z
  = comma :: newline_indent indented (S level) ++ z.
Proof. unfold items_separator. now rewrite <- app_assoc. Qed.

Lemma dict_item_app (level : nat) (k : str) (v : value) (z : str) :
  dict_item level (k, v) ++ z
  = quote :: escape k
      ++ quote :: 58 :: 32 :: encode indented (S level) v ++ z.
Proof.
  unfold dict_item, encode_basestring_ascii. cbn [fst snd app].
  rewrite <- !app_assoc. reflexivity.
Qed.

Lemma join_cons {A} (f : A -> str) (sp : str) (x : A) (l : list A)
      (z : str) :
  join sp (List.map f (x :: l)) ++ z
  = f x ++ match l with
           | [] => z
           | _ => sp ++ join sp (List.map f l) ++ z
           end.
Proof.
  destruct l as [|y l]; [reflexivity|].
  cbn [List.map join]. now rewrite <- !app_assoc.
Qed.

Lemma skip_ws_value (o : options) (level : nat) (v : value) (z : str) :
  plainb v = true ->
  skip_ws (encode o level v ++ z) = encode o level v ++ z.
Proof.
  intros Hv. destruct (encode_head o level v Hv) as (c & r & E & Hc).
  rewrite E. cbn [app]. now apply skip_ws_start.
Qed.

Lemma join_values_head (level : nat) (x : value) (l : list value)
      (z : str) :
  plainb x = true ->
  exists c r,
    join (items_separator level)
         (List.map (encode indented (S level)) (x :: l)) ++ z = c :: r
    /\ value_start c = true.
Proof.
  intros Hx. rewrite join_cons.
  destruct (encode_head indented (S level) x Hx) as (c & r & E & Hc).
  rewrite E. cbn [app]. eauto.
Qed.

Section Loops.

Variable F : nat.

Hypothesis scan_below :
  forall (m : nat) (v : value) (level : nat) (rest : str),
    (m < F)%nat -> plainb v = true -> (size v <= m)%nat ->
    delimited rest = true ->
    scan_once m (encode indented level v ++ rest) = Ok (v, rest).

Lemma array_loop_items (l : list value) :
  forall (x : value) (values : list value) (m level : nat) (rest : str),
    (m < F)%nat -> plainb x = true -> forallb plainb l = true ->
    (list_sum (List.map (fun y => S (size y)) (x :: l)) <= m)%nat ->
    array_loop m
      (join (items_separator level)
            (List.map (encode indented (S level)) (x :: l))
         ++ newline_indent indented level ++ 93 :: rest) values
    = Ok (VList (values ++ x :: l), rest).
Proof.
  induction l as [|y l IH]; intros x values m level rest Hm Hx Hl Hsize;
    cbn [List.map list_sum fold_right] in Hsize;
    (destruct m as [|m]; [lia|]);
    rewrite join_cons, array_loop_step.
  - rewrite scan_below; [|lia|exact Hx|lia|apply delimited_indent].
    cbn [bind fst snd]. rewrite skip_ws_indent. reflexivity.
  - rewrite items_separator_app.
    rewrite scan_below; [|lia|exact Hx|lia|reflexivity].
    cbn [bind fst snd].
    change (skip_ws (comma :: ?t)) with (comma :: t).
    cbv iota. change (comma =? 93) with false.
    change (comma =? comma) with true. cbv iota.
    rewrite skip_ws_indent.
    cbn [forallb] in Hl. apply andb_true_iff in Hl as [Hy Hl].
    rewrite join_cons, skip_ws_value by exact Hy. rewrite <- join_cons.
    rewrite IH;
      [|lia|exact Hy|exact Hl|cbn [List.map list_sum fold_right]; lia].
    now rewrite <- app_assoc.
Qed.

Lemma object_loop_item (m level : nat) (k : str) (v : value) (z : str)
      (pairs : list (str * value)) :
  Unescape.text k -> plainb v = true ->
  object_loop (S m)
    (escape k ++ quote :: 58 :: 32 :: encode indented (S level) v ++ z) pairs
  = (r <- scan_once m (encode indented (S level) v ++ z) ;;
     match skip_ws (snd r) with
     | c' :: rest' =>
         if c' =? 125
         then Ok (VDict (dict_of_pairs (pairs ++ [(k, fst r)])), rest')
         else if c' =? comma then
           match skip_ws rest' with
           | q :: rest'' =>
               if q =? quote
               then object_loop m rest'' (pairs ++ [(k, fst r)])
               else Raise ValueError
           | [] => Raise ValueError
           end
         else Raise ValueError
     | [] => Raise ValueError
     end).
Proof.
  intros Tk Hv. rewrite object_loop_step, scanstring_escape by exact Tk.
  cbn [bind fst snd].
  change (skip_ws (58 :: 32 :: ?t)) with (58 :: 32 :: t).
  cbv iota. change (58 =? 58) with true. cbv iota.
  change (skip_ws (32 :: ?t)) with (skip_ws t).
  rewrite skip_ws_value by exact Hv. reflexivity.
Qed.

Lemma object_loop_items (items : list (str * value)) :
  forall (kv : str * value) (pairs : list (str * value)) (m level : nat)
         (rest s : str),
    (m < F)%nat ->
    forallb (fun kv => forallb Unescape.scalar_value (fst kv)
                       && plainb (snd kv)) (kv :: items) = true ->
    (list_sum (List.map (fun kv => S (size (snd kv))) (kv :: items)) <= m)%nat ->
    quote :: s
    = join (items_separator level) (List.map (dict_item level) (kv :: items))
        ++ newline_indent indented level ++ 125 :: rest ->
    object_loop m s pairs
    = Ok (VDict (dict_of_pairs (pairs ++ kv :: items)), rest).
Proof.
  induction items as [|kv' items IH];
    intros [k v] pairs m level rest s Hm Hp Hsize Es;
    cbn [List.map list_sum fold_right fst snd] in Hsize;
    (destruct m as [|m]; [lia|]);
    cbn [forallb fst snd] in Hp;
    apply andb_true_iff in Hp as [Hkv Hp];
    apply andb_true_iff in Hkv as [Hk Hv];
    assert (Tk : Unescape.text k)
      by (apply Forall_forall; intros c Hc;
          rewrite forallb_forall in Hk; now apply Hk);
    rewrite join_cons, dict_item_app in Es;
    apply (f_equal (@tl _)) in Es; cbn [tl] in Es; subst s;
    rewrite object_loop_item by assumption.
  - rewrite scan_below; [|lia|exact Hv|lia|apply delimited_indent].
    cbn [bind fst snd]. rewrite skip_ws_indent. reflexivity.
  - rewrite items_separator_app.
    rewrite scan_below; [|lia|exact Hv|lia|reflexivity].
    cbn [bind fst snd].
    change (skip_ws (comma :: ?t)) with (comma :: t).
    cbv iota. change (comma =? 125) with false.
    change (comma =? comma) with true. cbv iota.
    rewrite skip_ws_indent.
    remember (join (items_separator level)
                   (List.map (dict_item level) (kv' :: items))
                ++ newline_indent indented level ++ 125 :: rest) as J eqn:EJ.
    assert (HJ : exists s', J = quote :: s').
    { rewrite EJ, join_cons. destruct kv' as [k' v'].
      rewrite dict_item_app. eexists. reflexivity. }
    destruct HJ as (s' & HJ). rewrite HJ.
    change (skip_ws (quote :: s')) with (quote :: s').
    cbv iota. change (quote =? quote) with true. cbv iota.
    rewrite (IH kv' (pairs ++ [(k, v)]) m level rest s');
      [|lia|exact Hp| cbn [List.map list_sum fold_right] in *; lia
       |now rewrite <- HJ, EJ].
    now rewrite <- app_assoc.
Qed.

End Loops.

(** [scan_once] reads a written value back and stops behind it. *)
Lemma scan_once_encode (m : nat) :
  forall (v : value) (level : nat) (rest : str),
    plainb v = true -> (size v <= m)%nat -> delimited rest = true ->
    scan_once m (encode indented level v ++ rest) = Ok (v, rest).
Proof.
  induction m as [m IH] using lt_wf_ind.
  intros v level rest Hv Hsize Hrest.
  destruct m as [|m]; [destruct v; cbn [size] in Hsize; lia|].
  destruct v as [| b | z | f | s | [|x l] | [|kv items]];
    try (apply scan_once_leaf; [exact I|exact Hv|exact Hrest]).
  - reflexivity.
  - rewrite encode_list_indented. cbn [app]. rewrite scan_once_array.
    rewrite <- !app_assoc. rewrite skip_ws_indent. cbn [app].
    cbn [plainb forallb] in Hv. apply andb_true_iff in Hv as [Hx Hl].
    destruct (join_values_head level x l
                (newline_indent indented level ++ 93 :: rest) Hx)
      as (c & r & E & Hc).
    match goal with
    | |- context [skip_ws ?J] =>
        replace J with (c :: r) by (symmetry; exact E)
    end.
    rewrite (skip_ws_start c r Hc).
    destruct (value_start_facts c Hc) as (_ & -> & _).
    rewrite <- E.
    apply (array_loop_items (S m)); [|lia|exact Hx|exact Hl|].
    + intros m' v' level' rest' Hm'. apply IH. exact Hm'.
    + cbn [size List.map list_sum fold_right] in Hsize.
      cbn [List.map list_sum fold_right]. lia.
  - reflexivity.
  - rewrite encode_dict_indented. cbn [app]. rewrite scan_once_object.
    rewrite <- !app_assoc. rewrite skip_ws_indent. cbn [app].
    cbn [plainb] in Hv. apply andb_true_iff in Hv as [Hp Hd].
    assert (HJ : exists s',
               join (items_separator level)
                    (List.map (dict_item level) (kv :: items))
                 ++ newline_indent indented level ++ 125 :: rest
               = quote :: s').
    { rewrite join_cons. destruct kv as [k' v'].
      rewrite dict_item_app. eexists. reflexivity. }
    destruct HJ as (s' & HJ).
    match goal with
    | |- context [skip_ws ?J] =>
        replace J with (quote :: s') by (symmetry; exact HJ)
    end.
    change (skip_ws (quote :: s')) with (quote :: s').
    cbv iota. change (quote =? 125) with false.
    change (quote =? quote) with true. cbv iota.
    rewrite (object_loop_items (S m)) with (kv := kv) (items := items)
                                           (level := level) (rest := rest);
      [| |lia|exact Hp| |symmetry; exact HJ].
    + cbn [app]. now rewrite (dict_of_pairs_distinct _ Hd).
    + intros m' v' level' rest' Hm'. apply IH. exact Hm'.
    + cbn [size List.map list_sum fold_right] in Hsize.
      cbn [List.map list_sum fold_right]. lia.
Qed.

End WithFloats.

End ReadValue.

(** ** Whole documents *)

Section ReadDocument.

Import Json Decoder.

Context {FR : FloatRepr} {FP : FloatParse} {FPS : FloatParseSpec FR FP}.

Lemma list_sum_In {A} (g : A -> nat) (l : list A) (x : A) :
  In x l -> S (g x) <= list_sum (List.map (fun y => S (g y)) l).
Proof.
  induction l as [|y l IH]; intros H; [contradiction|].
  cbn [List.map list_sum fold_right]. destruct H as [->|H].
  - lia.
  - specialize (IH H). unfold list_sum in IH. lia.
Qed.

Lemma join_length {A} (f : A -> str) (g : A -> nat) (sp : str)
      (l : list A) :
  sp <> [] ->
  Forall (fun x => g x <= List.length (f x)) l ->
  list_sum (List.map (fun x => S (g x)) l)
  <= S (List.length (join sp (List.map f l))).
Proof.
  intros Hsp. induction 1 as [|x l Hx Hl IH];
    cbn [List.map list_sum fold_right]; [lia|].
  destruct l as [|y l].
  - cbn [List.map list_sum fold_right join]. lia.
  - assert (1 <= List.length sp) by (destruct sp; [contradiction|cbn; lia]).
    unfold list_sum in IH. cbn [List.map fold_right join] in IH |- *.
    rewrite !length_app. lia.
Qed.

(** The text of a value has at least as many characters as the scan
    makes calls. *)
Lemma size_le_length (n : nat) :
  forall (v : value) (level : nat),
    size v <= n -> plainb v = true ->
    size v <= List.length (encode indented level v).
Proof.
  induction n as [|n IH]; intros v level Hn Hv;
    [destruct v; cbn [size] in Hn; lia|].
  destruct v as [| b | z | f | s | [|x l] | [|kv items]];
    try (destruct (encode_head indented level _ Hv) as (c & r & -> & _);
         cbn [size List.length List.map list_sum fold_right]; lia).
  - rewrite encode_list_indented. cbn [size] in *.
    cbn [List.length]. rewrite !length_app. cbn [List.length].
    pose proof (join_length (encode indented (S level)) size
                            (items_separator level) (x :: l)) as J.
    cbn [plainb] in Hv. rewrite forallb_forall in Hv.
    enough (list_sum (List.map (fun y => S (size y)) (x :: l))
            <= S (List.length
                    (join (items_separator level)
                          (List.map (encode indented (S level)) (x :: l)))))
      by lia.
    apply J; [discriminate|]. apply Forall_forall. intros y Hy.
    apply IH; [|now apply Hv].
    pose proof (list_sum_In size (x :: l) y Hy). lia.
  - rewrite encode_dict_indented. cbn [size] in *.
    cbn [List.length]. rewrite !length_app. cbn [List.length].
    pose proof (join_length (dict_item level) (fun kv => size (snd kv))
                            (items_separator level) (kv :: items)) as J.
    cbn [plainb] in Hv. apply andb_true_iff in Hv as [Hv _].
    rewrite forallb_forall in Hv.
    enough (list_sum (List.map (fun kv => S (size (snd kv))) (kv :: items))
            <= S (List.length
                    (join (items_separator level)
                          (List.map (dict_item level) (kv :: items)))))
      by lia.
    apply J; [discriminate|]. apply Forall_forall. intros y Hy.
    unfold dict_item. rewrite !length_app.
    enough (size (snd y) <= List.length (encode indented (S level) (snd y)))
      by lia.
    apply IH.
    + pose proof (list_sum_In (fun kv => size (snd kv)) (kv :: items) y Hy).
      lia.
    + specialize (Hv y Hy). now apply andb_true_iff in Hv as [_ Hv].
Qed.

(** [json.loads] gives back the document that [json.dumps] wrote with
    the options of [save_state]. *)
Lemma loads_dumps (v : value) :
  plainb v = true -> loads (dumps indented v) = Ok v.
Proof.
  intros Hv. unfold loads, dumps.
  destruct (encode_head indented 0 v Hv) as (c & r & E & Hc).
  pose proof (size_le_length (size v) v 0 (le_n _) Hv) as Hs.
  pose proof (scan_once_encode (S (List.length (encode indented 0 v)))
                               v 0 [] Hv) as H.
  rewrite app_nil_r in H.
  rewrite E in *. destruct (value_start_facts c Hc) as (_ & _ & _ & ->).
  rewrite (skip_ws_start c r Hc). rewrite H; [reflexivity|lia|reflexivity].
Qed.

End ReadDocument.

(** ** The example instance reads what it writes *)

Section ExactParse.

Import Json Decoder.

Lemma exact_float_repr_match (s : bool) (m : positive) (e : Z) :
  match_number (exact_float_repr (S754_finite s m e))
  = Some (int_repr (if s then Zneg m else Zpos m), [],
          101%N :: int_repr e, []).
Proof.
  rewrite exact_float_repr_finite. unfold match_number.
  rewrite (match_integer_app _ _ [] (101%N :: int_repr e) eq_refl
                             (match_integer_int_repr _)).
  cbn [app match_frac]. change (101 =? 46)%N with false. cbv iota.
  unfold match_exp. change ((101 =? 101) || (101 =? 69))%N with true.
  cbv iota.
  destruct (int_repr_cases e) as (c & r & Hc & Hr & _ & [E|E]); rewrite E.
  - rewrite (digit_not_minus c Hc).
    assert (H43 : (c =? 43)%N = false).
    { destruct (N.eqb_spec c 43) as [->|]; [discriminate|reflexivity]. }
    rewrite H43. cbn [orb].
    rewrite (span_digits_all (c :: r)); [reflexivity|].
    cbn [forallb]. now rewrite Hc, Hr.
  - change ((45 =? 45) || (45 =? 43))%N with true. cbv iota.
    rewrite (span_digits_all (c :: r)); [reflexivity|].
    cbn [forallb]. now rewrite Hc, Hr.
Qed.

#[export] Instance exact_float_parse_spec :
  FloatParseSpec exact_float_repr exact_float_of_str.
Proof.
  split.
  - intros x Hx. unfold float_repr.
    destruct x as [[|]| | |s m e]; try discriminate; try reflexivity.
    unfold float_literal. now rewrite exact_float_repr_match.
  - intros x Hx. unfold float_repr, float_of_str.
    destruct x as [[|]| | |s m e]; try discriminate; try reflexivity.
    unfold exact_float_of_str. rewrite exact_float_repr_match.
    rewrite !parse_int_repr. now destruct s.
Qed.

End ExactParse.

(** ** Saving and loading the coordinator *)

Section SaveLoad.

Import VotingSystem Run.

Context {FR : FloatRepr} {FP : FloatParse} {FPS : FloatParseSpec FR FP}.

Lemma save_state_text_dumps (vs : t) :
  save_state_text vs = Json.dumps indented (to_dict vs).
Proof. reflexivity. Qed.

(** Reading the text that [save_state] wrote gives the dict that was
    dumped. *)
Lemma read_saved_state (vs : t) :
  plainb (to_dict vs) = true ->
  read_text (save_state_text vs) = Content (to_dict vs).
Proof.
  intros H. unfold read_text.
  now rewrite save_state_text_dumps, (loads_dumps _ H).
Qed.

(** [load_state] on the dict of a state that the constructors built. *)
Lemma load_state_to_dict (saved vs : t) :
  wf_state saved ->
  load_state (Content (to_dict saved)) vs
  = if Blockchain.validate_chain (blockchain saved)
    then (saved, validate_system_integrity saved)
    else (vs, Failure INVALID_BLOCKCHAIN).
Proof.
  intros Hwf. unfold load_state.
  rewrite (VotingSystem_round_trip saved Hwf).
  destruct (validate_system_integrity_total saved) as (r & Er & Hr).
  rewrite Er, Hr.
  destruct (Blockchain.validate_chain (blockchain saved)); cbn [negb];
    [now destruct saved|reflexivity].
Qed.

End SaveLoad.

Section SaveLoadClaim.

Import VotingSystem Run.

Context {FR : FloatRepr}.

(** C7 — Serialization round trip. For every reachable state,
    [from_dict] accepts what [to_dict] produced and gives a state with
    the same registered ids, the same voted ids, the same pending votes
    in the same order, the same number of blocks and the same sealed
    votes, on which [validate_system_integrity] gives the same result.
    Through the file the same holds when no string of the state holds a
    surrogate code point and its floats are of the binary64 format,
    [float] reading back what [float.__repr__] wrote: [json.load] then
    reads the text of [save_state] back as the dict that was dumped, and
    [load_state] puts the saved state in place and returns its validation
    when the ledger is valid, and refuses the file and keeps the state it
    had when the ledger is not. *)
Theorem serialization_round_trip :
  forall vs : t,
    reachable vs ->
    (exists vs' : t,
        from_dict (to_dict vs) = Ok vs'
        /\ (forall x, In x (registered vs') <-> In x (registered vs))
        /\ get_registered_voters vs' = get_registered_voters vs
        /\ (forall x, In x (voted vs') <-> In x (voted vs))
        /\ get_voted_voters vs' = get_voted_voters vs
        /\ pending_votes vs' = pending_votes vs
        /\ Blockchain.get_block_count (blockchain vs')
           = Blockchain.get_block_count (blockchain vs)
        /\ Blockchain.get_all_votes (blockchain vs')
           = Blockchain.get_all_votes (blockchain vs)
        /\ validate_system_integrity vs' = validate_system_integrity vs)
    /\ (forall FP : FloatParse,
          FloatParseSpec FR FP ->
          plainb (to_dict vs) = true ->
          Decoder.loads (FP := FP) (save_state_text vs) = Ok (to_dict vs)
          /\ forall vs0 : t,
              load_state (read_text (FP := FP) (save_state_text vs)) vs0
              = if Blockchain.validate_chain (blockchain vs)
                then (vs, validate_system_integrity vs)
                else (vs0, Failure INVALID_BLOCKCHAIN)).
Proof.
  intros vs H. apply reachable_wf in H. split.
  - exists vs. split; [now apply VotingSystem_round_trip|].
    repeat split; auto.
  - intros FP FPS Hp. split.
    + rewrite save_state_text_dumps. now apply loads_dumps.
    + intros vs0. rewrite (read_saved_state vs Hp).
      now apply load_state_to_dict.
Qed.

End SaveLoadClaim.

Section SaveLoadExamples.

Import VotingSystem Run Examples Collision.

#[local] Existing Instance exact_float_repr.
#[local] Existing Instance exact_float_of_str.

Lemma sealed1_reachable : reachable sealed1.
Proof.
  unfold sealed1, voted1, registered2.
  repeat apply run_reachable. exact fresh_reachable.
Qed.

Lemma sealed1_plain : plainb (to_dict sealed1) = true.
Proof. vm_compute. reflexivity. Qed.

(** C7 at a concrete state, with one sealed vote. *)
Lemma serialization_round_trip_witness :
  reachable sealed1
  /\ from_dict (to_dict sealed1) = Ok sealed1
  /\ load_state (read_text (save_state_text sealed1)) fresh
     = (sealed1, validate_system_integrity sealed1).
Proof.
  split; [exact sealed1_reachable|].
  destruct (serialization_round_trip sealed1 sealed1_reachable)
    as [(vs' & E & _) H].
  split.
  - rewrite E. f_equal.
    pose proof (VotingSystem_round_trip
                  sealed1 (reachable_wf _ sealed1_reachable)) as E'.
    congruence.
  - destruct (H exact_float_of_str exact_float_parse_spec sealed1_plain)
      as [_ L].
    rewrite (L fresh). now rewrite sealed1_valid.
Defined.

(** C7 fails through the file: the coordinator that registered the two
    surrogates D83D, DE00 as one voter id is saved as the very text that
    is written for the coordinator that registered the code point 1F600,
    and loading that text puts this other voter in the registered set. *)
Lemma saved_surrogate_pair_loads_as_one_character :
  register_voter (VStr pair_id) fresh
  = (registered_pair, Success (VStr pair_id))
  /\ reachable registered_pair
  /\ registered registered_pair = [pair_id]
  /\ save_state_text registered_pair = save_state_text registered_astral
  /\ load_state (read_text (save_state_text registered_pair)) fresh
     = (registered_astral, validate_system_integrity registered_astral)
  /\ registered registered_astral = [astral_id]
  /\ ~ In pair_id (registered registered_astral).
Proof.
  split; [reflexivity|].
  split; [apply reach_step, fresh_reachable|].
  split; [reflexivity|].
  split; [vm_compute; reflexivity|].
  split; [vm_compute; reflexivity|].
  split; [reflexivity|].
  intros [H|[]]. discriminate H.
Qed.

End SaveLoadExamples.

(* ================================================================== *)
(** * Casting and registering, case by case *)
(* ================================================================== *)

Section Cases.

Context {FR : FloatRepr}.

Import VotingSystem Run.

Lemma is_registered_spec (v : value) (vs : t) :
  VoterManager.is_registered v (voter_manager vs) = true
  <-> exists s, v = VStr s /\ s <> [] /\ In s (registered vs).
Proof.
  unfold VoterManager.is_registered. rewrite invalid_id_nonempty. split.
  - destruct (nonempty_str v) eqn:Hv; [|discriminate]. simpl.
    apply nonempty_str_inv in Hv as (s & -> & Hs). simpl. intros H.
    exists s. apply set_mem_In in H. auto.
  - intros (s & -> & Hs & Hin). destruct s; [contradiction|]. simpl.
    now apply set_mem_In.
Qed.

Lemma has_voted_spec (v : value) (vs : t) :
  VoterManager.has_voted v (voter_manager vs) = true
  <-> exists s, v = VStr s /\ s <> [] /\ In s (voted vs).
Proof.
  unfold VoterManager.has_voted. rewrite invalid_id_nonempty. split.
  - destruct (nonempty_str v) eqn:Hv; [|discriminate]. simpl.
    apply nonempty_str_inv in Hv as (s & -> & Hs). simpl. intros H.
    exists s. apply set_mem_In in H. auto.
  - intros (s & -> & Hs & Hin). destruct s; [contradiction|]. simpl.
    now apply set_mem_In.
Qed.

(** Every way [cast_vote] can go. *)
Lemma cast_vote_cases now (v c : value) (vs : t) :
  (VoterManager.is_registered v (voter_manager vs) = false
   /\ cast_vote now v c vs = (vs, Failure UNREGISTERED_VOTER))
  \/ (VoterManager.is_registered v (voter_manager vs) = true
      /\ VoterManager.has_voted v (voter_manager vs) = true
      /\ cast_vote now v c vs = (vs, Failure ALREADY_VOTED))
  \/ (VoterManager.is_registered v (voter_manager vs) = true
      /\ VoterManager.has_voted v (voter_manager vs) = false
      /\ (nonempty_str c = false \/ float_le0 now = true)
      /\ cast_vote now v c vs = (vs, Failure INVALID_VOTE_DATA))
  \/ (exists s cs,
         v = VStr s /\ c = VStr cs /\ s <> [] /\ cs <> []
         /\ float_le0 now = false
         /\ In s (registered vs) /\ ~ In s (voted vs)
         /\ cast_vote now v c vs
            = (Make (blockchain vs)
                    (VoterManager.Make (registered vs)
                                       (set_add s (voted vs)))
                    (pending_votes vs ++ [Vote.Make s cs (NFloat now)]),
               Success (VoteReceipt v c (NFloat now)))).
Proof.
  destruct (VoterManager.is_registered v (voter_manager vs)) eqn:Hr.
  - right. pose proof Hr as Hr'.
    apply is_registered_spec in Hr' as (s & -> & Hs & Hin).
    destruct (VoterManager.has_voted (VStr s) (voter_manager vs)) eqn:Hv.
    + left. repeat split.
      apply has_voted_spec in Hv as (s' & [= <-] & _ & Hv).
      now apply cast_vote_already_voted.
    + right.
      assert (Hnv : ~ In s (voted vs)).
      { intros H. assert (VoterManager.has_voted (VStr s) (voter_manager vs)
                          = true) by (apply has_voted_spec; eauto).
        congruence. }
      destruct (nonempty_str c) eqn:Hc.
      * apply nonempty_str_inv in Hc as (cs & -> & Hcs).
        destruct (float_le0 now) eqn:Hn.
        -- left. repeat split; auto.
           unfold cast_vote. rewrite Hr, Hv. simpl.
           unfold Vote.create_vote, Vote.new.
           destruct s; [contradiction|]. destruct cs; [contradiction|].
           simpl. now rewrite Hn.
        -- right. exists s, cs. repeat split; auto.
           now apply cast_vote_ok.
      * left. repeat split; auto.
        now apply cast_vote_invalid_candidate.
  - left. split; [reflexivity|]. unfold cast_vote. now rewrite Hr.
Qed.

(** Every way [register_voter] can go. *)
Lemma register_voter_cases (v : value) (vs : t) :
  (nonempty_str v = false
   /\ register_voter v vs = (vs, Failure INVALID_VOTER_ID))
  \/ (exists s, v = VStr s /\ s <> [] /\ In s (registered vs)
                /\ register_voter v vs = (vs, Failure DUPLICATE_VOTER))
  \/ (exists s, v = VStr s /\ s <> [] /\ ~ In s (registered vs)
                /\ register_voter v vs
                   = (Make (blockchain vs)
                           (VoterManager.Make (set_add s (registered vs))
                                              (voted vs))
                           (pending_votes vs),
                      Success v)).
Proof.
  unfold register_voter, VoterManager.register_voter.
  rewrite invalid_id_nonempty.
  destruct (nonempty_str v) eqn:Hv; simpl; [|now left].
  apply nonempty_str_inv in Hv as (s & -> & Hs). simpl. right.
  destruct (set_mem s _) eqn:Hm; simpl.
  - left. exists s. apply set_mem_In in Hm. repeat split; auto.
    now destruct vs as [bc [r vo] p].
  - right. exists s. apply set_mem_notin in Hm. auto.
Qed.

(** X1 — [cast_vote] is atomic. A failed call returns the state as it
    was; a successful one appends exactly one vote, for that voter and
    that candidate at the clock reading, to the pending list, marks that
    voter and changes nothing else. An unregistered (or invalid) voter id
    is reported as [UNREGISTERED_VOTER] and a voter who has voted as
    [ALREADY_VOTED], whatever the candidate. *)
Theorem cast_vote_atomic :
  forall (now : float) (voter_id candidate : value) (vs : t),
    let vs' := fst (cast_vote now voter_id candidate vs) in
    let o := snd (cast_vote now voter_id candidate vs) in
    (success o = false -> vs' = vs)
    /\ (success o = true ->
        exists vote,
          pending_votes vs' = pending_votes vs ++ [vote]
          /\ VStr (Vote.voter_id vote) = voter_id
          /\ VStr (Vote.candidate vote) = candidate
          /\ Vote.timestamp vote = NFloat now
          /\ blockchain vs' = blockchain vs
          /\ registered vs' = registered vs
          /\ VoterManager.has_voted voter_id (voter_manager vs) = false
          /\ forall x, In x (voted vs')
                       <-> x = Vote.voter_id vote \/ In x (voted vs))
    /\ (VoterManager.is_registered voter_id (voter_manager vs) = false ->
        o = Failure UNREGISTERED_VOTER)
    /\ (VoterManager.is_registered voter_id (voter_manager vs) = true ->
        VoterManager.has_voted voter_id (voter_manager vs) = true ->
        o = Failure ALREADY_VOTED).
Proof.
  intros now v c vs.
  destruct (cast_vote_cases now v c vs)
    as [[Hr E]|[(Hr & Hv & E)|[(Hr & Hv & Hc & E)|
        (s & cs & -> & -> & Hs & Hcs & Hn & Hin & Hnv & E)]]];
    rewrite E; cbn [fst snd success].
  - repeat split; try discriminate; congruence.
  - repeat split; try discriminate; congruence.
  - repeat split; try discriminate; congruence.
  - split; [discriminate|]. split.
    + intros _. exists (Vote.Make s cs (NFloat now)). repeat split.
      * destruct (VoterManager.has_voted (VStr s) (voter_manager vs)) eqn:Hv;
          [|reflexivity].
        apply has_voted_spec in Hv as (s' & [= <-] & _ & Hv). contradiction.
      * unfold voted; simpl. intros H. now apply set_add_In in H.
      * unfold voted; simpl. intros H. now apply set_add_In.
    + split.
      * intros Hr. assert (VoterManager.is_registered (VStr s) (voter_manager vs)
                           = true) by (apply is_registered_spec; eauto).
        congruence.
      * intros _ Hv.
        apply has_voted_spec in Hv as (s' & [= <-] & _ & Hv). contradiction.
Qed.

(** X2 — [register_voter], every outcome. An id that is not a non-empty
    string gives [INVALID_VOTER_ID], a registered id [DUPLICATE_VOTER],
    and both return the state as it was; any other id succeeds, becomes
    registered, and nothing else changes: the other registered ids, the
    voted set, the pending list and the ledger. *)
Theorem register_voter_outcomes :
  forall (voter_id : value) (vs : t),
    let vs' := fst (register_voter voter_id vs) in
    let o := snd (register_voter voter_id vs) in
    (nonempty_str voter_id = false ->
     o = Failure INVALID_VOTER_ID /\ vs' = vs)
    /\ (VoterManager.is_registered voter_id (voter_manager vs) = true ->
        o = Failure DUPLICATE_VOTER /\ vs' = vs)
    /\ (nonempty_str voter_id = true ->
        VoterManager.is_registered voter_id (voter_manager vs) = false ->
        o = Success voter_id
        /\ VoterManager.is_registered voter_id (voter_manager vs') = true
        /\ (exists s, voter_id = VStr s
                      /\ forall x, In x (registered vs')
                                   <-> x = s \/ In x (registered vs))
        /\ voted vs' = voted vs
        /\ pending_votes vs' = pending_votes vs
        /\ blockchain vs' = blockchain vs).
Proof.
  intros v vs.
  destruct (register_voter_cases v vs)
    as [[Hv E]|[(s & -> & Hs & Hin & E)|(s & -> & Hs & Hnin & E)]];
    rewrite E; cbn [fst snd].
  - split; [auto|]. split.
    + intros Hr. apply is_registered_spec in Hr as (s & -> & Hs & _).
      destruct s; [contradiction|discriminate].
    + congruence.
  - split; [destruct s; [contradiction|discriminate]|]. split; [auto|].
    intros _ Hr.
    assert (VoterManager.is_registered (VStr s) (voter_manager vs) = true)
      by (apply is_registered_spec; eauto).
    congruence.
  - split; [destruct s; [contradiction|discriminate]|]. split.
    + intros Hr. apply is_registered_spec in Hr as (s' & [= <-] & _ & Hr).
      contradiction.
    + intros _ _. split; [reflexivity|]. split.
      { apply is_registered_spec. exists s. repeat split; auto.
        unfold registered; simpl. apply set_add_In. now left. }
      split; [|repeat split].
      exists s. split; [reflexivity|]. intros x. unfold registered at 1; simpl.
      apply set_add_In.
Qed.

End Cases.

(* ================================================================== *)
(** * What every operated coordinator keeps *)
(* ================================================================== *)

Section Operation.

Context {FR : FloatRepr}.

Import VotingSystem Run.

Lemma operated_reachable (vs : t) : operated vs -> reachable vs.
Proof.
  induction 1; [eapply reach_init; eassumption|now apply reach_step].
Qed.

Lemma get_all_votes_app (chain : list Block.t) (b : Block.t) :
  Blockchain.get_all_votes (Blockchain.Make (chain ++ [b]))
  = Blockchain.get_all_votes (Blockchain.Make chain) ++ Block.votes b.
Proof.
  unfold Blockchain.get_all_votes. cbn [Blockchain.chain].
  rewrite flat_map_app. cbn [flat_map]. now rewrite app_nil_r.
Qed.

Lemma sealed_append_valid now votes (bc : Blockchain.t) (latest : Block.t)
      (ph : str) :
  Blockchain.validate_chain bc = true ->
  Blockchain.get_latest_block bc = Ok latest ->
  Block.hash latest = VStr ph ->
  Blockchain.validate_chain
    (Blockchain.Make
       (Blockchain.chain bc
          ++ [sealed now (integer_value (Block.index latest) + 1) votes
                     ph]))
  = true.
Proof.
  intros Hv E Hph. rewrite validate_chain_spec in *. cbn [Blockchain.chain].
  rewrite get_latest_block_spec in E.
  destruct (Blockchain.chain bc) as [|g rest]; [discriminate|].
  injection E as <-. cbn [app].
  apply andb_true_iff in Hv as [Hg Hl].
  now rewrite Hg, validate_links_app, Hl, link_ok_sealed.
Qed.

(** Every way sealing can go. *)
Lemma seal_cases now (vs : t) :
  (pending_votes vs = []
   /\ create_block_from_pending_votes now vs = (vs, Failure NO_PENDING_VOTES))
  \/ (pending_votes vs <> []
      /\ create_block_from_pending_votes now vs
         = (vs, Failure BLOCK_CREATION_FAILED)
      /\ Blockchain.add_block now (votes_object (pending_votes vs))
                              (blockchain vs)
         = (blockchain vs, false))
  \/ (exists latest ph receipt,
         pending_votes vs <> []
         /\ Blockchain.get_latest_block (blockchain vs) = Ok latest
         /\ Block.hash latest = VStr ph
         /\ float_le0 now = false
         /\ create_block_from_pending_votes now vs
            = (Make (Blockchain.Make
                       (Blockchain.chain (blockchain vs)
                          ++ [sealed now
                                     (integer_value (Block.index latest)
                                      + 1)
                                     (pending_votes vs) ph]))
                    (voter_manager vs) [],
               Success receipt)).
Proof.
  destruct (pending_votes vs) as [|v p] eqn:Ep.
  - left. split; [reflexivity|]. now apply seal_empty.
  - right. assert (Hp : pending_votes vs <> []) by (rewrite Ep; discriminate).
    destruct (seal_nonempty now vs Hp)
      as [(latest & ph & E & Hph & Hn & _ & E')|[Ea E']].
    + right. exists latest, ph. eexists. rewrite Ep in E'.
      repeat split; try eassumption. discriminate.
    + left. rewrite Ep in Ea. repeat split; auto. discriminate.
Qed.

(** What an operation does to the votes held: nothing, or one more at the
    end, for a voter who had not voted. *)
Lemma step_ballots (o : op) (vs : t) :
  (ballots (step o vs) = ballots vs /\ voted (step o vs) = voted vs)
  \/ (exists now s c,
         o = Cast now (VStr s) (VStr c)
         /\ s <> [] /\ c <> [] /\ float_le0 now = false
         /\ In s (registered vs) /\ ~ In s (voted vs)
         /\ ballots (step o vs)
            = ballots vs ++ [Vote.Make s c (NFloat now)]
         /\ voted (step o vs) = set_add s (voted vs)).
Proof.
  destruct o as [v|now v c|now]; simpl.
  - left.
    destruct (register_voter_cases v vs)
      as [[_ E]|[(s & _ & _ & _ & E)|(s & _ & _ & _ & E)]];
      rewrite E; auto.
  - destruct (cast_vote_cases now v c vs)
      as [[_ E]|[(_ & _ & E)|[(_ & _ & _ & E)|
          (s & cs & -> & -> & Hs & Hcs & Hn & Hin & Hnv & E)]]];
      rewrite E; auto.
    right. exists now, s, cs. repeat split; auto.
    unfold ballots. cbn [fst blockchain pending_votes]. now rewrite app_assoc.
  - left.
    destruct (seal_cases now vs)
      as [[_ E]|[(_ & E & _)|(latest & ph & r & _ & _ & _ & _ & E)]];
      rewrite E; auto.
    split; [|reflexivity]. unfold ballots.
    cbn [fst blockchain pending_votes].
    rewrite get_all_votes_app, app_nil_r. cbn [sealed Block.votes].
    now destruct (blockchain vs).
Qed.

Lemma step_valid (o : op) (vs : t) :
  Blockchain.validate_chain (blockchain vs) = true ->
  Blockchain.validate_chain (blockchain (step o vs)) = true.
Proof.
  intros Hv. destruct o as [v|now v c|now]; simpl.
  - destruct (register_voter_cases v vs)
      as [[_ E]|[(s & _ & _ & _ & E)|(s & _ & _ & _ & E)]];
      now rewrite E.
  - destruct (cast_vote_cases now v c vs)
      as [[_ E]|[(_ & _ & E)|[(_ & _ & _ & E)|
          (s & cs & _ & _ & _ & _ & _ & _ & _ & E)]]];
      now rewrite E.
  - destruct (seal_cases now vs)
      as [[_ E]|[(_ & E & _)|(latest & ph & r & _ & El & Hph & _ & E)]];
      rewrite E; auto.
    cbn [fst blockchain]. now apply sealed_append_valid.
Qed.

(** The invariant: a valid ledger, one vote per voter among the votes
    held, and the voted set made of exactly their voters. *)
Lemma operated_invariant (vs : t) :
  operated vs ->
  Blockchain.validate_chain (blockchain vs) = true
  /\ NoDup (List.map Vote.voter_id (ballots vs))
  /\ forall x, In x (voted vs) <-> In x (List.map Vote.voter_id (ballots vs)).
Proof.
  induction 1 as [now vs Hinit|o vs Hop (Hv & Hnd & Hvoted)].
  - rewrite init_spec in Hinit.
    destruct (float_le0 now) eqn:Hn; [discriminate|]. injection Hinit as <-.
    split; [|split].
    + cbn [blockchain]. rewrite validate_chain_spec.
      cbn [Blockchain.chain Blockchain.validate_links].
      unfold genesis_ok. rewrite validate_hash_sealed. reflexivity.
    + constructor.
    + intros x. split; intros [].
  - split; [now apply step_valid|].
    destruct (step_ballots o vs)
      as [[Eb Ev]|(now & s & c & _ & _ & _ & _ & _ & Hnv & Eb & Ev)];
      rewrite Eb, Ev.
    + auto.
    + rewrite map_app. cbn [List.map Vote.voter_id]. split.
      * apply NoDup_rev in Hnd.
        rewrite <- (rev_involutive (_ ++ [s])). apply NoDup_rev.
        rewrite rev_app_distr. cbn [rev app]. constructor; [|assumption].
        rewrite <- in_rev. intros Hin. apply Hnv, Hvoted, Hin.
      * intros x. rewrite set_add_In, in_app_iff, Hvoted. simpl. intuition.
Qed.

(** X3 — The integrity report of an operated coordinator is clean. After
    [VotingSystem()] and any sequence of registrations, votes and
    sealings, successful or not, [validate_system_integrity] reports a
    valid ledger, no issue and [integrity_valid]. *)
Theorem operated_integrity :
  forall vs : t,
    operated vs ->
    exists r : validation,
      validate_system_integrity vs = Success r
      /\ blockchain_valid r = true
      /\ issues r = []
      /\ integrity_valid r = true.
Proof.
  intros vs H. apply operated_invariant in H as (Hv & _ & Hvoted).
  eexists. split; [reflexivity|].
  cbn [blockchain_valid integrity_valid issues].
  fold (sealed_voters vs). fold (pending_voters vs).
  pose proof (unmarked_In vs) as Hu. pose proof (extra_In vs) as He.
  set (u := set_diff (set_of_list (sealed_voters vs)) _) in *.
  set (e := set_diff _ (set_union _ _)) in *.
  assert (Hballots : forall x, In x (List.map Vote.voter_id (ballots vs))
                               <-> In x (sealed_voters vs)
                                   \/ In x (pending_voters vs)).
  { intros x. unfold ballots, sealed_voters, pending_voters.
    now rewrite map_app, in_app_iff. }
  assert (Eu : u = []).
  { apply nil_iff_no_member. intros x Hx. apply Hu in Hx as [Hs Hn].
    apply Hn, Hvoted, Hballots. now left. }
  assert (Ee : e = []).
  { apply nil_iff_no_member. intros x Hx. apply He in Hx as (Hx & Hs & Hp).
    apply Hvoted, Hballots in Hx. tauto. }
  rewrite Eu, Ee. auto.
Qed.

(** X4 — One vote per voter in the ledger. In an operated coordinator no
    voter has two votes among the sealed and the pending votes, the voters
    of these votes are exactly the voted set, and each of them is
    registered. *)
Theorem one_vote_per_voter :
  forall vs : t,
    operated vs ->
    NoDup (List.map Vote.voter_id
                    (Blockchain.get_all_votes (blockchain vs)
                       ++ pending_votes vs))
    /\ (forall x, In x (voted vs)
                  <-> In x (sealed_voters vs) \/ In x (pending_voters vs))
    /\ (forall x, In x (sealed_voters vs) \/ In x (pending_voters vs) ->
                  In x (registered vs)).
Proof.
  intros vs H. pose proof (operated_invariant vs H) as (_ & Hnd & Hvoted).
  apply operated_reachable, reachable_wf in H as (_ & (_ & _ & _ & Hincl) & _).
  assert (Hballots : forall x, In x (List.map Vote.voter_id (ballots vs))
                               <-> In x (sealed_voters vs)
                                   \/ In x (pending_voters vs)).
  { intros x. unfold ballots, sealed_voters, pending_voters.
    now rewrite map_app, in_app_iff. }
  split; [exact Hnd|]. split.
  - intros x. now rewrite Hvoted, Hballots.
  - intros x Hx. apply Hincl, Hvoted, Hballots, Hx.
Qed.

(** X5 — The counts balance. In an operated coordinator the number of
    voters who have voted is the number of sealed votes plus the number
    of pending votes, as [validate_system_integrity] reports them. *)
Theorem voted_count_balance :
  forall vs : t,
    operated vs ->
    exists r : validation,
      validate_system_integrity vs = Success r
      /\ n_voted_voters r = (total_votes r + n_pending_votes r)%nat
      /\ VoterManager.get_voted_count (voter_manager vs)
         = (List.length (Blockchain.get_all_votes (blockchain vs))
            + get_pending_votes_count vs)%nat.
Proof.
  intros vs H. pose proof (operated_invariant vs H) as (_ & Hnd & Hvoted).
  apply operated_reachable, reachable_wf in H as (_ & (_ & Hndv & _ & _) & _).
  assert (E : List.length (voted vs)
              = (List.length (Blockchain.get_all_votes (blockchain vs))
                 + List.length (pending_votes vs))%nat).
  { rewrite <- length_app. fold (ballots vs).
    rewrite <- (length_map Vote.voter_id (ballots vs)).
    apply Nat.le_antisymm; apply NoDup_incl_length; try assumption;
      intros x Hx; now apply Hvoted. }
  eexists. split; [reflexivity|].
  cbn [n_voted_voters total_votes n_pending_votes].
  unfold get_voted_voters, VoterManager.get_voted_voters,
    VoterManager.get_voted_count, get_pending_votes_count, set_to_list.
  rewrite sorted_length. split; exact E.
Qed.

(** X6 — Votes are neither lost nor duplicated. Whatever the operation
    (registration, vote, sealing) and its outcome, the sequence of the
    sealed votes followed by the pending ones is what it was, with at
    most one vote added at its end, and then by a successful [cast_vote];
    sealing moves the pending votes into the ledger in their order. *)
Theorem votes_never_lost :
  forall (o : op) (vs : t),
    (exists extra,
        Blockchain.get_all_votes (blockchain (step o vs))
          ++ pending_votes (step o vs)
        = (Blockchain.get_all_votes (blockchain vs) ++ pending_votes vs)
            ++ extra
        /\ (List.length extra <= 1)%nat
        /\ (extra <> [] -> exists now v c,
               o = Cast now v c
               /\ success (snd (cast_vote now v c vs)) = true))
    /\ (forall now, o = Seal now ->
          success (snd (create_block_from_pending_votes now vs)) = true ->
          Blockchain.get_all_votes (blockchain (step o vs))
          = Blockchain.get_all_votes (blockchain vs) ++ pending_votes vs
          /\ pending_votes (step o vs) = []).
Proof.
  intros o vs. split.
  - destruct (step_ballots o vs)
      as [[Eb _]|(now & s & c & -> & Hs & Hc & Hn & Hin & Hnv & Eb & _)].
    + exists []. unfold ballots in Eb. rewrite Eb, app_nil_r.
      repeat split; [simpl; lia|]. intros H. contradiction.
    + exists [Vote.Make s c (NFloat now)]. unfold ballots in Eb.
      rewrite Eb.
      repeat split; [simpl; lia|]. intros _. exists now, (VStr s), (VStr c).
      split; [reflexivity|].
      now rewrite (cast_vote_ok now s c vs Hs Hc Hn Hin Hnv).
  - intros now -> Hsucc. cbn [step].
    destruct (seal_cases now vs)
      as [[_ E]|[(_ & E & _)|(latest & ph & r & _ & _ & _ & _ & E)]];
      rewrite E in *; try discriminate Hsucc.
    cbn [fst blockchain pending_votes]. split; [|reflexivity].
    rewrite get_all_votes_app. cbn [sealed Block.votes].
    now destruct (blockchain vs).
Qed.

End Operation.

(* ================================================================== *)
(** * Counting votes *)
(* ================================================================== *)

Section Tally.

Context {FR : FloatRepr}.

Import VotingSystem Run.

Lemma sum_acc (l : list Z) (a : Z) :
  fold_left Z.add l a = (a + Query.sum l)%Z.
Proof.
  unfold Query.sum. revert a.
  induction l as [|x l IH]; intros a; simpl; [lia|].
  rewrite (IH (a + x)%Z), (IH x). lia.
Qed.

Lemma sum_cons (x : Z) (l : list Z) :
  Query.sum (x :: l) = (x + Query.sum l)%Z.
Proof. unfold Query.sum at 1. simpl. apply sum_acc. Qed.

Lemma count_vote_sum (k : str) (counts : list (str * Z)) :
  Query.sum (List.map snd (Query.count_vote k counts))
  = (Query.sum (List.map snd counts) + 1)%Z.
Proof.
  induction counts as [|[k0 n] rest IH]; simpl; [reflexivity|].
  destruct (str_eqb k0 k); simpl; rewrite !sum_cons; [|rewrite IH]; lia.
Qed.

(** The dict gets its keys in the order in which a set built from the
    same candidates would. *)
Lemma count_vote_keys (k : str) (counts : list (str * Z)) :
  List.map fst (Query.count_vote k counts) = set_add k (List.map fst counts).
Proof.
  unfold set_add.
  induction counts as [|[k0 n] rest IH]; simpl; [reflexivity|].
  destruct (str_eqb k0 k); simpl; [reflexivity|].
  rewrite IH. now destruct (set_mem k (List.map fst rest)).
Qed.

Lemma count_vote_get_count (k c : str) (counts : list (str * Z)) :
  Query.get_count c (Query.count_vote k counts)
  = if str_eqb k c
    then Some (match Query.get_count c counts with
               | Some n => n + 1
               | None => 1
               end)%Z
    else Query.get_count c counts.
Proof.
  induction counts as [|[k0 n] rest IH]; simpl.
  - now destruct (str_eqb k c).
  - destruct (str_eqb k0 k) eqn:E0; simpl.
    + apply str_eqb_eq in E0 as ->. now destruct (str_eqb k c).
    + destruct (str_eqb k0 c) eqn:E1; [|exact IH].
      apply str_eqb_eq in E1 as ->.
      destruct (str_eqb k c) eqn:E2; [|reflexivity].
      apply str_eqb_eq in E2 as ->. now rewrite str_eqb_refl in E0.
Qed.

(** The counting loop, from any dict on. *)
Lemma tally_sum (votes : list Vote.t) (counts : list (str * Z)) :
  Query.sum
    (List.map snd
       (fold_left (fun counts v => Query.count_vote (Vote.candidate v) counts)
                  votes counts))
  = (Query.sum (List.map snd counts) + Z.of_nat (List.length votes))%Z.
Proof.
  revert counts. induction votes as [|v votes IH]; intros counts.
  - simpl. lia.
  - cbn [fold_left List.length]. rewrite IH, count_vote_sum. lia.
Qed.

Lemma tally_keys (votes : list Vote.t) (counts : list (str * Z)) :
  List.map fst
    (fold_left (fun counts v => Query.count_vote (Vote.candidate v) counts)
               votes counts)
  = fold_left (fun s x => set_add x s) (List.map Vote.candidate votes)
              (List.map fst counts).
Proof.
  revert counts. induction votes as [|v votes IH]; intros counts;
    [reflexivity|].
  cbn [fold_left List.map]. now rewrite IH, count_vote_keys.
Qed.

Lemma tally_get_count (c : str) (votes : list Vote.t)
      (counts : list (str * Z)) :
  Query.get_count c
    (fold_left (fun counts v => Query.count_vote (Vote.candidate v) counts)
               votes counts)
  = match Query.get_count c counts with
    | Some n => Some (n + Z.of_nat (votes_for c votes))%Z
    | None => if Nat.eqb (votes_for c votes) 0 then None
              else Some (Z.of_nat (votes_for c votes))
    end.
Proof.
  revert counts. induction votes as [|v votes IH]; intros counts.
  - simpl. destruct (Query.get_count c counts); [f_equal; lia|reflexivity].
  - cbn [fold_left]. rewrite IH, count_vote_get_count.
    unfold votes_for. cbn [filter].
    destruct (str_eqb (Vote.candidate v) c); cbn [List.length].
    + destruct (Query.get_count c counts); cbn [Nat.eqb]; f_equal; lia.
    + reflexivity.
Qed.

Lemma set_of_list_acc_NoDup (l : list str) (acc : strset) :
  NoDup acc -> NoDup (fold_left (fun s x => set_add x s) l acc).
Proof.
  revert acc. induction l as [|x l IH]; intros acc H; [exact H|].
  simpl. now apply IH, set_add_NoDup.
Qed.

Lemma set_of_list_NoDup (l : list str) : NoDup (set_of_list l).
Proof. apply set_of_list_acc_NoDup. constructor. Qed.

Lemma votes_for_app (c : str) (a b : list Vote.t) :
  votes_for c (a ++ b) = (votes_for c a + votes_for c b)%nat.
Proof. unfold votes_for. now rewrite filter_app, length_app. Qed.

(** X7 — [get_results] counts the sealed votes. It never fails; under
    each candidate [vote_counts] holds the number of sealed votes for that
    candidate, and has no key for a candidate without one; each key is
    there once, in the order of the candidates' first sealed votes;
    [total_votes] is the number of sealed votes; the pending votes are
    counted only in ["pending_votes"]. *)
Theorem get_results_tally :
  forall vs : t,
    exists r : Query.results,
      Query.get_results vs = Query.Success r
      /\ (forall c : str,
             Query.get_count c (Query.vote_counts r)
             = let n := votes_for c
                          (Blockchain.get_all_votes (blockchain vs)) in
               if Nat.eqb n 0 then None else Some (Z.of_nat n))
      /\ NoDup (List.map fst (Query.vote_counts r))
      /\ List.map fst (Query.vote_counts r)
         = set_to_list
             (set_of_list
                (List.map Vote.candidate
                          (Blockchain.get_all_votes (blockchain vs))))
      /\ Query.total_votes r
         = Z.of_nat (List.length (Blockchain.get_all_votes (blockchain vs)))
      /\ Query.pending_votes r = List.length (pending_votes vs)
      /\ Query.total_blocks r
         = List.length (Blockchain.chain (blockchain vs)).
Proof.
  intros vs. eexists. split; [reflexivity|].
  cbn [Query.vote_counts Query.total_votes Query.pending_votes
       Query.total_blocks].
  split; [|split; [|split; [|split; [|split]]]].
  - intros c. now rewrite tally_get_count.
  - rewrite tally_keys. apply set_of_list_acc_NoDup. constructor.
  - now rewrite tally_keys.
  - rewrite tally_sum. reflexivity.
  - reflexivity.
  - reflexivity.
Qed.

(** X8 — The tally moves only when a block is sealed. Registering a
    voter or casting a vote, whatever the outcome, leaves [vote_counts],
    [total_votes] and [total_blocks] of [get_results] as they were; a
    sealing that succeeds adds the pending votes to the count of their
    candidates and to the total, and one block; a sealing that fails
    changes nothing. *)
Theorem tally_moves_only_on_sealing :
  forall (o : op) (vs : t),
    exists r r' : Query.results,
      Query.get_results vs = Query.Success r
      /\ Query.get_results (step o vs) = Query.Success r'
      /\ ((forall now, o <> Seal now) ->
          Query.vote_counts r' = Query.vote_counts r
          /\ Query.total_votes r' = Query.total_votes r
          /\ Query.total_blocks r' = Query.total_blocks r)
      /\ (forall now, o = Seal now ->
          let sealing :=
            success (snd (create_block_from_pending_votes now vs)) in
          (forall c n,
              Query.get_count c (Query.vote_counts r') = Some n <->
              (0 < n)%Z
              /\ n = ((match Query.get_count c (Query.vote_counts r) with
                       | Some m => m
                       | None => 0
                       end)
                      + (if sealing
                         then Z.of_nat (votes_for c (pending_votes vs))
                         else 0))%Z)
          /\ Query.total_votes r'
             = (Query.total_votes r
                + (if sealing then Z.of_nat (Query.pending_votes r) else 0))%Z
          /\ Query.total_blocks r'
             = ((if sealing then 1 else 0) + Query.total_blocks r)%nat
          /\ Query.pending_votes r'
             = (if sealing then 0 else Query.pending_votes r)%nat).
Proof.
  intros o vs. do 2 eexists. split; [reflexivity|]. split; [reflexivity|].
  cbn [Query.vote_counts Query.total_votes Query.pending_votes
       Query.total_blocks].
  assert (Hcount : forall (l : list Vote.t) c n,
             (if Nat.eqb (votes_for c l) 0 then None
              else Some (Z.of_nat (votes_for c l))) = Some n
             <-> (0 < n)%Z /\ n = Z.of_nat (votes_for c l)).
  { intros l c n. destruct (Nat.eqb_spec (votes_for c l) 0) as [E|E].
    - rewrite E. split; [discriminate|]. simpl. lia.
    - split; [intros [= <-]; lia|]. intros [_ ->]. reflexivity. }
  split.
  - intros Ho.
    assert (E : blockchain (step o vs) = blockchain vs).
    { destruct o as [v|now v c|now]; [| |now elim (Ho now)]; simpl.
      - destruct (register_voter_cases v vs)
          as [[_ E]|[(s & _ & _ & _ & E)|(s & _ & _ & _ & E)]];
          now rewrite E.
      - destruct (cast_vote_cases now v c vs)
          as [[_ E]|[(_ & _ & E)|[(_ & _ & _ & E)|
              (s & cs & _ & _ & _ & _ & _ & _ & _ & E)]]];
          now rewrite E. }
    now rewrite E.
  - intros now ->. cbn [step]. cbv zeta.
    destruct (seal_cases now vs)
      as [[_ E]|[(_ & E & _)|(latest & ph & receipt & _ & _ & _ & _ & E)]];
      rewrite E; cbn [fst snd success blockchain pending_votes].
    + split; [|split; [|split]]; try reflexivity; try lia.
      intros c n. rewrite tally_get_count. cbn [Query.get_count].
      rewrite Hcount.
      destruct (Nat.eqb_spec
                  (votes_for c (Blockchain.get_all_votes (blockchain vs))) 0)
        as [E0|E0]; [rewrite E0|]; simpl; intuition lia.
    + split; [|split; [|split]]; try reflexivity; try lia.
      intros c n. rewrite tally_get_count. cbn [Query.get_count].
      rewrite Hcount.
      destruct (Nat.eqb_spec
                  (votes_for c (Blockchain.get_all_votes (blockchain vs))) 0)
        as [E0|E0]; [rewrite E0|]; simpl; intuition lia.
    + assert (Ev : Blockchain.get_all_votes
                     (Blockchain.Make
                        (Blockchain.chain (blockchain vs)
                           ++ [sealed now
                                      (integer_value (Block.index latest)
                                       + 1)
                                      (pending_votes vs) ph]))
                   = Blockchain.get_all_votes (blockchain vs)
                       ++ pending_votes vs).
      { rewrite get_all_votes_app. cbn [sealed Block.votes].
        now destruct (blockchain vs). }
      rewrite Ev.
      split; [|split; [|split]].
      * intros c n. rewrite !tally_get_count. cbn [Query.get_count].
        rewrite Hcount, votes_for_app.
        destruct (Nat.eqb_spec
                    (votes_for c (Blockchain.get_all_votes (blockchain vs)))
                    0) as [E0|E0]; [rewrite E0|]; simpl; intuition lia.
      * rewrite !tally_sum, length_app. cbn [List.map Query.sum fold_left].
        lia.
      * unfold Blockchain.get_block_count. cbn [Blockchain.chain].
        rewrite length_app. simpl. lia.
      * reflexivity.
Qed.

(** X9 — [get_candidate_votes] agrees with [get_results]. It never
    fails; its ["vote_count"] is the length of its ["votes"], which are
    the sealed votes for the candidate in ledger order; for a string it is
    the count that [get_results] gives (and 0 where [vote_counts] has no
    key); for an argument that is not a string it is 0. *)
Theorem get_candidate_votes_agrees :
  forall (c : value) (vs : t),
    exists (cv : Query.candidate_votes) (r : Query.results),
      Query.get_candidate_votes c vs = Query.Success cv
      /\ Query.get_results vs = Query.Success r
      /\ Query.candidate cv = c
      /\ Query.vote_count cv = List.length (Query.votes cv)
      /\ Query.votes cv
         = List.map Vote.to_dict
             (filter (fun v => Query.eq_value (Vote.candidate v) c)
                     (Blockchain.get_all_votes (blockchain vs)))
      /\ match c with
         | VStr s =>
             Z.of_nat (Query.vote_count cv)
             = match Query.get_count s (Query.vote_counts r) with
               | Some n => n
               | None => 0%Z
               end
         | _ => Query.vote_count cv = 0%nat
         end.
Proof.
  intros c vs. do 2 eexists.
  split; [reflexivity|]. split; [reflexivity|].
  cbn [Query.candidate Query.vote_count Query.votes Query.vote_counts].
  split; [reflexivity|]. split; [now rewrite length_map|].
  split; [reflexivity|].
  assert (Hnone : forall l : list Vote.t,
             List.length (filter (fun _ : Vote.t => false) l) = 0%nat).
  { induction l; simpl; auto. }
  destruct c; cbn [Query.eq_value]; try apply Hnone.
  rewrite tally_get_count. cbn [Query.get_count]. fold (votes_for s
    (Blockchain.get_all_votes (blockchain vs))).
  destruct (Nat.eqb_spec
              (votes_for s (Blockchain.get_all_votes (blockchain vs))) 0)
    as [E0|E0]; [rewrite E0|]; reflexivity.
Qed.

End Tally.

(* ================================================================== *)
(** * Sorted listings *)
(* ================================================================== *)

Section Listings.

Context {FR : FloatRepr}.

Import VotingSystem Run.

Lemma str_ltb_irrefl (a : str) : str_ltb a a = false.
Proof.
  induction a as [|x a IH]; simpl; [reflexivity|].
  now rewrite N.ltb_irrefl.
Qed.

Lemma str_ltb_trans (a b c : str) :
  str_ltb a b = true -> str_ltb b c = true -> str_ltb a c = true.
Proof.
  revert b c. induction a as [|x a IH]; intros [|y b] [|z c]; simpl;
    try discriminate; try reflexivity.
  destruct (N.ltb_spec x y), (N.ltb_spec y x), (N.ltb_spec y z),
    (N.ltb_spec z y), (N.ltb_spec x z), (N.ltb_spec z x);
    try discriminate; try reflexivity; try lia.
  apply IH.
Qed.

Lemma str_ltb_total (a b : str) :
  a <> b -> str_ltb a b = false -> str_ltb b a = true.
Proof.
  revert b. induction a as [|x a IH]; intros [|y b]; simpl;
    try discriminate; try reflexivity; try congruence.
  intros Hne.
  destruct (N.ltb_spec x y), (N.ltb_spec y x);
    try discriminate; try reflexivity; try lia.
  assert (x = y) by lia. subst y. apply IH. congruence.
Qed.

Lemma str_ltb_asym (a b : str) : str_ltb a b = true -> str_ltb b a = false.
Proof.
  intros H. destruct (str_ltb b a) eqn:E; [|reflexivity].
  pose proof (str_ltb_trans a b a H E) as Haa.
  now rewrite str_ltb_irrefl in Haa.
Qed.

Lemma insert_sorted_ascending (x : str) (l : list str) :
  Sorted.StronglySorted str_lt l -> ~ In x l ->
  Sorted.StronglySorted str_lt (insert_sorted x l).
Proof.
  induction 1 as [|z l Hs IH Hz]; intros Hx; simpl.
  - constructor; constructor.
  - destruct (str_ltb x z) eqn:E.
    + constructor; [now constructor|]. constructor; [exact E|].
      rewrite Forall_forall in *. intros y Hy.
      apply (str_ltb_trans x z y E), Hz, Hy.
    + constructor.
      * apply IH. intros Hin. apply Hx. now right.
      * rewrite Forall_forall in *. intros y Hy.
        apply insert_sorted_In in Hy as [-> | Hy]; [|now apply Hz].
        apply str_ltb_total; [|exact E]. intros ->. apply Hx. now left.
Qed.

Lemma sorted_ascending (l : list str) :
  NoDup l -> Sorted.StronglySorted str_lt (sorted l).
Proof.
  induction 1 as [|x l Hx Hnd IH]; [constructor|].
  cbn [sorted fold_right]. apply insert_sorted_ascending; [exact IH|].
  fold (sorted l). now rewrite sorted_In.
Qed.

(** Two strictly ascending lists with the same members are equal. *)
Lemma ascending_unique (l1 l2 : list str) :
  Sorted.StronglySorted str_lt l1 -> Sorted.StronglySorted str_lt l2 ->
  (forall x, In x l1 <-> In x l2) -> l1 = l2.
Proof.
  intros H1. revert l2.
  induction H1 as [|a l1 Hs1 IH Ha]; intros l2 H2 Hmem.
  - destruct l2 as [|b l2]; [reflexivity|].
    exfalso. apply (Hmem b). now left.
  - destruct H2 as [|b l2 Hs2 Hb].
    + exfalso. apply (Hmem a). now left.
    + rewrite Forall_forall in Ha, Hb.
      assert (Eab : a = b).
      { destruct (proj1 (Hmem a) (or_introl eq_refl)) as [E|Hin];
          [now symmetry|].
        destruct (proj2 (Hmem b) (or_introl eq_refl)) as [E|Hin'];
          [exact E|].
        apply Hb in Hin. apply Ha in Hin'. unfold str_lt in *.
        apply str_ltb_asym in Hin. congruence. }
      subst b. f_equal. apply IH; [exact Hs2|].
      intros x. split; intros Hx.
      * destruct (proj1 (Hmem x) (or_intror Hx)) as [E|Hin]; [|exact Hin].
        subst x. apply Ha in Hx. unfold str_lt in Hx.
        now rewrite str_ltb_irrefl in Hx.
      * destruct (proj2 (Hmem x) (or_intror Hx)) as [E|Hin]; [|exact Hin].
        subst x. apply Hb in Hx. unfold str_lt in Hx.
        now rewrite str_ltb_irrefl in Hx.
Qed.

(** X10 — [get_all_candidates] lists the candidates of the sealed votes.
    A string is in the list exactly when some sealed vote is for it; the
    list is in strictly ascending order of code points, hence without a
    repetition; a candidate with pending votes only is not in it. *)
Theorem get_all_candidates_spec :
  forall vs : t,
    (forall c : str,
        In c (Query.get_all_candidates vs)
        <-> exists v, In v (Blockchain.get_all_votes (blockchain vs))
                      /\ Vote.candidate v = c)
    /\ Sorted.StronglySorted str_lt (Query.get_all_candidates vs)
    /\ NoDup (Query.get_all_candidates vs)
    /\ (forall c : str,
           In c (Query.get_all_candidates vs)
           <-> votes_for c (Blockchain.get_all_votes (blockchain vs))
               <> 0%nat).
Proof.
  intros vs. unfold Query.get_all_candidates, set_to_list.
  set (all := Blockchain.get_all_votes (blockchain vs)).
  assert (Hmem : forall c, In c (sorted (set_of_list
                                           (List.map Vote.candidate all)))
                           <-> exists v, In v all /\ Vote.candidate v = c).
  { intros c. rewrite sorted_In, set_of_list_In, in_map_iff.
    split; intros (v & H1 & H2); exists v; auto. }
  assert (Hasc : Sorted.StronglySorted str_lt
                   (sorted (set_of_list (List.map Vote.candidate all)))).
  { apply sorted_ascending, set_of_list_NoDup. }
  split; [exact Hmem|]. split; [exact Hasc|]. split.
  - clear Hmem. induction Hasc as [|a l Hs IH Ha]; constructor; [|exact IH].
    intros Hin. rewrite Forall_forall in Ha. apply Ha in Hin.
    unfold str_lt in Hin. now rewrite str_ltb_irrefl in Hin.
  - intros c. rewrite Hmem. unfold votes_for.
    split.
    + intros (v & Hv & <-) E.
      assert (Hin : In v (filter (fun v0 => str_eqb (Vote.candidate v0)
                                                    (Vote.candidate v)) all)).
      { apply filter_In. split; [exact Hv|apply str_eqb_refl]. }
      destruct (filter _ all); [contradiction|discriminate].
    + intros Hn.
      destruct (filter (fun v => str_eqb (Vote.candidate v) c) all)
        as [|v rest] eqn:E; [contradiction|].
      assert (Hin : In v (filter (fun v => str_eqb (Vote.candidate v) c)
                                 all)) by (rewrite E; now left).
      apply filter_In in Hin as [Hv Hc]. exists v. split; [exact Hv|].
      now apply str_eqb_eq.
Qed.

(** X11 — The voter listings do not depend on the order of the sets.
    [get_registered_voters] and [get_voted_voters] return each member of
    their set once, in strictly ascending order; two managers whose sets
    have the same members give the same lists, in whatever order the sets
    hold them (unlike [to_dict], which lists the sets as they iterate). *)
Theorem voter_listings_canonical :
  forall vm vm' : VoterManager.t,
    NoDup (VoterManager.registered_voters vm) ->
    NoDup (VoterManager.registered_voters vm') ->
    NoDup (VoterManager.voted_voters vm) ->
    NoDup (VoterManager.voted_voters vm') ->
    (forall x, In x (VoterManager.registered_voters vm)
               <-> In x (VoterManager.registered_voters vm')) ->
    (forall x, In x (VoterManager.voted_voters vm)
               <-> In x (VoterManager.voted_voters vm')) ->
    VoterManager.get_registered_voters vm
    = VoterManager.get_registered_voters vm'
    /\ VoterManager.get_voted_voters vm = VoterManager.get_voted_voters vm'
    /\ Sorted.StronglySorted str_lt (VoterManager.get_registered_voters vm)
    /\ Sorted.StronglySorted str_lt (VoterManager.get_voted_voters vm)
    /\ (forall x, In x (VoterManager.get_registered_voters vm)
                  <-> In x (VoterManager.registered_voters vm))
    /\ (forall x, In x (VoterManager.get_voted_voters vm)
                  <-> In x (VoterManager.voted_voters vm)).
Proof.
  intros vm vm' Hr Hr' Hv Hv' Er Ev.
  unfold VoterManager.get_registered_voters, VoterManager.get_voted_voters,
    set_to_list.
  split; [|split; [|split; [|split; [|split]]]].
  - apply ascending_unique; try now apply sorted_ascending.
    intros x. now rewrite !sorted_In.
  - apply ascending_unique; try now apply sorted_ascending.
    intros x. now rewrite !sorted_In.
  - now apply sorted_ascending.
  - now apply sorted_ascending.
  - intros x. apply sorted_In.
  - intros x. apply sorted_In.
Qed.

End Listings.

(* ================================================================== *)
(** * The structure of a valid ledger *)
(* ================================================================== *)

Section Structure.

Context {FR : FloatRepr}.

Import VotingSystem Run.

Lemma link_ok_iff (p b : Block.t) :
  link_ok p b = true
  <-> Block.hash b = VStr (Block.calculate_hash b)
      /\ VStr (Block.previous_hash b) = Block.hash p
      /\ integer_value (Block.index b)
         = (integer_value (Block.index p) + 1)%Z.
Proof.
  unfold link_ok.
  rewrite !andb_true_iff, validate_hash_iff, str_eq_value_iff, Z.eqb_eq.
  tauto.
Qed.

Lemma genesis_ok_iff (g : Block.t) :
  genesis_ok g = true
  <-> integer_value (Block.index g) = 0%Z
      /\ Block.previous_hash g = lit "0"
      /\ Block.hash g = VStr (Block.calculate_hash g).
Proof.
  unfold genesis_ok.
  rewrite !andb_true_iff, validate_hash_iff, str_eqb_eq, Z.eqb_eq. tauto.
Qed.

(** The loop of [validate_chain] accepts exactly when every block is
    linked to the one before it. *)
Lemma validate_links_nth (p : Block.t) (rest : list Block.t) :
  Blockchain.validate_links p rest = true
  <-> forall (i : nat) (b : Block.t),
        nth_error (p :: rest) (S i) = Some b ->
        exists q, nth_error (p :: rest) i = Some q /\ link_ok q b = true.
Proof.
  revert p. induction rest as [|c rest IH]; intros p.
  - split; [|reflexivity]. intros _ [|i] b H; discriminate H.
  - rewrite validate_links_cons, andb_true_iff, IH. split.
    + intros [Hpc Hrest] [|i] b H.
      * injection H as <-. exists p. now split.
      * apply (Hrest i b H).
    + intros H. split.
      * destruct (H 0%nat c eq_refl) as (q & [= <-] & Hq). exact Hq.
      * intros i b Hb. apply (H (S i) b Hb).
Qed.

Lemma validate_chain_structure (bc : Blockchain.t) :
  Blockchain.validate_chain bc = true <-> chain_structure (Blockchain.chain bc).
Proof.
  rewrite validate_chain_spec. unfold chain_structure.
  destruct (Blockchain.chain bc) as [|g rest].
  - split; [discriminate|]. intros [H _]. now elim H.
  - rewrite andb_true_iff, genesis_ok_iff, validate_links_nth. split.
    + intros [(Hi & Hp & Hh) Hl]. split; [discriminate|].
      induction i as [|j IHj]; intros b Hb.
      * injection Hb as <-. rewrite Hi. auto.
      * destruct (Hl j b Hb) as (q & Hq & Hqb).
        apply link_ok_iff in Hqb as (Hbh & Hbp & Hbi).
        destruct (IHj q Hq) as (Hqi & _).
        split; [rewrite Hbi, Hqi; lia|]. split; [exact Hbh|].
        exists q. now split.
    + intros [_ H]. split.
      * destruct (H 0%nat g eq_refl) as (Hi & Hh & Hp). auto.
      * intros i b Hb. destruct (H (S i) b Hb) as (Hi & Hh & q & Hq & Hp).
        exists q. split; [exact Hq|]. apply link_ok_iff.
        destruct (H i q Hq) as (Hqi & _).
        repeat split; auto. rewrite Hi, Hqi. lia.
Qed.

(** X12 — What [validate_chain] accepts. It returns [True] exactly for a
    ledger that is not empty and in which every block carries its position
    as index and a stored hash equal to the hash of its content, the first
    block has the previous hash ["0"], and every other block has the
    stored hash of the block before it as previous hash. An index may be
    a [bool], which counts as 0 or 1; a stored hash that is not a string
    equals no computed hash. *)
Theorem validate_chain_iff_structure :
  forall bc : Blockchain.t,
    Blockchain.validate_chain bc = true
    <-> Blockchain.chain bc <> []
        /\ forall (i : nat) (b : Block.t),
             nth_error (Blockchain.chain bc) i = Some b ->
             integer_value (Block.index b) = Z.of_nat i
             /\ Block.validate_hash b = true
             /\ match i with
                | O => Block.previous_hash b = lit "0"
                | S j => exists p, nth_error (Blockchain.chain bc) j = Some p
                                   /\ VStr (Block.previous_hash b)
                                      = Block.hash p
                end.
Proof.
  intros bc. rewrite validate_chain_structure. unfold chain_structure.
  split; intros [Hne H]; (split; [exact Hne|]); intros i b Hb;
    destruct (H i b Hb) as (Hi & Hh & Hp);
    (split; [exact Hi|]); (split; [|exact Hp]);
    now apply validate_hash_iff.
Qed.

(** X13 — [get_block_by_index] on a valid ledger. Outside
    [0 <= index < len(chain)] the result is [None], whatever the ledger;
    inside, it is a block, and on a valid ledger that block's own index is
    the argument; so every block of a valid ledger is found under its own
    index. *)
Theorem get_block_by_index_spec :
  forall (bc : Blockchain.t) (index : Z),
    ((index < 0 \/ Z.of_nat (Blockchain.get_block_count bc) <= index)%Z ->
     Blockchain.get_block_by_index index bc = None)
    /\ ((0 <= index < Z.of_nat (Blockchain.get_block_count bc))%Z ->
        exists b, Blockchain.get_block_by_index index bc = Some b
                  /\ In b (Blockchain.chain bc)
                  /\ (Blockchain.validate_chain bc = true ->
                      integer_value (Block.index b) = index))
    /\ (Blockchain.validate_chain bc = true ->
        forall b, In b (Blockchain.chain bc) ->
                  Blockchain.get_block_by_index
                    (integer_value (Block.index b)) bc = Some b).
Proof.
  intros bc index.
  unfold Blockchain.get_block_by_index, Blockchain.get_block_count.
  split; [|split].
  - intros H.
    destruct (Z.leb_spec 0 index), (Z.ltb_spec index
      (Z.of_nat (List.length (Blockchain.chain bc)))); simpl;
      try reflexivity; lia.
  - intros H.
    destruct (Z.leb_spec 0 index), (Z.ltb_spec index
      (Z.of_nat (List.length (Blockchain.chain bc)))); try lia.
    cbn [andb].
    destruct (nth_error (Blockchain.chain bc) (Z.to_nat index)) as [b|] eqn:E.
    + exists b. split; [reflexivity|]. split; [eapply nth_error_In, E|].
      intros Hv. apply validate_chain_structure in Hv as [_ Hv].
      destruct (Hv _ _ E) as (Hi & _). rewrite Hi. lia.
    + apply nth_error_None in E. lia.
  - intros Hv b Hb. apply validate_chain_structure in Hv as [_ Hv].
    apply In_nth_error in Hb as (i & Hi).
    destruct (Hv i b Hi) as (Ei & _). rewrite Ei.
    assert (Hlt : (i < List.length (Blockchain.chain bc))%nat).
    { apply nth_error_Some. congruence. }
    destruct (Z.leb_spec 0 (Z.of_nat i)), (Z.ltb_spec (Z.of_nat i)
      (Z.of_nat (List.length (Blockchain.chain bc)))); try lia.
    cbn [andb]. now rewrite Nat2Z.id.
Qed.

Lemma last_nth_error (l : list Block.t) (g : Block.t) :
  nth_error (g :: l) (List.length l) = Some (last l g).
Proof.
  revert g. induction l as [|x l IH]; intros g; [reflexivity|].
  change (nth_error (x :: l) (List.length l) = Some (last (x :: l) g)).
  rewrite IH. f_equal. destruct l as [|y l]; [reflexivity|].
  change (last (y :: l) x = last (y :: l) g). apply last_cons.
Qed.

Lemma votes_of_items (items : list object) :
  forallb isinstance_Vote items = true ->
  List.map OVote (the_votes items) = items.
Proof.
  induction items as [|o items IH]; [reflexivity|].
  destruct o; cbn [forallb isinstance_Vote andb]; try discriminate.
  intros H. cbn [the_votes List.map]. now rewrite IH.
Qed.

(** X14 — [add_block] on a valid ledger. It returns [True] exactly when
    [votes] is a list, every item of the list is a [Vote], and the clock
    reading is above zero. It then appends one block that holds the items
    of the list in their order, has the clock reading as timestamp, the
    number of blocks so far as index and the stored hash of the former
    last block as previous hash, and the ledger stays valid. Otherwise it
    returns [False] and the ledger is unchanged. An empty list is sealed
    as well. *)
Theorem add_block_on_valid_ledger :
  forall now (votes : object) (bc : Blockchain.t),
    Blockchain.validate_chain bc = true ->
    let bc' := fst (Blockchain.add_block now votes bc) in
    let ok := snd (Blockchain.add_block now votes bc) in
    ok = isinstance_list votes
         && forallb isinstance_Vote (list_items votes)
         && negb (float_le0 now)
    /\ (ok = false -> bc' = bc)
    /\ (ok = true ->
        exists latest b,
          Blockchain.get_latest_block bc = Ok latest
          /\ Blockchain.chain bc' = Blockchain.chain bc ++ [b]
          /\ Blockchain.get_latest_block bc' = Ok b
          /\ List.map OVote (Block.votes b) = list_items votes
          /\ Block.timestamp b = NFloat now
          /\ Block.index b = IInt (Z.of_nat (Blockchain.get_block_count bc))
          /\ VStr (Block.previous_hash b) = Block.hash latest
          /\ Block.validate_hash b = true
          /\ Blockchain.get_all_votes bc'
             = Blockchain.get_all_votes bc ++ Block.votes b
          /\ Blockchain.validate_chain bc' = true).
Proof.
  intros now votes bc Hv bc' ok. subst bc' ok.
  pose proof (proj1 (validate_chain_structure bc) Hv) as [Hne Hs].
  pose proof (get_latest_block_spec bc) as El.
  destruct (Blockchain.chain bc) as [|g rest] eqn:Ec; [now elim Hne|].
  destruct (Hs (List.length rest) (last rest g) (last_nth_error rest g))
    as (Hidx & Hhash & _).
  unfold Blockchain.add_block.
  destruct (isinstance_list votes); cbn [negb andb fst snd];
    [|split; [reflexivity|split; [reflexivity|discriminate]]].
  destruct (forallb isinstance_Vote (list_items votes)) eqn:Hitems;
    cbn [negb andb fst snd];
    [|split; [reflexivity|split; [reflexivity|discriminate]]].
  rewrite El, Hhash, create_block_spec.
  destruct (Z.ltb_spec (integer_value (Block.index (last rest g)) + 1) 0)
    as [Hneg|_]; [lia|].
  destruct (float_le0 now) eqn:Hn; cbn [fst snd negb].
  - split; [reflexivity|]. split; [reflexivity|discriminate].
  - split; [reflexivity|]. split; [discriminate|]. intros _.
    exists (last rest g). eexists. split; [reflexivity|].
    cbn [Blockchain.chain]. rewrite Ec. split; [reflexivity|].
    cbn [sealed Block.votes Block.timestamp Block.index Block.previous_hash].
    split.
    { rewrite get_latest_block_spec. cbn [Blockchain.chain app].
      now rewrite last_app_single. }
    split; [now apply votes_of_items|]. split; [reflexivity|]. split.
    { f_equal. unfold Blockchain.get_block_count. rewrite Ec.
      cbn [List.length]. lia. }
    split; [now rewrite Hhash|]. split; [apply validate_hash_sealed|]. split.
    { rewrite <- Ec, get_all_votes_app. cbn [sealed Block.votes].
      now destruct bc. }
    rewrite <- Ec. apply sealed_append_valid; [exact Hv| |exact Hhash].
    now rewrite get_latest_block_spec, Ec.
Qed.

End Structure.

(* ================================================================== *)
(** * Looking up a voter *)
(* ================================================================== *)

Section Lookup.

Context {FR : FloatRepr}.

Import VotingSystem Run.

Lemma filter_voter_none (s : str) (l : list Vote.t) :
  ~ In s (List.map Vote.voter_id l) ->
  filter (fun v => Query.eq_value (Vote.voter_id v) (VStr s)) l = [].
Proof.
  induction l as [|v l IH]; [reflexivity|]. cbn [List.map filter].
  intros H.
  change (Query.eq_value (Vote.voter_id v) (VStr s))
    with (str_eqb (Vote.voter_id v) s).
  destruct (str_eqb (Vote.voter_id v) s) eqn:E.
  - apply str_eqb_eq in E. elim H. now left.
  - apply IH. intros Hin. apply H. now right.
Qed.

Lemma filter_voter_unique (s : str) (l : list Vote.t) :
  NoDup (List.map Vote.voter_id l) -> In s (List.map Vote.voter_id l) ->
  exists v, filter (fun v => Query.eq_value (Vote.voter_id v) (VStr s)) l
            = [v]
            /\ Vote.voter_id v = s /\ In v l.
Proof.
  induction l as [|v l IH]; [intros _ []|].
  cbn [List.map filter]. intros Hnd Hin. inversion Hnd as [|x l' Hx Hnd']; subst.
  change (Query.eq_value (Vote.voter_id v) (VStr s))
    with (str_eqb (Vote.voter_id v) s).
  destruct (str_eqb (Vote.voter_id v) s) eqn:E.
  - apply str_eqb_eq in E. subst s. exists v.
    rewrite (filter_voter_none _ _ Hx). repeat split. now left.
  - apply str_eqb_neq in E. destruct Hin as [Hin|Hin]; [contradiction|].
    destruct (IH Hnd' Hin) as (w & Hw & Hs & Hl).
    exists w. repeat split; auto. now right.
Qed.

Lemma filter_not_str (voter_id : value) (l : list Vote.t) :
  (forall s, voter_id <> VStr s) ->
  filter (fun v => Query.eq_value (Vote.voter_id v) voter_id) l = [].
Proof.
  intros H. induction l as [|v l IH]; [reflexivity|]. cbn [filter].
  destruct voter_id; cbn [Query.eq_value]; try exact IH.
  now elim (H s).
Qed.

(** X15 — [get_vote_by_voter] on an operated coordinator. For an
    identifier that is not registered the answer is
    [VOTER_NOT_REGISTERED]; for a registered voter who has not voted it is
    ["registered_not_voted"] without a vote; for a voter who has voted it
    is the one vote that the coordinator holds for that voter, with status
    ["voted"] when it is sealed and ["pending"] when it is not. The errors
    [MULTIPLE_VOTES_FOUND] and [VOTE_NOT_FOUND] do not occur. *)
Theorem get_vote_by_voter_operated :
  forall (voter_id : value) (vs : t),
    operated vs ->
    (VoterManager.is_registered voter_id (voter_manager vs) = false ->
     Query.get_vote_by_voter voter_id vs
     = Query.Failure Query.VOTER_NOT_REGISTERED)
    /\ (VoterManager.is_registered voter_id (voter_manager vs) = true ->
        VoterManager.has_voted voter_id (voter_manager vs) = false ->
        Query.get_vote_by_voter voter_id vs
        = Query.Success
            (Query.VoterVote voter_id false None Query.RegisteredNotVoted))
    /\ (VoterManager.has_voted voter_id (voter_manager vs) = true ->
        exists vote : Vote.t,
          VStr (Vote.voter_id vote) = voter_id
          /\ (forall v, In v (Blockchain.get_all_votes (blockchain vs)
                                ++ pending_votes vs) ->
                        Vote.voter_id v = Vote.voter_id vote -> v = vote)
          /\ ((In vote (Blockchain.get_all_votes (blockchain vs))
               /\ Query.get_vote_by_voter voter_id vs
                  = Query.Success
                      (Query.VoterVote voter_id true
                                       (Some (Vote.to_dict vote))
                                       Query.Voted))
              \/ (In vote (pending_votes vs)
                  /\ Query.get_vote_by_voter voter_id vs
                     = Query.Success
                         (Query.VoterVote voter_id true
                                          (Some (Vote.to_dict vote))
                                          Query.Pending))))
    /\ Query.get_vote_by_voter voter_id vs
       <> Query.Failure Query.MULTIPLE_VOTES_FOUND
    /\ Query.get_vote_by_voter voter_id vs
       <> Query.Failure Query.VOTE_NOT_FOUND.
Proof.
  intros voter_id vs H.
  pose proof (operated_invariant vs H) as (_ & Hnd & Hvoted).
  apply operated_reachable, reachable_wf in H
    as (_ & (_ & _ & Hne & Hincl) & _).
  fold (registered vs) in Hne, Hincl. fold (voted vs) in Hincl.
  unfold ballots in Hnd, Hvoted. rewrite map_app in Hnd, Hvoted.
  assert (Hsealed : forall s, ~ In s (voted vs) ->
            filter (fun v => Query.eq_value (Vote.voter_id v) (VStr s))
                   (Blockchain.get_all_votes (blockchain vs)) = []).
  { intros s Hs. apply filter_voter_none. intros Hin. apply Hs, Hvoted.
    apply in_app_iff. now left. }
  assert (Hreg : forall s, In s (voted vs) ->
            VoterManager.is_registered (VStr s) (voter_manager vs) = true
            /\ VoterManager.has_voted (VStr s) (voter_manager vs) = true).
  { intros s Hs. pose proof (Hincl s Hs) as Hr.
    rewrite Forall_forall in Hne. pose proof (Hne s Hr) as Hn.
    split; [apply is_registered_spec|apply has_voted_spec];
      exists s; auto. }
  assert (Hnot : forall v, VoterManager.has_voted v (voter_manager vs) = false ->
            filter (fun w => Query.eq_value (Vote.voter_id w) v)
                   (Blockchain.get_all_votes (blockchain vs)) = []).
  { intros v Hv.
    assert (Hcases : (exists s, v = VStr s) \/ forall s, v <> VStr s).
    { destruct v; try (right; discriminate). left. now eexists. }
    destruct Hcases as [[s ->]|Hn]; [|now apply filter_not_str].
    apply Hsealed. intros Hin. apply Hreg in Hin as [_ Hin]. congruence. }
  assert (Hvotedcase :
            VoterManager.has_voted voter_id (voter_manager vs) = true ->
            exists vote : Vote.t,
              VStr (Vote.voter_id vote) = voter_id
              /\ (forall v, In v (Blockchain.get_all_votes (blockchain vs)
                                    ++ pending_votes vs) ->
                        Vote.voter_id v = Vote.voter_id vote -> v = vote)
              /\ ((In vote (Blockchain.get_all_votes (blockchain vs))
                   /\ Query.get_vote_by_voter voter_id vs
                      = Query.Success
                          (Query.VoterVote voter_id true
                                           (Some (Vote.to_dict vote))
                                           Query.Voted))
                  \/ (In vote (pending_votes vs)
                      /\ Query.get_vote_by_voter voter_id vs
                         = Query.Success
                             (Query.VoterVote voter_id true
                                              (Some (Vote.to_dict vote))
                                              Query.Pending)))).
  { intros Hv. pose proof Hv as Hv'.
    apply has_voted_spec in Hv' as (s & -> & Hs & Hin).
    destruct (Hreg s Hin) as [Hr _].
    pose proof (proj1 (Hvoted s) Hin) as Hb. rewrite <- map_app in Hb, Hnd.
    destruct (filter_voter_unique s _ Hnd Hb) as (vote & Hf & Hid & Hl).
    exists vote. split; [now rewrite Hid|]. split.
    { intros v Hvin Hvid.
      assert (Hvf : In v [vote]).
      { rewrite <- Hf. apply filter_In. split; [exact Hvin|].
        cbn [Query.eq_value]. apply str_eqb_eq. congruence. }
      destruct Hvf as [Hvf|[]]. now symmetry. }
    rewrite filter_app in Hf. unfold Query.get_vote_by_voter.
    destruct (filter (fun v => Query.eq_value (Vote.voter_id v) (VStr s))
                     (Blockchain.get_all_votes (blockchain vs)))
      as [|v1 rest1] eqn:E1.
    - right. cbn [app] in Hf. rewrite Hr, Hv, Hf. split; [|reflexivity].
      assert (Hvf : In vote (filter (fun v => Query.eq_value (Vote.voter_id v) (VStr s)) (pending_votes vs)))
        by (rewrite Hf; now left).
      now apply filter_In in Hvf.
    - left. injection Hf as -> Hrest.
      apply app_eq_nil in Hrest as [-> _]. cbn [List.length Nat.ltb Nat.leb].
      split; [|reflexivity].
      assert (Hvf : In vote (filter (fun v => Query.eq_value (Vote.voter_id v) (VStr s)) (Blockchain.get_all_votes (blockchain vs))))
        by (rewrite E1; now left).
      now apply filter_In in Hvf. }
  split; [|split; [|split; [|split]]].
  - intros Hr. unfold Query.get_vote_by_voter.
    destruct (VoterManager.has_voted voter_id (voter_manager vs)) eqn:Hv.
    + apply has_voted_spec in Hv as (s & -> & Hs & Hin).
      apply Hreg in Hin as [Hin _]. congruence.
    + now rewrite (Hnot _ Hv), Hr.
  - intros Hr Hv. unfold Query.get_vote_by_voter.
    now rewrite (Hnot _ Hv), Hr, Hv.
  - exact Hvotedcase.
  - destruct (VoterManager.has_voted voter_id (voter_manager vs)) eqn:Hv.
    + destruct (Hvotedcase eq_refl) as (vote & _ & _ & [[_ E]|[_ E]]);
        rewrite E; discriminate.
    + unfold Query.get_vote_by_voter. rewrite (Hnot _ Hv).
      destruct (VoterManager.is_registered voter_id (voter_manager vs));
        rewrite ?Hv; discriminate.
  - destruct (VoterManager.has_voted voter_id (voter_manager vs)) eqn:Hv.
    + destruct (Hvotedcase eq_refl) as (vote & _ & _ & [[_ E]|[_ E]]);
        rewrite E; discriminate.
    + unfold Query.get_vote_by_voter. rewrite (Hnot _ Hv).
      destruct (VoterManager.is_registered voter_id (voter_manager vs));
        rewrite ?Hv; discriminate.
Qed.

End Lookup.

(* ================================================================== *)
(** * Saving and loading *)
(* ================================================================== *)

Section Reload.

Context {FR : FloatRepr}.

Import VotingSystem Run.

(** Reading the text that [save_to_file] wrote gives the dict that was
    dumped. *)
Lemma read_saved_ledger {FP : FloatParse} {FPS : FloatParseSpec FR FP}
      (bc : Blockchain.t) :
  plainb (Blockchain.to_dict bc) = true ->
  read_text (BlockchainFile.save_to_file_text bc)
  = Content (Blockchain.to_dict bc).
Proof.
  intros H. unfold read_text.
  change (BlockchainFile.save_to_file_text bc)
    with (Json.dumps indented (Blockchain.to_dict bc)).
  now rewrite (loads_dumps _ H).
Qed.

(** X16 — [Blockchain.load_from_file] is all-or-nothing and validating.
    When it returns [False] the ledger is untouched; when it returns
    [True] the ledger is the one decoded from the file and it passes
    [validate_chain]; and the text that [save_to_file] writes for a valid
    ledger loads back to that ledger, when no string of the ledger holds a
    surrogate code point and its floats are of the binary64 format,
    [float] reading back what [float.__repr__] wrote. *)
Theorem load_from_file_all_or_nothing :
  forall (f : file) (bc : Blockchain.t),
    let bc' := fst (BlockchainFile.load_from_file f bc) in
    let ok := snd (BlockchainFile.load_from_file f bc) in
    (ok = false -> bc' = bc)
    /\ (ok = true ->
        Blockchain.validate_chain bc' = true
        /\ Forall wf_block (Blockchain.chain bc')
        /\ exists data, f = Content data
                        /\ Blockchain.from_dict data = Ok bc')
    /\ (forall (FP : FloatParse) (saved : Blockchain.t),
           FloatParseSpec FR FP ->
           Blockchain.validate_chain saved = true ->
           Forall wf_block (Blockchain.chain saved) ->
           plainb (Blockchain.to_dict saved) = true ->
           BlockchainFile.load_from_file
             (read_text (FP := FP)
                        (BlockchainFile.save_to_file_text saved)) bc
           = (saved, true)).
Proof.
  intros f bc. cbv zeta. split; [|split].
  - destruct f as [| |data]; try reflexivity.
    unfold BlockchainFile.load_from_file.
    destruct (Blockchain.from_dict data) as [loaded|e]; [|reflexivity].
    destruct (Blockchain.validate_chain loaded); [discriminate|reflexivity].
  - destruct f as [| |data]; try discriminate.
    unfold BlockchainFile.load_from_file.
    destruct (Blockchain.from_dict data) as [loaded|e] eqn:E;
      [|discriminate].
    destruct (Blockchain.validate_chain loaded) eqn:Hv; [|discriminate].
    intros _. cbn [negb fst]. destruct loaded as [chain].
    cbn [Blockchain.chain]. split; [exact Hv|]. split.
    + apply (Blockchain_from_dict_wf _ _ E).
    + exists data. now split.
  - intros FP saved FPS Hv Hwf Hp. rewrite (read_saved_ledger saved Hp).
    unfold BlockchainFile.load_from_file.
    rewrite (Blockchain_round_trip saved Hwf), Hv. cbn [negb].
    now destruct saved.
Qed.

(** X17 — Saving and loading restores an operated coordinator. The text
    that [save_state] writes for a coordinator that was only operated
    through the public interface, with voter ids and candidates that hold
    no surrogate code point and clock readings of the binary64 format, is
    accepted by [load_state], whatever the state of the coordinator that
    loads it; the state afterwards is the saved one, and the validation
    that is returned is clean. *)
Theorem load_state_restores_operated :
  forall (FP : FloatParse) (saved vs : t),
    FloatParseSpec FR FP ->
    operated saved ->
    plainb (to_dict saved) = true ->
    exists r : validation,
      load_state (read_text (FP := FP) (save_state_text saved)) vs
      = (saved, Success r)
      /\ validate_system_integrity saved = Success r
      /\ blockchain_valid r = true
      /\ integrity_valid r = true
      /\ issues r = [].
Proof.
  intros FP saved vs FPS H Hplain.
  pose proof (reachable_wf saved (operated_reachable saved H)) as Hwf.
  pose proof (operated_invariant saved H) as (Hv & _ & Hvoted).
  destruct (validate_system_integrity_total saved) as (r & Er & Hr).
  exists r. rewrite (read_saved_state saved Hplain). unfold load_state.
  rewrite (VotingSystem_round_trip saved Hwf), Er, Hr, Hv. cbn [negb].
  split; [now destruct saved|]. split; [reflexivity|].
  split; [congruence|].
  assert (Hballots : forall x, In x (List.map Vote.voter_id (ballots saved))
                               <-> In x (sealed_voters saved)
                                   \/ In x (pending_voters saved)).
  { intros x. unfold ballots, sealed_voters, pending_voters.
    now rewrite map_app, in_app_iff. }
  pose proof (unmarked_In saved) as Hu. pose proof (extra_In saved) as He.
  unfold validate_system_integrity in Er. injection Er as <-.
  cbn [integrity_valid issues].
  fold (sealed_voters saved). fold (pending_voters saved).
  set (u := set_diff (set_of_list (sealed_voters saved)) _) in *.
  set (e := set_diff _ (set_union _ _)) in *.
  assert (Eu : u = []).
  { apply nil_iff_no_member. intros x Hx. apply Hu in Hx as [Hs Hn].
    apply Hn, Hvoted, Hballots. now left. }
  assert (Ee : e = []).
  { apply nil_iff_no_member. intros x Hx. apply He in Hx as (Hx & Hs & Hp).
    apply Hvoted, Hballots in Hx. tauto. }
  rewrite Eu, Ee. auto.
Qed.

Lemma id_test (v : value) :
  negb (isinstance_str v) || negb (truthy v) = negb (nonempty_str v).
Proof.
  unfold nonempty_str. destruct (isinstance_str v), (truthy v); reflexivity.
Qed.

Lemma load_registered_inv (l : list value) (s r : strset) :
  VoterManager.load_registered l s = Ok r ->
  (forall v, In v l -> nonempty_str v = true)
  /\ (forall x, In x r <-> In x s \/ In (VStr x) l).
Proof.
  revert s. induction l as [|v l IH]; intros s; cbn [VoterManager.load_registered].
  - intros [= <-]. split; [intros v []|]. intros x. simpl. tauto.
  - rewrite id_test. destruct (nonempty_str v) eqn:Hv; [|discriminate].
    cbn [negb]. intros E. apply IH in E as [Hl Hmem].
    apply nonempty_str_inv in Hv as (y & -> & Hy).
    split.
    + intros w [<-|Hw]; [|now apply Hl].
      apply nonempty_str_inv. now exists y.
    + intros x. rewrite Hmem. cbn [VoterManager.add].
      rewrite set_add_In. simpl. intuition congruence.
Qed.

Lemma load_registered_ok (l : list value) (s : strset) :
  (forall v, In v l -> nonempty_str v = true) ->
  exists r, VoterManager.load_registered l s = Ok r.
Proof.
  revert s. induction l as [|v l IH]; intros s H;
    cbn [VoterManager.load_registered].
  - now eexists.
  - rewrite id_test, (H v (or_introl eq_refl)). cbn [negb].
    apply IH. intros w Hw. apply H. now right.
Qed.

Lemma load_voted_inv (l : list value) (reg s r : strset) :
  VoterManager.load_voted l reg s = Ok r ->
  (forall v, In v l ->
             nonempty_str v = true /\ VoterManager.contains v reg = true)
  /\ (forall x, In x r <-> In x s \/ In (VStr x) l).
Proof.
  revert s. induction l as [|v l IH]; intros s; cbn [VoterManager.load_voted].
  - intros [= <-]. split; [intros v []|]. intros x. simpl. tauto.
  - rewrite id_test. destruct (nonempty_str v) eqn:Hv; [|discriminate].
    cbn [negb]. destruct (VoterManager.contains v reg) eqn:Hc; [|discriminate].
    cbn [negb]. intros E. apply IH in E as [Hl Hmem].
    pose proof Hv as Hv'. apply nonempty_str_inv in Hv' as (y & -> & Hy).
    split.
    + intros w [<-|Hw]; [|now apply Hl]. now split.
    + intros x. rewrite Hmem. cbn [VoterManager.add].
      rewrite set_add_In. simpl. intuition congruence.
Qed.

Lemma load_voted_ok (l : list value) (reg s : strset) :
  (forall v, In v l ->
             nonempty_str v = true /\ VoterManager.contains v reg = true) ->
  exists r, VoterManager.load_voted l reg s = Ok r.
Proof.
  revert s. induction l as [|v l IH]; intros s H;
    cbn [VoterManager.load_voted].
  - now eexists.
  - destruct (H v (or_introl eq_refl)) as [Hv Hc].
    rewrite id_test, Hv, Hc. cbn [negb].
    apply IH. intros w Hw. apply H. now right.
Qed.

(** X18 — What [VoterManager.from_dict] accepts. On a dict whose two
    entries are lists, it succeeds exactly when every listed item is a
    non-empty string and every voted item is also listed as registered;
    the manager it returns holds exactly the listed identifiers, each
    once, so a repeated identifier is taken once and a voted voter is
    always a registered one. Other keys of the dict are ignored. *)
Theorem VoterManager_from_dict_accepts :
  forall (items : list (str * value)) (rs vd : list value),
    lookup (lit "registered_voters") items = Some (VList rs) ->
    lookup (lit "voted_voters") items = Some (VList vd) ->
    ((exists vm, VoterManager.from_dict (VDict items) = Ok vm)
     <-> (forall v, In v rs -> nonempty_str v = true)
         /\ (forall v, In v vd -> nonempty_str v = true /\ In v rs))
    /\ (forall vm,
           VoterManager.from_dict (VDict items) = Ok vm ->
           (forall x, In x (VoterManager.registered_voters vm)
                      <-> In (VStr x) rs)
           /\ (forall x, In x (VoterManager.voted_voters vm)
                         <-> In (VStr x) vd)
           /\ NoDup (VoterManager.registered_voters vm)
           /\ NoDup (VoterManager.voted_voters vm)
           /\ incl (VoterManager.voted_voters vm)
                   (VoterManager.registered_voters vm)).
Proof.
  intros items rs vd Hr Hv.
  assert (E : VoterManager.from_dict (VDict items)
              = (r <- VoterManager.load_registered rs set_empty ;;
                 v <- VoterManager.load_voted vd r set_empty ;;
                 Ok (VoterManager.Make r v))).
  { unfold VoterManager.from_dict, VoterManager.required_keys.
    cbn [forallb]. unfold has_key. now rewrite Hr, Hv. }
  rewrite E. clear E.
  assert (Hcontains : forall r v,
             (forall x, In x r <-> In x set_empty \/ In (VStr x) rs) ->
             nonempty_str v = true ->
             (VoterManager.contains v r = true <-> In v rs)).
  { intros r v Hmem Hn. apply nonempty_str_inv in Hn as (y & -> & _).
    cbn [VoterManager.contains]. rewrite set_mem_In, Hmem.
    unfold set_empty. simpl. tauto. }
  split.
  - split.
    + intros [vm Hvm].
      destruct (VoterManager.load_registered rs set_empty) as [r|e] eqn:Er;
        [|discriminate].
      cbn [bind] in Hvm.
      destruct (VoterManager.load_voted vd r set_empty) as [v|e] eqn:Ev;
        [|discriminate].
      apply load_registered_inv in Er as [Hrs Hmem].
      apply load_voted_inv in Ev as [Hvd _].
      split; [exact Hrs|]. intros w Hw. destruct (Hvd w Hw) as [Hn Hc].
      split; [exact Hn|]. now apply (Hcontains r w Hmem Hn).
    + intros [Hrs Hvd].
      destruct (load_registered_ok rs set_empty Hrs) as [r Er].
      pose proof (load_registered_inv _ _ _ Er) as [_ Hmem].
      destruct (load_voted_ok vd r set_empty) as [v Ev].
      { intros w Hw. destruct (Hvd w Hw) as [Hn Hin].
        split; [exact Hn|]. now apply (Hcontains r w Hmem Hn). }
      exists (VoterManager.Make r v). rewrite Er. cbn [bind].
      now rewrite Ev.
  - intros vm Hvm.
    destruct (VoterManager.load_registered rs set_empty) as [r|e] eqn:Er;
      [|discriminate].
    cbn [bind] in Hvm.
    destruct (VoterManager.load_voted vd r set_empty) as [v|e] eqn:Ev;
      [|discriminate].
    injection Hvm as <-. cbn [VoterManager.registered_voters
                              VoterManager.voted_voters].
    destruct (load_registered_wf rs set_empty r) as [Hndr _];
      [constructor|constructor|exact Er|].
    destruct (load_voted_wf vd r set_empty v) as [Hndv Hincl];
      [constructor|intros x []|exact Ev|].
    apply load_registered_inv in Er as [_ Hmem].
    apply load_voted_inv in Ev as [_ Hmemv].
    split; [|split; [|split; [|split]]]; auto.
    + intros x. rewrite Hmem. unfold set_empty. simpl. tauto.
    + intros x. rewrite Hmemv. unfold set_empty. simpl. tauto.
Qed.

(** X19 — A blank hash is filled in at decoding. [Block.from_dict], on
    the dict of a block whose stored hash counts as false (the empty
    string, [None], 0, an empty list), returns the block with the hash of
    its content, which passes [validate_hash]: what [__post_init__] does
    for a new block it also does for a decoded one. A block with any
    other stored hash is decoded with that hash, valid or not. *)
Theorem from_dict_fills_blank_hash :
  forall b : Block.t,
    (0 <= integer_value (Block.index b))%Z ->
    number_le0 (Block.timestamp b) = false ->
    Forall wf_vote (Block.votes b) ->
    (truthy (Block.hash b) = false ->
     exists b', Block.from_dict (Block.to_dict b) = Ok b'
                /\ Block.index b' = Block.index b
                /\ Block.timestamp b' = Block.timestamp b
                /\ Block.votes b' = Block.votes b
                /\ Block.previous_hash b' = Block.previous_hash b
                /\ Block.hash b' = VStr (Block.calculate_hash b)
                /\ Block.validate_hash b' = true)
    /\ (truthy (Block.hash b) = true ->
        Block.from_dict (Block.to_dict b) = Ok b).
Proof.
  intros [i ts votes ph h] Hi Hts Hvotes.
  cbn [Block.index Block.timestamp Block.votes Block.previous_hash
       Block.hash] in *.
  assert (E : Block.from_dict (Block.to_dict (Block.Make i ts votes ph h))
              = Block.new (integer_to_value i) (number_to_value ts) votes
                          (VStr ph) h).
  { unfold Block.from_dict, Block.to_dict.
    cbn [Block.index Block.timestamp Block.votes Block.previous_hash
         Block.hash].
    change (negb (forallb _ Block.required_keys)) with false.
    cbv iota.
    change (lookup (lit "index") _) with (Some (integer_to_value i)).
    change (lookup (lit "timestamp") _) with (Some (number_to_value ts)).
    change (lookup (lit "votes") _)
      with (Some (VList (List.map Vote.to_dict votes))).
    change (lookup (lit "previous_hash") _) with (Some (VStr ph)).
    change (lookup (lit "hash") _) with (Some h).
    cbv iota. cbn [Block.iterate bind].
    now rewrite (votes_round_trip votes Hvotes). }
  rewrite E. unfold Block.new.
  rewrite as_integer_to_value, as_number_to_value.
  destruct (Z.ltb_spec (integer_value i) 0) as [Hneg|_]; [lia|]. rewrite Hts.
  split.
  - intros ->. cbn [negb]. eexists. split; [reflexivity|].
    cbn [Block.index Block.timestamp Block.votes Block.previous_hash
         Block.hash].
    repeat (split; [reflexivity|]).
    unfold Block.validate_hash. cbn [Block.hash str_eq_value].
    apply str_eqb_refl.
  - intros ->. reflexivity.
Qed.

End Reload.

(* ================================================================== *)
(** * The properties above at concrete states *)
(* ================================================================== *)

Section Instances.

Import VotingSystem Run Examples.

#[local] Existing Instance exact_float_repr.

Lemma fresh_operated : operated fresh.
Proof. apply (operated_init now1), fresh_init. Qed.

Lemma run_operated (ops : list op) :
  forall vs, operated vs -> operated (run ops vs).
Proof.
  induction ops as [|o ops IH]; intros vs H; simpl; [assumption|].
  apply IH. now apply operated_step.
Qed.

Lemma voted1_operated : operated voted1.
Proof.
  unfold voted1, registered2. repeat apply run_operated.
  exact fresh_operated.
Qed.

Lemma sealed1_operated : operated sealed1.
Proof. unfold sealed1. apply run_operated. exact voted1_operated. Qed.

Lemma registered2_sets :
  registered registered2 = [lit "alice"; lit "bob"]
  /\ registered registered2' = [lit "bob"; lit "alice"]
  /\ voted registered2 = [] /\ voted registered2' = [].
Proof. repeat split; vm_compute; reflexivity. Qed.

Lemma alice_vote_wf :
  wf_vote (Vote.Make (lit "alice") (lit "A") (NFloat now2)).
Proof.
  apply (Vote_new_wf alice candidate_a (VFloat now2)).
  vm_compute. reflexivity.
Qed.

(** X3 at the state in which Alice's vote is sealed. *)
Lemma operated_integrity_witness :
  operated sealed1
  /\ exists r : validation,
      validate_system_integrity sealed1 = Success r
      /\ blockchain_valid r = true
      /\ issues r = []
      /\ integrity_valid r = true.
Proof.
  split; [exact sealed1_operated|].
  exact (operated_integrity sealed1 sealed1_operated).
Defined.

(** X4 at the state in which Alice's vote is pending. *)
Lemma one_vote_per_voter_witness :
  operated voted1
  /\ NoDup (List.map Vote.voter_id
                     (Blockchain.get_all_votes (blockchain voted1)
                        ++ pending_votes voted1)).
Proof.
  split; [exact voted1_operated|].
  exact (proj1 (one_vote_per_voter voted1 voted1_operated)).
Defined.

(** X5 at the state in which Alice's vote is pending. *)
Lemma voted_count_balance_witness :
  operated voted1
  /\ exists r : validation,
      validate_system_integrity voted1 = Success r
      /\ n_voted_voters r = (total_votes r + n_pending_votes r)%nat.
Proof.
  split; [exact voted1_operated|].
  destruct (voted_count_balance voted1 voted1_operated) as (r & E & H & _).
  exists r. split; [exact E|exact H].
Defined.

(** X11 at two managers that registered Alice and Bob in the two
    orders. *)
Lemma voter_listings_canonical_witness :
  VoterManager.registered_voters (voter_manager registered2)
  <> VoterManager.registered_voters (voter_manager registered2')
  /\ VoterManager.get_registered_voters (voter_manager registered2)
     = VoterManager.get_registered_voters (voter_manager registered2').
Proof.
  destruct registered2_sets as (E1 & E2 & E3 & E4).
  unfold registered, voted in *.
  split; [rewrite E1, E2; intros H; vm_compute in H; discriminate H|].
  refine (proj1 (voter_listings_canonical
                   (voter_manager registered2) (voter_manager registered2')
                   _ _ _ _ _ _)).
  - rewrite E1.
    constructor; [simpl; intros [H|[]]; vm_compute in H; discriminate H|].
    constructor; [intros []|constructor].
  - rewrite E2.
    constructor; [simpl; intros [H|[]]; vm_compute in H; discriminate H|].
    constructor; [intros []|constructor].
  - rewrite E3. constructor.
  - rewrite E4. constructor.
  - intros x. rewrite E1, E2. simpl. tauto.
  - intros x. rewrite E3, E4. tauto.
Defined.

(** X14 at the ledger of [sealed1]: one more block, without votes. *)
Lemma add_block_on_valid_ledger_witness :
  Blockchain.validate_chain (blockchain sealed1) = true
  /\ snd (Blockchain.add_block now3 (OList [OValue (VStr (lit "A"))])
                               (blockchain sealed1))
     = false
  /\ snd (Blockchain.add_block now3 (votes_object []) (blockchain sealed1))
     = true.
Proof.
  split; [exact sealed1_valid|]. split.
  - rewrite (proj1 (add_block_on_valid_ledger
                      now3 (OList [OValue (VStr (lit "A"))])
                      (blockchain sealed1) sealed1_valid)).
    reflexivity.
  - rewrite (proj1 (add_block_on_valid_ledger
                      now3 (votes_object []) (blockchain sealed1)
                      sealed1_valid)).
    vm_compute. reflexivity.
Defined.

(** X15 at the state in which Alice's vote is sealed, for Bob, who is
    registered and has not voted. *)
Lemma get_vote_by_voter_operated_witness :
  operated sealed1
  /\ Query.get_vote_by_voter bob sealed1
     = Query.Success
         (Query.VoterVote bob false None Query.RegisteredNotVoted).
Proof.
  split; [exact sealed1_operated|].
  destruct (get_vote_by_voter_operated bob sealed1 sealed1_operated)
    as (_ & H & _).
  apply H; vm_compute; reflexivity.
Defined.

(** X16: the ledger with Alice's vote sealed, written and loaded into a
    fresh ledger. *)
Lemma load_from_file_all_or_nothing_witness :
  Blockchain.validate_chain (blockchain sealed1) = true
  /\ plainb (Blockchain.to_dict (blockchain sealed1)) = true
  /\ BlockchainFile.load_from_file
       (read_text (FP := exact_float_of_str)
                  (BlockchainFile.save_to_file_text (blockchain sealed1)))
       (blockchain fresh)
     = (blockchain sealed1, true).
Proof.
  assert (Hp : plainb (Blockchain.to_dict (blockchain sealed1)) = true)
    by (vm_compute; reflexivity).
  split; [exact sealed1_valid|]. split; [exact Hp|].
  destruct (load_from_file_all_or_nothing
              (read_text (FP := exact_float_of_str)
                         (BlockchainFile.save_to_file_text
                            (blockchain sealed1)))
              (blockchain fresh)) as (_ & _ & H).
  apply H; [exact exact_float_parse_spec|exact sealed1_valid| |exact Hp].
  exact (proj1 (reachable_wf sealed1 sealed1_reachable)).
Defined.

(** X17: the state with Alice's vote sealed, loaded into a fresh
    coordinator. *)
Lemma load_state_restores_operated_witness :
  operated sealed1
  /\ plainb (to_dict sealed1) = true
  /\ exists r : validation,
      load_state (read_text (FP := exact_float_of_str)
                            (save_state_text sealed1)) fresh
      = (sealed1, Success r).
Proof.
  split; [exact sealed1_operated|]. split; [exact sealed1_plain|].
  destruct (load_state_restores_operated
              exact_float_of_str sealed1 fresh exact_float_parse_spec
              sealed1_operated sealed1_plain)
    as (r & E & _).
  exists r. exact E.
Defined.

(** X18 at a document that lists Alice and Bob, and Alice as voted. *)
Lemma VoterManager_from_dict_accepts_witness :
  lookup (lit "registered_voters")
         [ (lit "registered_voters", VList [alice; bob]);
           (lit "voted_voters", VList [alice]) ]
  = Some (VList [alice; bob])
  /\ lookup (lit "voted_voters")
            [ (lit "registered_voters", VList [alice; bob]);
              (lit "voted_voters", VList [alice]) ]
     = Some (VList [alice])
  /\ forall vm,
      VoterManager.from_dict
        (VDict [ (lit "registered_voters", VList [alice; bob]);
                 (lit "voted_voters", VList [alice]) ]) = Ok vm ->
      forall x, In x (VoterManager.voted_voters vm) <-> In (VStr x) [alice].
Proof.
  assert (H1 : lookup (lit "registered_voters")
                      [ (lit "registered_voters", VList [alice; bob]);
                        (lit "voted_voters", VList [alice]) ]
               = Some (VList [alice; bob])) by (vm_compute; reflexivity).
  assert (H2 : lookup (lit "voted_voters")
                      [ (lit "registered_voters", VList [alice; bob]);
                        (lit "voted_voters", VList [alice]) ]
               = Some (VList [alice])) by (vm_compute; reflexivity).
  split; [exact H1|]. split; [exact H2|].
  intros vm Hvm.
  destruct (VoterManager_from_dict_accepts _ _ _ H1 H2) as [_ H].
  exact (proj1 (proj2 (H vm Hvm))).
Defined.

(** X19 at the second block of [sealed1], its hash blanked. *)
Lemma from_dict_fills_blank_hash_witness :
  (0 <= 1)%Z
  /\ float_le0 now3 = false
  /\ exists b',
      Block.from_dict
        (Block.to_dict
           (Block.Make (IInt 1) (NFloat now3)
                       [Vote.Make (lit "alice") (lit "A") (NFloat now2)]
                       (Block.digest (IInt 0) (NFloat now1) [] (lit "0"))
                       (VStr [])))
      = Ok b'
      /\ Block.validate_hash b' = true.
Proof.
  assert (H1 : (0 <= 1)%Z) by lia.
  assert (H2 : float_le0 now3 = false) by (vm_compute; reflexivity).
  split; [exact H1|]. split; [exact H2|].
  destruct (from_dict_fills_blank_hash
              (Block.Make (IInt 1) (NFloat now3)
                          [Vote.Make (lit "alice") (lit "A") (NFloat now2)]
                          (Block.digest (IInt 0) (NFloat now1) [] (lit "0"))
                          (VStr []))
              H1 H2 (Forall_cons _ alice_vote_wf (Forall_nil _)))
    as [H _].
  destruct (H eq_refl) as (b' & E & _ & _ & _ & _ & _ & Hv).
  exists b'. split; [exact E|exact Hv].
Defined.

End Instances.
